(** * Unicycler assembly graph: a shallow embedding and its properties

    The definitions below follow [unicycler/assembly_graph.py].  Python
    dictionaries are finite maps ([gmap]); Python lists are lists; signed
    segment numbers are integers ([Z]); read depths (Python floats) are
    modelled as exact rationals ([Q]), with [float('inf')] as a separate
    constructor; exceptions are an error result. *)

From Stdlib Require Import ZArith QArith Qminmax Qabs List String Ascii Lia.
From stdpp Require Import gmap strings list fin_maps pretty.

Local Open Scope Z_scope.

(** ** Exceptions *)

Inductive exn : Type :=
| ValueError
| KeyError
| IndexError
| ZeroDivisionError
| AssertionError.

Inductive result (A : Type) : Type :=
| Ok (a : A)
| Raise (e : exn).

Arguments Ok {A} a.
Arguments Raise {A} e.

#[global] Instance result_ret : MRet result := fun _ a => Ok a.
#[global] Instance result_bind : MBind result := fun _ _ f m =>
  match m with
  | Ok a => f a
  | Raise e => Raise e
  end.
#[global] Instance result_fmap : FMap result := fun _ _ f m =>
  match m with
  | Ok a => Ok (f a)
  | Raise e => Raise e
  end.

Definition is_Ok {A} (r : result A) : Prop := exists a, r = Ok a.

(** [d[k]] on a dictionary: [KeyError] when the key is missing. *)
Definition getitem {K} `{Countable K} {V} (m : gmap K V) (k : K) : result V :=
  match m !! k with
  | Some v => Ok v
  | None => Raise KeyError
  end.

(** [assert c]. *)
Definition assert (c : bool) : result unit :=
  if c then Ok tt else Raise AssertionError.

(** ** Python list primitives *)

(** [l.remove(x)]: drops the first occurrence of [x]; [ValueError] when
    there is none. *)
Fixpoint list_remove (x : Z) (l : list Z) : result (list Z) :=
  match l with
  | [] => Raise ValueError
  | y :: l' => if decide (y = x) then Ok l' else cons y <$> list_remove x l'
  end.

(** [x in l]. *)
Definition py_in (x : Z) (l : list Z) : bool := bool_decide (x ∈ l).

(** ** Segments and bridges *)

Inductive bridge_kind : Type :=
| SpadesContigBridge
| LoopUnrollingBridge
| LongReadBridge.

(** The fields of a bridge object that the graph reads. *)
Record Bridge : Type := mkBridge {
  bridge_kind_of : bridge_kind;
  start_segment : Z;
  end_segment : Z;
  bridge_graph_path : list Z;
  bridge_sequence : string;
  bridge_depth : Q;
  quality : Q
}.

Record Segment : Type := mkSegment {
  number : Z;
  depth : Q;
  forward_sequence : string;
  reverse_sequence : string;
  bridge : option Bridge;
  graph_path : option (list Z)
}.

(** [complement_base]: [reverse[forward.find(base)]]; a base that is not
    found gives index [-1], the final ['N'] of [reverse]. *)
Definition complement_forward : list ascii :=
  list_ascii_of_string "ATGCatgcRYSWKMryswkmBDHVbdhvNn.-?".
Definition complement_reverse : list ascii :=
  list_ascii_of_string "TACGtacgYRSWMKyrswmkVHDBvhdbNn.-?N".

Fixpoint find_base (b : ascii) (l : list ascii) (i : nat) : option nat :=
  match l with
  | [] => None
  | c :: l' => if Ascii.eqb c b then Some i else find_base b l' (S i)
  end.

Definition complement_base (b : ascii) : ascii :=
  match find_base b complement_forward 0 with
  | Some i => nth i complement_reverse "N"%char
  | None => "N"%char
  end.

Definition reverse_complement (seq : string) : string :=
  string_of_list_ascii (map complement_base (reverse (list_ascii_of_string seq))).

(** [Segment.__init__] *)
Definition new_Segment (num : Z) (d : Q) (sequence : string) (positive : bool)
    (b : option Bridge) (gp : option (list Z)) : Segment :=
  {| number := num; depth := d;
     forward_sequence := if positive then sequence else EmptyString;
     reverse_sequence := if positive then EmptyString else sequence;
     bridge := b; graph_path := gp |}.

Definition string_empty (s : string) : bool :=
  match s with EmptyString => true | _ => false end.

(** [Segment.build_other_sequence_if_necessary] *)
Definition build_other_sequence_if_necessary (s : Segment) : Segment :=
  let fwd := if string_empty (forward_sequence s)
             then reverse_complement (reverse_sequence s)
             else forward_sequence s in
  let rv := if string_empty (reverse_sequence s)
            then reverse_complement fwd
            else reverse_sequence s in
  {| number := number s; depth := depth s;
     forward_sequence := fwd; reverse_sequence := rv;
     bridge := bridge s; graph_path := graph_path s |}.

Definition get_length (s : Segment) : Z :=
  Z.of_nat (String.length (forward_sequence s)).

Definition get_length_no_overlap (s : Segment) (ov : Z) : Z :=
  get_length s - ov.

(** ** The graph *)

Record AssemblyGraph : Type := mkGraph {
  segments : gmap Z Segment;
  forward_links : gmap Z (list Z);
  reverse_links : gmap Z (list Z);
  copy_depths : gmap Z (list Q);
  paths : gmap string (list Z);
  overlap : Z
}.

Definition set_links (g : AssemblyGraph) (f r : gmap Z (list Z)) : AssemblyGraph :=
  {| segments := segments g; forward_links := f; reverse_links := r;
     copy_depths := copy_depths g; paths := paths g; overlap := overlap g |}.

Definition set_segments (g : AssemblyGraph) (s : gmap Z Segment) : AssemblyGraph :=
  {| segments := s; forward_links := forward_links g;
     reverse_links := reverse_links g;
     copy_depths := copy_depths g; paths := paths g; overlap := overlap g |}.

Definition set_copy_depths (g : AssemblyGraph) (c : gmap Z (list Q)) : AssemblyGraph :=
  {| segments := segments g; forward_links := forward_links g;
     reverse_links := reverse_links g;
     copy_depths := c; paths := paths g; overlap := overlap g |}.

Definition set_paths (g : AssemblyGraph) (p : gmap string (list Z)) : AssemblyGraph :=
  {| segments := segments g; forward_links := forward_links g;
     reverse_links := reverse_links g;
     copy_depths := copy_depths g; paths := p; overlap := overlap g |}.

(** ** Link table *)

(** One of the four blocks of [add_link]:
    [if k not in d: d[k] = []] then [if v not in d[k]: d[k].append(v)]. *)
Definition link_add (k v : Z) (d : gmap Z (list Z)) : gmap Z (list Z) :=
  let l := default [] (d !! k) in
  if py_in v l then <[k := l]> d else <[k := l ++ [v]]> d.

(** [AssemblyGraph.add_link] *)
Definition add_link (start end_ : Z) (g : AssemblyGraph) : AssemblyGraph :=
  let f1 := link_add start end_ (forward_links g) in
  let r1 := link_add end_ start (reverse_links g) in
  let r2 := link_add (- start) (- end_) r1 in
  let f2 := link_add (- end_) (- start) f1 in
  set_links g f2 r2.

(** One of the four statements of [remove_link]:
    [if k in d: d[k].remove(v)]. *)
Definition link_remove (k v : Z) (d : gmap Z (list Z)) : result (gmap Z (list Z)) :=
  match d !! k with
  | None => Ok d
  | Some l => l' ← list_remove v l; Ok (<[k := l']> d)
  end.

(** [AssemblyGraph.remove_link].  The four statements run in the order of
    the source, each on the maps as the previous one left them, so that two
    of them acting on the same list see each other's removal. *)
Definition remove_link (start end_ : Z) (g : AssemblyGraph) : result AssemblyGraph :=
  f1 ← link_remove start end_ (forward_links g);
  f2 ← link_remove (- end_) (- start) f1;
  r1 ← link_remove end_ start (reverse_links g);
  r2 ← link_remove (- start) (- end_) r1;
  Ok (set_links g f2 r2).

(** [remove_nums_from_links]: a key whose absolute value is listed is
    dropped; the other lists lose the listed numbers, and a list left empty
    is deleted with its key. *)
Definition remove_nums_from_links (links : gmap Z (list Z)) (nums_to_remove : list Z)
    : gmap Z (list Z) :=
  map_imap (fun n_1 n_2 =>
    if py_in (Z.abs n_1) nums_to_remove then None
    else match List.filter (fun x => negb (py_in (Z.abs x) nums_to_remove)) n_2 with
         | [] => None
         | l => Some l
         end) links.

(** The test of [remove_segments] on one path: does it mention a listed
    number or the negation of one? *)
Definition path_mentions (nums_to_remove path_nums : list Z) : bool :=
  existsb (fun x => py_in x path_nums) nums_to_remove
  || existsb (fun x => py_in x path_nums) (map Z.opp nums_to_remove).

(** [AssemblyGraph.remove_segments] *)
Definition remove_segments (nums_to_remove : list Z) (g : AssemblyGraph) : AssemblyGraph :=
  {| segments := filter (fun kv => negb (py_in kv.1 nums_to_remove)) (segments g);
     forward_links := remove_nums_from_links (forward_links g) nums_to_remove;
     reverse_links := remove_nums_from_links (reverse_links g) nums_to_remove;
     copy_depths := foldl (fun c num => delete num c) (copy_depths g) nums_to_remove;
     paths := filter (fun kv => negb (path_mentions nums_to_remove kv.2)) (paths g);
     overlap := overlap g |}.

(** [max(self.segments) + 1]; [max] of an empty dictionary is a
    [ValueError]. *)
Definition max_key (m : gmap Z Segment) : option Z :=
  foldr (fun k acc => Some (match acc with Some a => Z.max k a | None => k end))
        None (map_to_list m).*1.

Definition get_next_available_seg_number (g : AssemblyGraph) : result Z :=
  match max_key (segments g) with
  | Some current_largest => Ok (current_largest + 1)
  | None => Raise ValueError
  end.

(** ** Dead ends *)

Definition no_links (d : gmap Z (list Z)) (n : Z) : bool :=
  match d !! n with
  | None => true
  | Some [] => true
  | Some _ => false
  end.

(** [AssemblyGraph.dead_end_count] *)
Definition dead_end_count (g : AssemblyGraph) (seg_num : Z) : Z :=
  (if no_links (forward_links g) seg_num then 1 else 0)
  + (if no_links (reverse_links g) seg_num then 1 else 0).

(** The two counting loops shared by [dead_end_change_if_deleted] and
    [dead_end_change_if_path_deleted]:
    [for x in xs: if len(other[x]) == 1: potential_dead_ends += 1]. *)
Fixpoint count_sole_links (other : gmap Z (list Z)) (xs : list Z) (acc : Z) : result Z :=
  match xs with
  | [] => Ok acc
  | x :: xs' =>
      l ← getitem other x;
      count_sole_links other xs' (if decide (length l = 1%nat) then acc + 1 else acc)
  end.

(** [AssemblyGraph.dead_end_change_if_deleted] *)
Definition dead_end_change_if_deleted (g : AssemblyGraph) (seg_num : Z) : result Z :=
  let downstream_segments := default [] (forward_links g !! seg_num) in
  p1 ← count_sole_links (reverse_links g) downstream_segments 0;
  let upstream_segments := default [] (reverse_links g !! seg_num) in
  p2 ← count_sole_links (forward_links g) upstream_segments p1;
  Ok (p2 - dead_end_count g seg_num).

(** [lst[i]] for an index counted from the front. *)
Definition list_getitem (l : list Z) (i : nat) : result Z :=
  match l !! i with
  | Some x => Ok x
  | None => Raise IndexError
  end.

(** [lst == 0]: in Python a list is never equal to an integer. *)
Definition list_eq_int (l : list Z) (n : Z) : bool := false.

(** [AssemblyGraph.dead_end_change_if_path_deleted] *)
Definition dead_end_change_if_path_deleted (g : AssemblyGraph) (path_segments : list Z)
    : result Z :=
  start ← list_getitem path_segments 0;
  end_ ← list_getitem path_segments 1;
  let downstream_segments := default [] (forward_links g !! end_) in
  p1 ← count_sole_links (reverse_links g) downstream_segments 0;
  let upstream_segments := default [] (reverse_links g !! start) in
  p2 ← count_sole_links (forward_links g) upstream_segments p1;
  let dead_ends :=
    (if list_eq_int downstream_segments 0 then 1 else 0)
    + (if list_eq_int upstream_segments 0 then 1 else 0) in
  Ok (p2 - dead_ends).

(** ** Applying a bridge *)

Definition Qlt_bool (x y : Q) : bool := negb (Qle_bool y x).

(** [max(0.0, x)] *)
Definition py_max0 (x : Q) : Q := if Qlt_bool 0 x then x else 0%Q.

(** [min(l, key=lambda x: abs(x - d))], as the index of the chosen entry:
    the first one whose distance is the least. *)
Fixpoint closest_index (d : Q) (l : list Q) (i : nat) (best : nat) (best_key : Q) : nat :=
  match l with
  | [] => best
  | x :: l' =>
      let k := Qabs (x - d) in
      if Qlt_bool k best_key then closest_index d l' (S i) i k
      else closest_index d l' (S i) best best_key
  end.

Definition remove_closest (d : Q) (l : list Q) : list Q :=
  match l with
  | [] => []
  | x :: l' => delete (closest_index d l' 1 0 (Qabs (x - d))) l
  end.

Definition set_depth (s : Segment) (d : Q) : Segment :=
  {| number := number s; depth := d;
     forward_sequence := forward_sequence s; reverse_sequence := reverse_sequence s;
     bridge := bridge s; graph_path := graph_path s |}.

(** [AssemblyGraph.remove_segment_depth] *)
Definition remove_segment_depth (seg_num : Z) (depth_to_remove : Q) (g : AssemblyGraph)
    : AssemblyGraph :=
  let seg_num := Z.abs seg_num in
  match segments g !! seg_num with
  | None => g
  | Some seg =>
      let g1 := set_segments g
        (<[seg_num := set_depth seg (py_max0 (depth seg - depth_to_remove))]> (segments g)) in
      match copy_depths g !! seg_num with
      | None => g1
      | Some [] => g1
      | Some l => set_copy_depths g1 (<[seg_num := remove_closest depth_to_remove l]> (copy_depths g))
      end
  end.

(** A Python [for x in lst: body] whose body may change the list object
    that is being iterated: the iterator keeps an index into the live list
    and stops when the index reaches its current length.  [cur] reads the
    list from the state.  [fuel] bounds the number of rounds; a loop that
    uses it up is reported as [None]. *)
Fixpoint for_live_list {S : Type} (fuel : nat) (cur : S -> list Z)
    (body : Z -> S -> result S) (i : nat) (s : S) : option (result S) :=
  match fuel with
  | O => None
  | Datatypes.S fuel' =>
      match cur s !! i with
      | None => Some (Ok s)
      | Some x =>
          match body x s with
          | Ok s' => for_live_list fuel' cur body (Datatypes.S i) s'
          | Raise e => Some (Raise e)
          end
      end
  end.

Definition links_of (d : gmap Z (list Z)) (n : Z) : list Z := default [] (d !! n).

(** First loop of [apply_bridge]:
    [for link in self.forward_links[start]: self.remove_link(start, link)].
    [remove_link] shortens the very list the loop runs over. *)
Definition remove_forward_links_of (start : Z) (g : AssemblyGraph)
    : option (result AssemblyGraph) :=
  match forward_links g !! start with
  | None => Some (Ok g)
  | Some l =>
      for_live_list (Datatypes.S (length l)) (fun g => links_of (forward_links g) start)
        (fun link => remove_link start link) 0 g
  end.

(** Second loop of [apply_bridge]:
    [for link in self.reverse_links[end]: self.remove_link(link, end)]. *)
Definition remove_reverse_links_of (end_ : Z) (g : AssemblyGraph)
    : option (result AssemblyGraph) :=
  match reverse_links g !! end_ with
  | None => Some (Ok g)
  | Some l =>
      for_live_list (Datatypes.S (length l)) (fun g => links_of (reverse_links g) end_)
        (fun link => remove_link link end_) 0 g
  end.

(** [AssemblyGraph.apply_bridge]; the result is the graph and the number of
    the new segment (the source returns the segment object stored under
    that number). *)
Definition apply_bridge_after_unlinking (b : Bridge) (start end_ : Z) (sequence : string)
    (gp : list Z) (g2 : AssemblyGraph) : result (AssemblyGraph * Z) :=
  new_seg_num ← get_next_available_seg_number g2;
  let new_seg := build_other_sequence_if_necessary
    (new_Segment new_seg_num (bridge_depth b) sequence true (Some b) (Some gp)) in
  let g3 := set_segments g2 (<[new_seg_num := new_seg]> (segments g2)) in
  let g4 := add_link start new_seg_num g3 in
  let g5 := add_link new_seg_num end_ g4 in
  let g6 := foldl (fun g seg => remove_segment_depth seg (bridge_depth b) g) g5 gp in
  Ok (g6, new_seg_num).

Definition apply_bridge (b : Bridge) (start end_ : Z) (sequence : string)
    (gp : list Z) (g : AssemblyGraph) : option (result (AssemblyGraph * Z)) :=
  match remove_forward_links_of start g with
  | None => None
  | Some (Raise e) => Some (Raise e)
  | Some (Ok g1) =>
      match remove_reverse_links_of end_ g1 with
      | None => None
      | Some (Raise e) => Some (Raise e)
      | Some (Ok g2) => Some (apply_bridge_after_unlinking b start end_ sequence gp g2)
      end
  end.

(** ** Path helpers *)

(** [lst[i:i+len(pattern)] == pattern] at the front of [lst]. *)
Fixpoint starts_with (pattern lst : list Z) : bool :=
  match pattern, lst with
  | [], _ => true
  | p :: pattern', x :: lst' => bool_decide (x = p) && starts_with pattern' lst'
  | _ :: _, [] => false
  end.

(** One round of the [for] loop of [find_replace_in_list]: the first place
    where the pattern occurs is replaced; [None] when it occurs nowhere.
    The source reads [pattern[0]] first, so the pattern is not empty. *)
Fixpoint find_replace_first (lst pattern replacement : list Z) : option (list Z) :=
  match lst with
  | [] => None
  | x :: lst' =>
      if starts_with pattern lst
      then Some (replacement ++ drop (length pattern) lst)
      else cons x <$> find_replace_first lst' pattern replacement
  end.

(** [find_replace_in_list]: rounds are repeated while one replaces
    something.  [fuel] bounds the number of rounds ([None] when used up). *)
Fixpoint find_replace_in_list (fuel : nat) (lst pattern replacement : list Z)
    : option (list Z) :=
  match fuel with
  | O => None
  | S fuel' =>
      match find_replace_first lst pattern replacement with
      | None => Some lst
      | Some lst' => find_replace_in_list fuel' lst' pattern replacement
      end
  end.

(** [find_replace_one_val_in_list] *)
Definition find_replace_one_val_in_list (lst : list Z) (val replacement : Z) : list Z :=
  if py_in val lst
  then map (fun x => if decide (x = val) then replacement else x) lst
  else lst.

(** The [while seg in path] loop of [split_path]: the pieces between the
    occurrences of [seg], before the short ones are thrown out. *)
Fixpoint split_on (seg : Z) (path : list Z) : list (list Z) :=
  match path with
  | [] => [[]]
  | x :: path' =>
      if decide (x = seg) then [] :: split_on seg path'
      else match split_on seg path' with
           | [] => [[x]]
           | piece :: pieces => (x :: piece) :: pieces
           end
  end.

(** [split_path] *)
Definition split_path (path : list Z) (seg : Z) : list (list Z) :=
  List.filter (fun x => bool_decide (1 < length x)%nat) (split_on seg path).

(** [split_path_multiple] *)
Definition split_path_multiple (path : list Z) (segs : list Z) : list (list Z) :=
  foldl (fun path_parts seg => flat_map (fun part => split_path part seg) path_parts)
        [path] segs.

(** [insert_num_in_list] *)
Fixpoint insert_num_in_list (lst : list Z) (val_1 val_2 insert_val : Z) : list Z :=
  match lst with
  | val :: ((next_val :: _) as rest) =>
      if bool_decide (val = val_1) && bool_decide (next_val = val_2)
      then val :: insert_val :: insert_num_in_list rest val_1 val_2 insert_val
      else val :: insert_num_in_list rest val_1 val_2 insert_val
  | _ => lst
  end.

(** ** Sequences *)

(** Python slices [s[a:]] and [s[:b]] for any integer bound. *)
Definition slice_from (s : string) (a : Z) : string :=
  let l := list_ascii_of_string s in
  let start := if a <? 0 then Z.max (Z.of_nat (length l) + a) 0 else a in
  string_of_list_ascii (drop (Z.to_nat start) l).

Definition slice_to (s : string) (b : Z) : string :=
  let l := list_ascii_of_string s in
  let stop := if b <? 0 then Z.max (Z.of_nat (length l) + b) 0 else b in
  string_of_list_ascii (take (Z.to_nat stop) l).

(** [AssemblyGraph.get_seq_from_signed_seg_num] *)
Definition get_seq_from_signed_seg_num (g : AssemblyGraph) (signed_num : Z) : result string :=
  if 0 <? signed_num
  then forward_sequence <$> getitem (segments g) signed_num
  else reverse_sequence <$> getitem (segments g) (- signed_num).

(** The body of the loop of [get_path_sequence] for the entries after the
    first. *)
Fixpoint get_path_sequence_from (g : AssemblyGraph) (path_sequence : string)
    (prev_segment_number : Z) (path_segments : list Z) : result string :=
  match path_segments with
  | [] => Ok path_sequence
  | seg_num :: rest =>
      segment ← getitem (segments g) (Z.abs seg_num);
      let seg_sequence := if 0 <? seg_num then forward_sequence segment
                          else reverse_sequence segment in
      links ← getitem (forward_links g) prev_segment_number;
      _ ← assert (py_in seg_num links);
      _ ← (if 0 <? overlap g
           then assert (bool_decide (slice_from path_sequence (- overlap g)
                                     = slice_to seg_sequence (overlap g)))
           else Ok tt);
      get_path_sequence_from g (path_sequence +:+ slice_from seg_sequence (overlap g))
        seg_num rest
  end.

(** [AssemblyGraph.get_path_sequence] *)
Definition get_path_sequence (g : AssemblyGraph) (path_segments : list Z) : result string :=
  match path_segments with
  | [] => Ok EmptyString
  | seg_num :: rest =>
      segment ← getitem (segments g) (Z.abs seg_num);
      let seg_sequence := if 0 <? seg_num then forward_sequence segment
                          else reverse_sequence segment in
      get_path_sequence_from g seg_sequence seg_num rest
  end.

(** ** Merging a simple path *)

Definition Qsum (l : list Q) : Q := foldl Qplus 0%Q l.
Definition Zsum (l : list Z) : Z := foldl Z.add 0 l.

(** Modelled from the spec: [weighted_average_list] lives in
    [unicycler/misc.py], which is not part of the sources at hand.  The spec
    describes the merged depth as the weighted mean of the component depths
    with weights [length - overlap]: the weighted sum over the sum of the
    weights. *)
Definition weighted_average_list (nums : list Q) (weights : list Z) : result Q :=
  let w := Zsum weights in
  if decide (w = 0) then Raise ZeroDivisionError
  else Ok (Qsum (zip_with (fun n w => n * inject_Z w)%Q nums weights) / inject_Z w)%Q.

(** [for x in xs: self.segments[abs(x)]] *)
Fixpoint path_segment_objects (g : AssemblyGraph) (xs : list Z) : result (list Segment) :=
  match xs with
  | [] => Ok []
  | x :: xs' =>
      s ← getitem (segments g) (Z.abs x);
      ss ← path_segment_objects g xs';
      Ok (s :: ss)
  end.

(** [lst[-1]] *)
Definition list_last (l : list Z) : result Z :=
  match last l with
  | Some x => Ok x
  | None => Raise IndexError
  end.

(** The name of the [i]-th piece (counted from 0) of a path that was split:
    [path_name + '_' + str(i+1)]. *)
Definition piece_name (path_name : string) (i : nat) : string :=
  path_name +:+ "_" +:+ pretty (S i).

(** [for i, path in enumerate(split_paths):
      new_paths[path_name + '_' + str(i+1)] = path], from index [i] on. *)
Fixpoint store_numbered (path_name : string) (i : nat) (split_paths : list (list Z))
    (new_paths : gmap string (list Z)) : gmap string (list Z) :=
  match split_paths with
  | [] => new_paths
  | p :: rest =>
      store_numbered path_name (S i) rest (<[piece_name path_name i := p]> new_paths)
  end.

(** What one path contributes to [new_paths] in [merge_simple_path], given
    its pieces. *)
Definition store_pieces (path_name : string) (split_paths : list (list Z))
    (new_paths : gmap string (list Z)) : gmap string (list Z) :=
  match split_paths with
  | [] => new_paths
  | [p] => <[path_name := p]> new_paths
  | _ => store_numbered path_name 0 split_paths new_paths
  end.

(** The two replacements made in every path by [merge_simple_path]. *)
Definition replace_merged (fuel : nat) (path merge_path : list Z) (new_seg_num : Z)
    : option (list Z) :=
  p1 ← find_replace_in_list fuel path merge_path [new_seg_num];
  find_replace_in_list fuel p1 (map Z.opp (rev merge_path)) [- new_seg_num].

(** The path registry after [merge_simple_path]: every path is rewritten,
    split on the merged numbers and stored again. *)
Fixpoint rewrite_paths (items : list (string * list Z)) (merge_path : list Z)
    (new_seg_num : Z) (new_paths : gmap string (list Z))
    : option (gmap string (list Z)) :=
  match items with
  | [] => Some new_paths
  | (path_name, path_segments) :: items' =>
      p ← replace_merged (S (length path_segments)) path_segments merge_path new_seg_num;
      let split_paths :=
        split_path_multiple p (merge_path ++ map Z.opp (rev merge_path)) in
      rewrite_paths items' merge_path new_seg_num
        (store_pieces path_name split_paths new_paths)
  end.

(** The part of [merge_simple_path] that comes before the paths are
    rewritten: the new segment is made, the old ones are removed and the
    links of the two ends are given to the new segment.  The result is the
    graph and the number of the new segment. *)
Definition merge_simple_path_segments (merge_path : list Z) (g : AssemblyGraph)
    : result (AssemblyGraph * Z) :=
  start ← list_getitem merge_path 0;
  end_ ← list_last merge_path;
  segs ← path_segment_objects g merge_path;
  let depths := map depth segs in
  let lengths := map (fun s => get_length s - overlap g) segs in
  mean_depth ← (if 0 <? Zsum lengths then weighted_average_list depths lengths
                else Ok 1%Q);
  new_seg_num ← get_next_available_seg_number g;
  merged_forward_seq ← get_path_sequence g merge_path;
  let new_seg := build_other_sequence_if_necessary
    (new_Segment new_seg_num mean_depth merged_forward_seq true None None) in
  let outgoing_links := links_of (forward_links g) end_ in
  let incoming_links := links_of (reverse_links g) start in
  let outgoing_links := find_replace_one_val_in_list outgoing_links start new_seg_num in
  let outgoing_links := find_replace_one_val_in_list outgoing_links (- end_) (- new_seg_num) in
  let incoming_links := find_replace_one_val_in_list incoming_links end_ new_seg_num in
  let incoming_links := find_replace_one_val_in_list incoming_links (- start) (- new_seg_num) in
  let g1 := remove_segments (map Z.abs merge_path) g in
  let g2 := set_segments g1 (<[new_seg_num := new_seg]> (segments g1)) in
  let g3 := foldl (fun g link => add_link new_seg_num link g) g2 outgoing_links in
  let g4 := foldl (fun g link => add_link link new_seg_num g) g3 incoming_links in
  Ok (g4, new_seg_num).

(** [AssemblyGraph.merge_simple_path]: the paths are those saved before the
    segments were removed ([paths_copy]). *)
Definition merge_simple_path (merge_path : list Z) (g : AssemblyGraph)
    : option (result AssemblyGraph) :=
  match merge_simple_path_segments merge_path g with
  | Raise e => Some (Raise e)
  | Ok (g4, new_seg_num) =>
      new_paths ← rewrite_paths (map_to_list (paths g)) merge_path new_seg_num ∅;
      Some (Ok (set_paths g4 new_paths))
  end.

(** ** Multi-way junctions *)

(** [set(a) == set(b)] on lists that stand for sets. *)
Definition same_set (a b : list Z) : bool :=
  forallb (fun x => py_in x b) a && forallb (fun x => py_in x a) b.

(** The three tests made for one [seg_num] in [repair_multi_way_junctions].
    A Python set is kept as a list without repeats, in the order in which its
    members were first met (the order of a set is not fixed in Python).  The
    result is [(starting_segs, ending_segs)] when a junction is found. *)
Definition junction_at (g : AssemblyGraph) (seg_num : Z) : option (list Z * list Z) :=
  match forward_links g !! seg_num with
  | None => None
  | Some l =>
      let ending_segs := remove_dups l in
      if (length ending_segs <? 2)%nat then None else
      let starting_segs :=
        remove_dups (flat_map (fun e => links_of (reverse_links g) e) ending_segs) in
      if (length starting_segs <? 2)%nat then None else
      let ending_segs_2 :=
        remove_dups (flat_map (fun s => links_of (forward_links g) s) starting_segs) in
      if same_set ending_segs_2 ending_segs then Some (starting_segs, ending_segs)
      else None
  end.

(** [for x in xs: assert bridge_seq == f(seq(x))] *)
Fixpoint assert_overlaps (g : AssemblyGraph) (bridge_seq : string)
    (f : string -> string) (xs : list Z) : result unit :=
  match xs with
  | [] => Ok tt
  | x :: xs' =>
      s ← get_seq_from_signed_seg_num g x;
      _ ← assert (bool_decide (bridge_seq = f s));
      assert_overlaps g bridge_seq f xs'
  end.

(** [sum(self.segments[abs(x)].depth for x in xs)] *)
Definition depth_sum (g : AssemblyGraph) (xs : list Z) : result Q :=
  segs ← path_segment_objects g xs;
  Ok (Qsum (map depth segs)).

(** The rewriting of one path around a repaired junction: for every start
    and every end, the bridge number is put between them, on both strands. *)
Definition insert_bridge_in_path (starting_segs ending_segs : list Z) (bridge_num : Z)
    (path : list Z) : list Z :=
  foldl (fun p start_num =>
    foldl (fun p end_num =>
      insert_num_in_list (insert_num_in_list p start_num end_num bridge_num)
                         (- end_num) (- start_num) (- bridge_num))
      p ending_segs)
    path starting_segs.

(** The repair of one junction: the part of the loop body of
    [repair_multi_way_junctions] that follows the three tests. *)
Definition repair_junction (starting_segs ending_segs : list Z) (g : AssemblyGraph)
    : result AssemblyGraph :=
  first_end ← list_getitem ending_segs 0;
  first_seq ← get_seq_from_signed_seg_num g first_end;
  let bridge_seq := slice_to first_seq (overlap g) in
  _ ← assert_overlaps g bridge_seq (fun s => slice_from s (- overlap g)) starting_segs;
  _ ← assert_overlaps g bridge_seq (fun s => slice_to s (overlap g)) ending_segs;
  bridge_num ← get_next_available_seg_number g;
  start_seg_depth_sum ← depth_sum g starting_segs;
  end_seg_depth_sum ← depth_sum g ending_segs;
  let bridge_depth := ((start_seg_depth_sum + end_seg_depth_sum) / 2)%Q in
  let bridge_seg := build_other_sequence_if_necessary
    (new_Segment bridge_num bridge_depth bridge_seq true None None) in
  let fr := foldl (fun fr seg_num =>
              (<[seg_num := [bridge_num]]> fr.1, <[- seg_num := [- bridge_num]]> fr.2))
            (forward_links g, reverse_links g) starting_segs in
  let fr := foldl (fun fr seg_num =>
              (<[- seg_num := [- bridge_num]]> fr.1, <[seg_num := [bridge_num]]> fr.2))
            fr ending_segs in
  let f := <[- bridge_num := map Z.opp starting_segs]> (<[bridge_num := ending_segs]> fr.1) in
  let r := <[- bridge_num := map Z.opp ending_segs]> (<[bridge_num := starting_segs]> fr.2) in
  Ok {| segments := <[bridge_num := bridge_seg]> (segments g);
        forward_links := f; reverse_links := r;
        copy_depths := copy_depths g;
        paths := insert_bridge_in_path starting_segs ending_segs bridge_num <$> paths g;
        overlap := overlap g |}.

(** The [for] loop of [repair_multi_way_junctions] up to the first
    [seg_num] that passes the three tests. *)
Fixpoint first_junction (g : AssemblyGraph) (seg_nums : list Z)
    : option (list Z * list Z) :=
  match seg_nums with
  | [] => None
  | seg_num :: rest =>
      match junction_at g seg_num with
      | Some j => Some j
      | None => first_junction g rest
      end
  end.

(** [seg_nums = list(self.segments) + [-x for x in self.segments]] *)
Definition find_junction (g : AssemblyGraph) : option (list Z * list Z) :=
  let keys := (map_to_list (segments g)).*1 in
  first_junction g (keys ++ map Z.opp keys).

(** [AssemblyGraph.repair_multi_way_junctions]: junctions are repaired one
    at a time until none is found; [fuel] bounds the number of repairs. *)
Fixpoint repair_multi_way_junctions (fuel : nat) (g : AssemblyGraph)
    : option (result AssemblyGraph) :=
  match fuel with
  | O => None
  | S fuel' =>
      match find_junction g with
      | None => Some (Ok g)
      | Some (starting_segs, ending_segs) =>
          match repair_junction starting_segs ending_segs g with
          | Raise e => Some (Raise e)
          | Ok g' => repair_multi_way_junctions fuel' g'
          end
      end
  end.

(** ** Renumbering *)

(** [sorted(xs, key=get_length, reverse=True)]: stable, longest first. *)
Fixpoint insert_by_length (s : Segment) (l : list Segment) : list Segment :=
  match l with
  | [] => [s]
  | y :: l' => if get_length s <? get_length y then y :: insert_by_length s l'
               else s :: l
  end.

Definition sorted_by_length_desc (l : list Segment) : list Segment :=
  foldr insert_by_length [] l.

(** [dict(zip(keys, vals))]: a later pair replaces an earlier one. *)
Definition dict_of_zip (keys vals : list Z) : gmap Z Z :=
  foldl (fun d kv => <[kv.1 := kv.2]> d) ∅ (zip keys vals).

(** [[changes[x] for x in xs]] *)
Fixpoint change_all (changes : gmap Z Z) (xs : list Z) : result (list Z) :=
  match xs with
  | [] => Ok []
  | x :: xs' => y ← getitem changes x; ys ← change_all changes xs'; Ok (y :: ys)
  end.

(** The rebuilding of one link dictionary in [renumber_segments]. *)
Fixpoint renumber_links (changes : gmap Z Z) (items : list (Z * list Z))
    (new_links : gmap Z (list Z)) : result (gmap Z (list Z)) :=
  match items with
  | [] => Ok new_links
  | (seg_num, link_nums) :: items' =>
      k ← getitem changes seg_num;
      l ← change_all changes link_nums;
      renumber_links changes items' (<[k := l]> new_links)
  end.

Definition set_number (s : Segment) (n : Z) : Segment :=
  {| number := n; depth := depth s;
     forward_sequence := forward_sequence s; reverse_sequence := reverse_sequence s;
     bridge := bridge s; graph_path := graph_path s |}.

Fixpoint renumber_segment_map (changes : gmap Z Z) (items : list (Z * Segment))
    (new_segments : gmap Z Segment) : result (gmap Z Segment) :=
  match items with
  | [] => Ok new_segments
  | (seg_num, seg) :: items' =>
      new_num ← getitem changes seg_num;
      renumber_segment_map changes items' (<[new_num := set_number seg new_num]> new_segments)
  end.

Fixpoint renumber_copy_depths (changes : gmap Z Z) (items : list (Z * list Q))
    (new_depths : gmap Z (list Q)) : result (gmap Z (list Q)) :=
  match items with
  | [] => Ok new_depths
  | (x, y) :: items' =>
      k ← getitem changes x;
      renumber_copy_depths changes items' (<[k := y]> new_depths)
  end.

Fixpoint renumber_paths (changes : gmap Z Z) (items : list (string * list Z))
    (new_paths : gmap string (list Z)) : result (gmap string (list Z)) :=
  match items with
  | [] => Ok new_paths
  | (name, path_nums) :: items' =>
      l ← change_all changes path_nums;
      renumber_paths changes items' (<[name := l]> new_paths)
  end.

(** [AssemblyGraph.renumber_segments] *)
Definition renumber_segments (g : AssemblyGraph) : result AssemblyGraph :=
  let old_nums := map number (sorted_by_length_desc (map_to_list (segments g)).*2) in
  let new_nums := map Z.of_nat (seq 1 (length old_nums)) in
  let changes := dict_of_zip (old_nums ++ map Z.opp old_nums)
                             (new_nums ++ map Z.opp new_nums) in
  new_segments ← renumber_segment_map changes (map_to_list (segments g)) ∅;
  new_forward_links ← renumber_links changes (map_to_list (forward_links g)) ∅;
  new_reverse_links ← renumber_links changes (map_to_list (reverse_links g)) ∅;
  new_copy_depths ← renumber_copy_depths changes (map_to_list (copy_depths g)) ∅;
  new_paths ← renumber_paths changes (map_to_list (paths g)) ∅;
  Ok {| segments := new_segments;
        forward_links := new_forward_links; reverse_links := new_reverse_links;
        copy_depths := new_copy_depths; paths := new_paths; overlap := overlap g |}.

(** ** Read depth *)

(** [sorted(xs, key=lambda x: x.depth)]: stable, shallowest first. *)
Fixpoint insert_by_depth (s : Segment) (l : list Segment) : list Segment :=
  match l with
  | [] => [s]
  | y :: l' => if Qlt_bool (depth y) (depth s) then y :: insert_by_depth s l'
               else s :: l
  end.

Definition sorted_by_depth (l : list Segment) : list Segment :=
  foldr insert_by_depth [] l.

(** The second loop of [get_median_read_depth]. *)
Fixpoint median_scan (ov halfway_length length_so_far : Z) (l : list Segment) : Q :=
  match l with
  | [] => 0%Q
  | s :: l' =>
      let length_so_far := length_so_far + get_length_no_overlap s ov in
      if halfway_length <=? length_so_far then depth s
      else median_scan ov halfway_length length_so_far l'
  end.

(** [AssemblyGraph.get_median_read_depth]; [segment_list] is [None] or a
    list, and an empty list counts as [None]. *)
Definition get_median_read_depth (g : AssemblyGraph) (segment_list : option (list Segment))
    : Q :=
  let segment_list :=
    match segment_list with
    | None | Some [] => (map_to_list (segments g)).*2
    | Some l => l
    end in
  let sorted_segments := sorted_by_depth segment_list in
  let total_length :=
    foldl (fun acc s => acc + get_length_no_overlap s (overlap g)) 0 sorted_segments in
  let halfway_length := total_length `div` 2 in
  median_scan (overlap g) halfway_length 0 sorted_segments.

(** [AssemblyGraph.get_total_length] *)
Definition get_total_length (g : AssemblyGraph) : Z :=
  Zsum (map get_length (map_to_list (segments g)).*2).

(** [AssemblyGraph.get_base_count_in_depth_range] *)
Definition get_base_count_in_depth_range (g : AssemblyGraph) (min_depth max_depth : Q) : Z :=
  foldl (fun total_bases segment =>
           if Qle_bool min_depth (depth segment) && Qle_bool (depth segment) max_depth
           then total_bases + get_length segment
           else total_bases)
        0 (map_to_list (segments g)).*2.

(** [a / b] on numbers: dividing by zero is an error. *)
Definition py_div (a b : Q) : result Q :=
  if Qeq_bool b 0 then Raise ZeroDivisionError else Ok (a / b)%Q.

Definition min_half_median_for_diploid : Q := 1 # 10.

(** The first part of [determine_copy_depth], up to the value of its local
    variable [single_copy_depth]. *)
Definition single_copy_depth (g : AssemblyGraph) : result Q :=
  let median_depth := get_median_read_depth g None in
  let bases_near_half_median :=
    get_base_count_in_depth_range g (median_depth * (4 # 10)) (median_depth * (6 # 10)) in
  let bases_near_double_median :=
    get_base_count_in_depth_range g (median_depth * (16 # 10)) (median_depth * (24 # 10)) in
  let total_graph_bases := get_total_length g in
  half_median_frac ← py_div (inject_Z bases_near_half_median) (inject_Z total_graph_bases);
  double_median_frac ← py_div (inject_Z bases_near_double_median) (inject_Z total_graph_bases);
  if Qlt_bool double_median_frac half_median_frac
     && Qle_bool min_half_median_for_diploid half_median_frac
  then Ok (median_depth / 2)%Q
  else Ok median_depth.

(** ** Copy depths *)

(** A relative error: a number or [float('inf')]. *)
Inductive error_value : Type :=
| Finite (q : Q)
| Infinite.

(** [a < b] on error values. *)
Definition error_lt (a b : error_value) : bool :=
  match a, b with
  | Finite x, Finite y => Qlt_bool x y
  | Finite _, Infinite => true
  | Infinite, _ => false
  end.

(** [a <= b] on error values. *)
Definition error_le (a b : error_value) : bool :=
  match a, b with
  | Finite x, Finite y => Qle_bool x y
  | _, Infinite => true
  | Infinite, Finite _ => false
  end.

(** [max(a, b)]: [b] when it is greater, otherwise [a]. *)
Definition error_max (a b : error_value) : error_value :=
  if error_lt a b then b else a.

(** [get_error] *)
Definition get_error (source target : Q) : error_value :=
  if Qlt_bool 0 target then Finite (Qabs (source - target) / target)%Q
  else Infinite.

(** [sorted(xs, reverse=True)]: stable, largest first. *)
Fixpoint insert_desc (x : Q) (l : list Q) : list Q :=
  match l with
  | [] => [x]
  | y :: l' => if Qlt_bool x y then y :: insert_desc x l' else x :: l
  end.

Definition sorted_desc (l : list Q) : list Q := foldr insert_desc [] l.

(** [AssemblyGraph.scale_copy_depths] *)
Definition scale_copy_depths (target_depth : Q) (source_depths : list Q)
    : result (list Q * error_value) :=
  let source_depth_sum := Qsum source_depths in
  scaling_factor ← py_div target_depth source_depth_sum;
  let scaled_depths := sorted_desc (map (fun x => scaling_factor * x)%Q source_depths) in
  let error := get_error source_depth_sum target_depth in
  Ok (scaled_depths, error).

(** [AssemblyGraph.lead_exclusively_to] *)
Definition lead_exclusively_to (g : AssemblyGraph) (segment_num_1 segment_num_2 : Z) : bool :=
  match forward_links g !! segment_num_1 with
  | None => false
  | Some l => bool_decide (l = [segment_num_2])
  end.

(** [AssemblyGraph.lead_exclusively_from] *)
Definition lead_exclusively_from (g : AssemblyGraph) (segment_num_1 segment_num_2 : Z) : bool :=
  match reverse_links g !! segment_num_1 with
  | None => false
  | Some l => bool_decide (l = [segment_num_2])
  end.

(** [AssemblyGraph.get_exclusive_inputs] *)
Definition get_exclusive_inputs (g : AssemblyGraph) (segment_number : Z) : list Z :=
  match reverse_links g !! segment_number with
  | None => []
  | Some l => map Z.abs (List.filter (fun x => lead_exclusively_to g x segment_number) l)
  end.

(** [AssemblyGraph.get_exclusive_outputs] *)
Definition get_exclusive_outputs (g : AssemblyGraph) (segment_number : Z) : list Z :=
  match forward_links g !! segment_number with
  | None => []
  | Some l => map Z.abs (List.filter (fun x => lead_exclusively_from g x segment_number) l)
  end.

Definition has_copy_depths (g : AssemblyGraph) (num : Z) : bool :=
  bool_decide (is_Some (copy_depths g !! num)).

(** [AssemblyGraph.all_have_copy_depths] *)
Definition all_have_copy_depths (g : AssemblyGraph) (segment_numbers : list Z) : bool :=
  forallb (has_copy_depths g) segment_numbers.

(** [AssemblyGraph.get_segments_without_copies] *)
Definition get_segments_without_copies (g : AssemblyGraph) : list Segment :=
  List.filter (fun x => negb (has_copy_depths g (number x))) (map_to_list (segments g)).*2.

(** [AssemblyGraph.get_segments_with_two_or_more_copies] *)
Definition get_segments_with_two_or_more_copies (g : AssemblyGraph) : list Segment :=
  List.filter (fun x => match copy_depths g !! number x with
                        | Some l => (1 <? length l)%nat
                        | None => false
                        end)
              (map_to_list (segments g)).*2.

(** [for num in nums: source_depths += self.copy_depths[num]] *)
Fixpoint gather_copy_depths (g : AssemblyGraph) (nums : list Z) : result (list Q) :=
  match nums with
  | [] => Ok []
  | num :: nums' =>
      l ← getitem (copy_depths g) num;
      ls ← gather_copy_depths g nums';
      Ok (l ++ ls)
  end.

(** [AssemblyGraph.scale_copy_depths_from_source_segments] *)
Definition scale_copy_depths_from_source_segments (g : AssemblyGraph)
    (segment_number : Z) (source_segment_numbers : list Z)
    : result (list Q * error_value) :=
  source_depths ← gather_copy_depths g source_segment_numbers;
  seg ← getitem (segments g) segment_number;
  scale_copy_depths (depth seg) source_depths.

(** The best candidate of [merge_copy_depths] so far:
    [best_segment_num], [best_new_depths] and [lowest_error]. *)
Record merge_best : Type := mkBest {
  best_segment_num : option Z;
  best_new_depths : list Q;
  lowest_error : error_value
}.

(** One of the two [if ..._depth_possible:] blocks of [merge_copy_depths]. *)
Definition merge_consider (g : AssemblyGraph) (num : Z) (sources : list Z)
    (b : merge_best) : result merge_best :=
  if negb (bool_decide (sources = [])) && all_have_copy_depths g sources then
    '(depths, error) ← scale_copy_depths_from_source_segments g num sources;
    if error_lt error (lowest_error b)
    then Ok (mkBest (Some num) depths error)
    else Ok b
  else Ok b.

(** The [for segment in segments] loop of [merge_copy_depths]. *)
Fixpoint merge_scan (g : AssemblyGraph) (segs : list Segment) (b : merge_best)
    : result merge_best :=
  match segs with
  | [] => Ok b
  | segment :: segs' =>
      let num := number segment in
      let exclusive_inputs := get_exclusive_inputs g num in
      let exclusive_outputs := get_exclusive_outputs g num in
      b1 ← merge_consider g num exclusive_inputs b;
      b2 ← merge_consider g num exclusive_outputs b1;
      merge_scan g segs' b2
  end.

(** [AssemblyGraph.merge_copy_depths]; the result is the graph and whether
    an assignment was made (the source returns 1 or 0). *)
Definition merge_copy_depths (error_margin : Q) (g : AssemblyGraph)
    : result (AssemblyGraph * bool) :=
  match get_segments_without_copies g with
  | [] => Ok (g, false)
  | segs =>
      b ← merge_scan g segs (mkBest None [] Infinite);
      match best_segment_num b with
      | Some n =>
          if negb (bool_decide (n = 0)) && error_lt (lowest_error b) (Finite error_margin)
          then Ok (set_copy_depths g (<[n := best_new_depths b]> (copy_depths g)), true)
          else Ok (g, false)
      | None => Ok (g, false)
      end
  end.

(** The test made on a finished arrangement by [shuffle_into_bins]: no bin
    is empty, and a bin with a target (other than [None] or 0) has that many
    items. *)
Definition arrangement_ok (bins : list (list Q)) (targets : list (option nat)) : bool :=
  forallb (fun x => negb (bool_decide (x = []))) bins
  && forallb (fun it => match it.2 with
                        | None | Some O => true
                        | Some t => bool_decide (Some t = length <$> bins !! it.1)
                        end)
             (imap (fun i t => (i, t)) targets).

(** [shuffle_into_bins] *)
Fixpoint shuffle_into_bins (items : list Q) (bins : list (list Q))
    (targets : list (option nat)) : list (list (list Q)) :=
  match items with
  | item :: items' =>
      flat_map (fun i => shuffle_into_bins items' (alter (fun b => b ++ [item]) i bins) targets)
               (seq 0 (length bins))
  | [] => if arrangement_ok bins targets then [bins] else []
  end.

(** [AssemblyGraph.get_error_for_multiple_segments_and_depths] *)
Fixpoint errors_from (g : AssemblyGraph) (segment_numbers : list Z)
    (depths : list (list Q)) (max_error : error_value) : result error_value :=
  match segment_numbers with
  | [] => Ok max_error
  | num :: nums' =>
      seg ← getitem (segments g) num;
      match depths with
      | [] => Raise IndexError
      | d :: depths' =>
          errors_from g nums' depths' (error_max max_error (get_error (Qsum d) (depth seg)))
      end
  end.

Definition get_error_for_multiple_segments_and_depths (g : AssemblyGraph)
    (segment_numbers : list Z) (depths : list (list Q)) : result error_value :=
  errors_from g segment_numbers depths (Finite 0).

(** [AssemblyGraph.assign_copy_depths_where_needed]; the state of the loop
    is the copy-depth dictionary and [success]. *)
Fixpoint assign_copy_depths_where_needed (g : AssemblyGraph) (segment_numbers : list Z)
    (new_depths : list (list Q)) (error_margin : Q) (success : bool)
    : result (AssemblyGraph * bool) :=
  match segment_numbers with
  | [] => Ok (g, success)
  | num :: nums' =>
      if has_copy_depths g num
      then assign_copy_depths_where_needed g nums' (tail new_depths) error_margin success
      else
        seg ← getitem (segments g) num;
        match new_depths with
        | [] => Raise IndexError
        | d :: _ =>
            '(new_copy_depths, error) ← scale_copy_depths (depth seg) d;
            if error_le error (Finite error_margin)
            then assign_copy_depths_where_needed
                   (set_copy_depths g (<[num := new_copy_depths]> (copy_depths g)))
                   nums' (tail new_depths) error_margin true
            else assign_copy_depths_where_needed g nums' (tail new_depths) error_margin success
        end
  end.

(** The choice of the arrangement with the lowest error in
    [redistribute_copy_depths]. *)
Fixpoint best_arrangement_from (g : AssemblyGraph) (connections : list Z)
    (arrangements : list (list (list Q))) (lowest : error_value)
    (best : option (list (list Q))) : result (error_value * option (list (list Q))) :=
  match arrangements with
  | [] => Ok (lowest, best)
  | arrangement :: rest =>
      error ← get_error_for_multiple_segments_and_depths g connections arrangement;
      if error_lt error lowest
      then best_arrangement_from g connections rest error (Some arrangement)
      else best_arrangement_from g connections rest lowest best
  end.

(** The connections tried for one segment by [redistribute_copy_depths]:
    its exclusive inputs, or its exclusive outputs when the inputs are none
    or all have copy depths; [None] stands for [continue]. *)
Definition redistribute_connections (g : AssemblyGraph) (num : Z) : option (list Z) :=
  let connections := get_exclusive_inputs g num in
  let connections :=
    if bool_decide (connections = []) || all_have_copy_depths g connections
    then get_exclusive_outputs g num else connections in
  if bool_decide (connections = []) || all_have_copy_depths g connections
  then None else Some connections.

(** The [for segment in segments] loop of [redistribute_copy_depths]. *)
Fixpoint redistribute_scan (error_margin : Q) (g : AssemblyGraph) (segs : list Segment)
    : result (AssemblyGraph * bool) :=
  match segs with
  | [] => Ok (g, false)
  | segment :: segs' =>
      let num := number segment in
      match redistribute_connections g num with
      | None => redistribute_scan error_margin g segs'
      | Some connections =>
          cd ← getitem (copy_depths g) num;
          let bins := replicate (length connections) [] in
          let targets := map (fun x => length <$> copy_depths g !! x) connections in
          match shuffle_into_bins cd bins targets with
          | [] => redistribute_scan error_margin g segs'
          | arrangements =>
              '(lowest, best) ← best_arrangement_from g connections arrangements Infinite None;
              if error_lt lowest (Finite error_margin) then
                match best with
                | None => redistribute_scan error_margin g segs'
                | Some best_arrangement =>
                    '(g1, success) ← assign_copy_depths_where_needed g connections
                                       best_arrangement error_margin false;
                    if (success : bool) then Ok (g1, true)
                    else redistribute_scan error_margin g1 segs'
                end
              else redistribute_scan error_margin g segs'
          end
      end
  end.

(** [AssemblyGraph.redistribute_copy_depths] *)
Definition redistribute_copy_depths (error_margin : Q) (g : AssemblyGraph)
    : result (AssemblyGraph * bool) :=
  redistribute_scan error_margin g (get_segments_with_two_or_more_copies g).

(** [while self.merge_copy_depths(tolerance, verbosity): pass] *)
Fixpoint merge_while (fuel : nat) (tolerance : Q) (g : AssemblyGraph)
    : option (result AssemblyGraph) :=
  match fuel with
  | O => None
  | S fuel' =>
      match merge_copy_depths tolerance g with
      | Raise e => Some (Raise e)
      | Ok (g', true) => merge_while fuel' tolerance g'
      | Ok (g', false) => Some (Ok g')
      end
  end.

(** [AssemblyGraph.determine_copy_depth_part_2]; [fuel] bounds both the
    rounds of the [while] loop and the depth of the recursion. *)
Fixpoint determine_copy_depth_part_2 (fuel : nat) (tolerance : Q) (g : AssemblyGraph)
    : option (result AssemblyGraph) :=
  match fuel with
  | O => None
  | S fuel' =>
      match merge_while fuel tolerance g with
      | None => None
      | Some (Raise e) => Some (Raise e)
      | Some (Ok g1) =>
          match redistribute_copy_depths tolerance g1 with
          | Raise e => Some (Raise e)
          | Ok (g2, true) => determine_copy_depth_part_2 fuel' tolerance g2
          | Ok (g2, false) => Some (Ok g2)
          end
      end
  end.

(** [AssemblyGraph.at_most_one_link_per_end] *)
Definition at_most_one_link_per_end (g : AssemblyGraph) (segment : Segment) : bool :=
  let num := number segment in
  match forward_links g !! num with
  | Some l => if (1 <? length l)%nat then false else
      match reverse_links g !! num with
      | Some l' => negb (1 <? length l')%nat
      | None => true
      end
  | None =>
      match reverse_links g !! num with
      | Some l' => negb (1 <? length l')%nat
      | None => true
      end
  end.

(** [AssemblyGraph.exactly_one_link_per_end] *)
Definition exactly_one_link_per_end (g : AssemblyGraph) (segment : Segment) : bool :=
  let num := number segment in
  match forward_links g !! num with
  | Some l => if negb (length l =? 1)%nat then false else
      match reverse_links g !! num with
      | Some l' => (length l' =? 1)%nat
      | None => true
      end
  | None =>
      match reverse_links g !! num with
      | Some l' => (length l' =? 1)%nat
      | None => true
      end
  end.

(** The seeding loop of [determine_copy_depth]. *)
Definition seed_single_copies (max_depth : Q) (g : AssemblyGraph) : AssemblyGraph :=
  foldl (fun acc segment =>
           if Qle_bool (depth segment) max_depth && at_most_one_link_per_end g segment
           then set_copy_depths acc (<[number segment := [depth segment]]> (copy_depths acc))
           else acc)
        g (map_to_list (segments g)).*2.

(** The [for] loop of [assign_single_copy_depth]. *)
Fixpoint assign_first_single_copy (g : AssemblyGraph) (min_single_copy_length : Z)
    (segs : list Segment) : AssemblyGraph * bool :=
  match segs with
  | [] => (g, false)
  | segment :: segs' =>
      if get_length segment <? min_single_copy_length
      then assign_first_single_copy g min_single_copy_length segs'
      else if exactly_one_link_per_end g segment
      then (set_copy_depths g (<[number segment := [depth segment]]> (copy_depths g)), true)
      else assign_first_single_copy g min_single_copy_length segs'
  end.

(** [AssemblyGraph.assign_single_copy_depth] *)
Definition assign_single_copy_depth (min_single_copy_length : Z) (g : AssemblyGraph)
    : AssemblyGraph * bool :=
  assign_first_single_copy g min_single_copy_length
    (sorted_by_length_desc (get_segments_without_copies g)).

(** The [while True] loop of [determine_copy_depth]. *)
Fixpoint single_copy_rounds (fuel : nat) (propogation_tolerance : Q)
    (min_single_copy_length : Z) (g : AssemblyGraph) : option (result AssemblyGraph) :=
  match fuel with
  | O => None
  | S fuel' =>
      let '(g1, assignments) := assign_single_copy_depth min_single_copy_length g in
      match determine_copy_depth_part_2 fuel propogation_tolerance g1 with
      | None => None
      | Some (Raise e) => Some (Raise e)
      | Some (Ok g2) =>
          if assignments
          then single_copy_rounds fuel' propogation_tolerance min_single_copy_length g2
          else Some (Ok g2)
      end
  end.

(** [AssemblyGraph.determine_copy_depth] *)
Definition determine_copy_depth (fuel : nat) (g : AssemblyGraph)
    : option (result AssemblyGraph) :=
  let g := set_copy_depths g ∅ in
  let initial_tolerance : Q := 1 # 10 in
  let propogation_tolerance : Q := 2 # 10 in
  let min_single_copy_length := 1000 in
  match single_copy_depth g with
  | Raise e => Some (Raise e)
  | Ok d =>
      let max_depth := (d + initial_tolerance)%Q in
      let g1 := seed_single_copies max_depth g in
      match determine_copy_depth_part_2 fuel propogation_tolerance g1 with
      | None => None
      | Some (Raise e) => Some (Raise e)
      | Some (Ok g2) =>
          match single_copy_rounds fuel propogation_tolerance min_single_copy_length g2 with
          | None => None
          | Some (Raise e) => Some (Raise e)
          | Some (Ok g3) => determine_copy_depth_part_2 fuel 1 g3
          end
      end
  end.

(** ** GFA link lines *)

(** [is_link_positive] *)
Definition is_link_positive (start end_ : Z) : bool :=
  if (0 <? start) && (0 <? end_) then true
  else if (start <? 0) && (end_ <? 0) then false
  else if start =? - end_ then true
  else Z.abs end_ <? Z.abs start.

(** [get_sign_string] *)
Definition get_sign_string (num : Z) : string :=
  if 0 <=? num then "+" else "-".

Definition tab : string := String (ascii_of_nat 9) EmptyString.
Definition newline : string := String (ascii_of_nat 10) EmptyString.

(** [AssemblyGraph.gfa_link_line] *)
Definition gfa_link_line (g : AssemblyGraph) (start end_ : Z) : string :=
  "L" +:+ tab +:+ pretty (Z.abs start) +:+ tab +:+ get_sign_string start +:+ tab
  +:+ pretty (Z.abs end_) +:+ tab +:+ get_sign_string end_ +:+ tab
  +:+ pretty (overlap g) +:+ "M" +:+ newline.

(** The positive links of the forward table, in the order of the table. *)
Definition gfa_links (g : AssemblyGraph) : list (Z * Z) :=
  flat_map (fun se => map (fun end_ => (se.1, end_))
                          (List.filter (fun end_ => is_link_positive se.1 end_) se.2))
           (map_to_list (forward_links g)).

(** [AssemblyGraph.get_all_gfa_link_lines]: the two nested loops over
    [self.forward_links.items()] and the ends of each start. *)
Definition get_all_gfa_link_lines (g : AssemblyGraph) : string :=
  foldl (fun gfa_link_lines se =>
           foldl (fun gfa_link_lines end_ =>
                    if is_link_positive se.1 end_
                    then gfa_link_lines +:+ gfa_link_line g se.1 end_
                    else gfa_link_lines)
                 gfa_link_lines se.2)
        EmptyString (map_to_list (forward_links g)).

(** The lines of a text, each with the newline that ends it; [cur] is the
    beginning of the line that is being read. *)
Fixpoint split_lines (cur s : list ascii) : list (list ascii) :=
  match s with
  | [] => match cur with [] => [] | _ => [cur] end
  | c :: s' =>
      if Ascii.eqb c (ascii_of_nat 10) then (cur ++ [c]) :: split_lines [] s'
      else split_lines (cur ++ [c]) s'
  end.

Definition text_lines (s : string) : list string :=
  map string_of_list_ascii (split_lines [] (list_ascii_of_string s)).

(** * Properties *)

(** ** Predicates used in the statements *)

(** [a -> b] is a link of the forward table. *)
Definition has_link (g : AssemblyGraph) (a b : Z) : Prop :=
  b ∈ links_of (forward_links g) a.

(** How many times [x] occurs in [l]. *)
Definition count_in {A} `{EqDecision A} (x : A) (l : list A) : nat :=
  length (List.filter (fun y => bool_decide (y = x)) l).

(** Strand symmetry: the twin [(-b) -> (-a)] of every link [a -> b] is in
    the forward table exactly once. *)
Definition strand_symmetric (g : AssemblyGraph) : Prop :=
  forall a b, has_link g a b -> count_in (- a) (links_of (forward_links g) (- b)) = 1%nat.

(** The reverse table is the mirror of the forward table. *)
Definition mirrored (g : AssemblyGraph) : Prop :=
  forall a b, b ∈ links_of (forward_links g) a <-> a ∈ links_of (reverse_links g) b.

(** Consecutive numbers of a path are linked. *)
Definition path_linked (g : AssemblyGraph) (p : list Z) : Prop :=
  forall i x y, p !! i = Some x -> p !! S i = Some y -> has_link g x y.

(** Every number of a path is that of a live segment. *)
Definition path_live (g : AssemblyGraph) (p : list Z) : Prop :=
  forall x, x ∈ p -> is_Some (segments g !! Z.abs x).

Definition paths_consistent (g : AssemblyGraph) : Prop :=
  forall name p, paths g !! name = Some p -> path_linked g p /\ path_live g p.

(** ** Example graphs *)

Definition plain_segment (n : Z) (d : Q) (s : string) : Segment :=
  build_other_sequence_if_necessary (new_Segment n d s true None None).

(** Scenario 5 of the specification, with S, A, B, E numbered 1, 2, 3, 4:
    the chain [1 -> 2 -> 3 -> 4] and the bypass [1 -> 4], with the tables as
    the GFA loader builds them from the link lines [1->2], [2->3], [3->4],
    [1->4]. *)
Definition scenario5 : AssemblyGraph :=
  {| segments := list_to_map
       [(1, plain_segment 1 10 "ACGT"); (2, plain_segment 2 10 "ACGT");
        (3, plain_segment 3 10 "ACGT"); (4, plain_segment 4 10 "ACGT")];
     forward_links := list_to_map
       [(1, [2; 4]); (2, [3]); (3, [4]); (-2, [-1]); (-4, [-1; -3]); (-3, [-2])];
     reverse_links := list_to_map
       [(2, [1]); (4, [1; 3]); (3, [2]); (-1, [-2; -4]); (-3, [-4]); (-2, [-3])];
     copy_depths := ∅;
     paths := {[ "NODE_1" := [1; 2; 3; 4] ]};
     overlap := 0 |}.

Definition scenario5_bridge : Bridge :=
  {| bridge_kind_of := LongReadBridge; start_segment := 1; end_segment := 4;
     bridge_graph_path := [2; 3]; bridge_sequence := "ACGTACGTACGTACGT";
     bridge_depth := 5; quality := 9 # 10 |}.

Definition apply_scenario5 : option (result (AssemblyGraph * Z)) :=
  apply_bridge scenario5_bridge 1 4 "ACGTACGTACGTACGT" [2; 3] scenario5.

(** An isolated pair [1 -> 2] and an isolated chain [1 -> 2 -> 3]. *)
Definition isolated_pair : AssemblyGraph :=
  {| segments := list_to_map [(1, plain_segment 1 10 "ACGT"); (2, plain_segment 2 10 "ACGT")];
     forward_links := list_to_map [(1, [2]); (-2, [-1])];
     reverse_links := list_to_map [(2, [1]); (-1, [-2])];
     copy_depths := ∅; paths := ∅; overlap := 0 |}.

Definition isolated_chain : AssemblyGraph :=
  {| segments := list_to_map
       [(1, plain_segment 1 10 "ACGT"); (2, plain_segment 2 10 "ACGT");
        (3, plain_segment 3 10 "ACGT")];
     forward_links := list_to_map [(1, [2]); (2, [3]); (-2, [-1]); (-3, [-2])];
     reverse_links := list_to_map [(2, [1]); (3, [2]); (-1, [-2]); (-2, [-3])];
     copy_depths := ∅; paths := ∅; overlap := 0 |}.

(** The change of the dead-end count described for the deletion of a whole
    path: the successors of its last number and the predecessors of its first
    number that would be left with no link on that side, minus the dead ends
    that the path's two ends already are. *)
Definition path_dead_end_change (g : AssemblyGraph) (path_segments : list Z) : result Z :=
  start ← list_getitem path_segments 0;
  end_ ← list_last path_segments;
  p1 ← count_sole_links (reverse_links g) (links_of (forward_links g) end_) 0;
  p2 ← count_sole_links (forward_links g) (links_of (reverse_links g) start) p1;
  Ok (p2 - ((if no_links (forward_links g) end_ then 1 else 0)
            + (if no_links (reverse_links g) start then 1 else 0))).

(** How many lines of the text that [get_all_gfa_link_lines] returns are
    the line of the link [a -> b]. *)
Definition emitted_count (g : AssemblyGraph) (a b : Z) : nat :=
  count_in (gfa_link_line g a b) (text_lines (get_all_gfa_link_lines g)).

(** Every number in the forward table is a signed segment number, which is
    never zero. *)
Definition links_nonzero (g : AssemblyGraph) : Prop :=
  forall a b, has_link g a b -> a <> 0 /\ b <> 0.


(** All the links of a table, as pairs. *)
Definition all_links (d : gmap Z (list Z)) : list (Z * Z) :=
  flat_map (fun se => map (fun end_ => (se.1, end_)) se.2) (map_to_list d).

(** Checkers for the predicates above, for use on concrete graphs. *)
Definition strand_symmetric_check (g : AssemblyGraph) : bool :=
  forallb (fun ab => bool_decide (count_in (- ab.1) (links_of (forward_links g) (- ab.2)) = 1%nat))
          (all_links (forward_links g)).

Definition links_nonzero_check (g : AssemblyGraph) : bool :=
  forallb (fun ab => negb (bool_decide (ab.1 = 0)) && negb (bool_decide (ab.2 = 0)))
          (all_links (forward_links g)).

Definition mirrored_check (g : AssemblyGraph) : bool :=
  forallb (fun ab => py_in ab.1 (links_of (reverse_links g) ab.2))
          (all_links (forward_links g))
  && forallb (fun ba => py_in ba.1 (links_of (forward_links g) ba.2))
          (all_links (reverse_links g)).

(** A segment of depth 0 leading into a segment of depth 5. *)
Definition zero_depth_source : AssemblyGraph :=
  {| segments := list_to_map [(1, plain_segment 1 0 "ACGT"); (2, plain_segment 2 5 "ACGT")];
     forward_links := list_to_map [(1, [2]); (-2, [-1])];
     reverse_links := list_to_map [(2, [1]); (-1, [-2])];
     copy_depths := ∅; paths := ∅; overlap := 0 |}.

(** The total length of the segments whose depth lies in a range. *)
Definition bases_in_depth_range (g : AssemblyGraph) (min_depth max_depth : Q) : Z :=
  Zsum (map get_length
          (List.filter (fun s => Qle_bool min_depth (depth s) && Qle_bool (depth s) max_depth)
                       (map_to_list (segments g)).*2)).

(** A sequence of [n] bases. *)
Definition bases (n : N) : string := N.iter n (String "A"%char) EmptyString.

(** Scenario 2 of the specification: 50 kb at depth 50 and 500 kb at depth
    100. *)
Definition diploid_example : AssemblyGraph :=
  {| segments := list_to_map
       [(1, plain_segment 1 50 (bases 50000)); (2, plain_segment 2 100 (bases 500000))];
     forward_links := ∅; reverse_links := ∅; copy_depths := ∅; paths := ∅;
     overlap := 0 |}.

(** [l'] is [l] without its first occurrence of [x]. *)
Definition removed_first (x : Z) (l l' : list Z) : Prop :=
  exists l1 l2, l = l1 ++ x :: l2 /\ (x ∉ l1) /\ l' = l1 ++ l2.

(** The pieces of a path between the numbers that satisfy [f]. *)
Fixpoint split_where (f : Z -> bool) (path : list Z) : list (list Z) :=
  match path with
  | [] => [[]]
  | x :: path' =>
      if f x then [] :: split_where f path'
      else match split_where f path' with
           | [] => [[x]]
           | piece :: pieces => (x :: piece) :: pieces
           end
  end.

(** A path of at least two numbers. *)
Definition long_path (p : list Z) : bool := bool_decide (1 < length p)%nat.

(** [pat] occurs in [l] as a run of consecutive entries. *)
Definition occurs_in (pat l : list Z) : Prop :=
  exists l1 l2, l = l1 ++ pat ++ l2.

(** One occurrence of [pat] in [l] is replaced by [rep]. *)
Definition replace_step (pat rep l l' : list Z) : Prop :=
  exists l1 l2, l = l1 ++ pat ++ l2 /\ l' = l1 ++ rep ++ l2.

(** [r] comes from [l] by replacing occurrences of [pat] by [rep] until
    none is left. *)
Definition replaced_all (pat rep l r : list Z) : Prop :=
  rtc (replace_step pat rep) l r /\ ~ occurs_in pat r.

(** The numbers of a merged path on both strands. *)
Definition merged_numbers (merge_path : list Z) : list Z :=
  merge_path ++ map Z.opp (rev merge_path).

(** The pieces kept of a rewritten path [r]. *)
Definition kept_pieces (merge_path r : list Z) : list (list Z) :=
  List.filter long_path (split_where (fun x => py_in x (merged_numbers merge_path)) r).

(** The names under which the kept pieces of the path [name] are stored. *)
Definition stored_as (name : string) (pieces : list (list Z)) (name' : string)
    (piece : list Z) : Prop :=
  (pieces = [piece] /\ name' = name)
  \/ ((2 <= length pieces)%nat
      /\ exists i, pieces !! i = Some piece /\ name' = piece_name name i).

(** [r] comes from [path] by the two replacements of [merge_simple_path]. *)
Definition rewritten_path (merge_path : list Z) (new_seg_num : Z) (path r : list Z) : Prop :=
  exists r1, replaced_all merge_path [new_seg_num] path r1
             /\ replaced_all (map Z.opp (rev merge_path)) [- new_seg_num] r1 r.

(** The names that the pieces of one path are stored under. *)
Definition written_names (name : string) (pieces : list (list Z)) : list string :=
  match pieces with
  | [] => []
  | [_] => [name]
  | _ => map (piece_name name) (seq 0 (length pieces))
  end.

(** How many entries of [l] are numbers of [pat]. *)
Definition listed (pat l : list Z) : nat :=
  length (List.filter (fun x => py_in x pat) l).

(** A chain [1 -> 2 -> 3] whose first segment has the two predecessors 9 and
    7, with [8 -> 9]; the path [Q] runs [8 -> 9 -> 1] and the path [R] runs
    through the whole chain. *)
Definition merge_example : AssemblyGraph :=
  {| segments := list_to_map
       [(1, plain_segment 1 10 "ACGT"); (2, plain_segment 2 10 "ACGT");
        (3, plain_segment 3 10 "ACGT"); (7, plain_segment 7 10 "ACGT");
        (8, plain_segment 8 10 "ACGT"); (9, plain_segment 9 10 "ACGT")];
     forward_links := list_to_map
       [(1, [2]); (2, [3]); (8, [9]); (9, [1]); (7, [1]);
        (-2, [-1]); (-3, [-2]); (-9, [-8]); (-1, [-9; -7])];
     reverse_links := list_to_map
       [(2, [1]); (3, [2]); (9, [8]); (1, [9; 7]);
        (-1, [-2]); (-2, [-3]); (-8, [-9]); (-9, [-1]); (-7, [-1])];
     copy_depths := ∅;
     paths := list_to_map [("Q", [8; 9; 1]); ("R", [9; 1; 2; 3])];
     overlap := 0 |}.

(** The number of segments without copy depths. *)
Definition unassigned (g : AssemblyGraph) : nat :=
  length (get_segments_without_copies g).

(** Every segment is stored under its own number. *)
Definition segments_numbered (g : AssemblyGraph) : Prop :=
  forall k s, segments g !! k = Some s -> number s = k.

(** [g'] differs from [g] at most by further copy-depth assignments: no
    assignment of [g] is changed or removed. *)
Definition extends_assignment (g g' : AssemblyGraph) : Prop :=
  segments g' = segments g
  /\ forward_links g' = forward_links g
  /\ reverse_links g' = reverse_links g
  /\ paths g' = paths g
  /\ overlap g' = overlap g
  /\ copy_depths g ⊆ copy_depths g'.

(** A segment without copy depths in [g] has them in [g']. *)
Definition assigns_new (g g' : AssemblyGraph) : Prop :=
  exists n, is_Some (segments g !! n)
            /\ copy_depths g !! n = None
            /\ is_Some (copy_depths g' !! n).

(** What a round of propagation does, given what it reports. *)
Definition round_monotone (g g' : AssemblyGraph) (changed : bool) : Prop :=
  extends_assignment g g'
  /\ (changed = false -> g' = g)
  /\ (changed = true -> assigns_new g g')
  /\ (unassigned g' <= unassigned g)%nat
  /\ (changed = true -> (unassigned g' < unassigned g)%nat).

Definition segments_numbered_check (g : AssemblyGraph) : bool :=
  forallb (fun ks => bool_decide (number ks.2 = ks.1)) (map_to_list (segments g)).

(** Scenario 1 of the specification: segments 1 and 2 (depth 10, 100 bases)
    and 3 (depth 20, 50 bases) with the links [1 -> 3], [2 -> 3], [3 -> 1],
    [3 -> 2]; segments 1 and 2 are seeded with the copy depths [[10]]. *)
Definition triangle_seeded : AssemblyGraph :=
  {| segments := list_to_map
       [(1, plain_segment 1 10 (bases 100)); (2, plain_segment 2 10 (bases 100));
        (3, plain_segment 3 20 (bases 50))];
     forward_links := list_to_map
       [(1, [3]); (2, [3]); (3, [1; 2]); (-3, [-1; -2]); (-1, [-3]); (-2, [-3])];
     reverse_links := list_to_map
       [(3, [1; 2]); (1, [3]); (2, [3]); (-1, [-3]); (-2, [-3]); (-3, [-1; -2])];
     copy_depths := list_to_map [(1, [10%Q]); (2, [10%Q])];
     paths := ∅; overlap := 0 |}.

(** A checker for [paths_consistent] on concrete graphs. *)
Fixpoint path_linked_check (g : AssemblyGraph) (p : list Z) : bool :=
  match p with
  | x :: ((y :: _) as rest) =>
      py_in y (links_of (forward_links g) x) && path_linked_check g rest
  | _ => true
  end.

Definition path_live_check (g : AssemblyGraph) (p : list Z) : bool :=
  forallb (fun x => bool_decide (is_Some (segments g !! Z.abs x))) p.

Definition paths_consistent_check (g : AssemblyGraph) : bool :=
  forallb (fun np => path_linked_check g np.2 && path_live_check g np.2)
          (map_to_list (paths g)).

(** Scenario 5 with a registered path that takes the bypass [1 -> 4]. *)
Definition scenario5_bypass : AssemblyGraph :=
  set_paths scenario5 {[ "NODE_2" := [1; 4] ]}.

(** A junction between the two strands of the same segments: 1 and 2 both
    lead into the reverse strands of 1 and of 2.  The overlap of two bases,
    [AT], is its own reverse complement.  The GFA lines are
    [L 1 + 1 - 2M], [L 1 + 2 - 2M], [L 2 + 1 - 2M], [L 2 + 2 - 2M]. *)
Definition hairpin_junction : AssemblyGraph :=
  {| segments := list_to_map
       [(1, plain_segment 1 10 "CCAT"); (2, plain_segment 2 10 "GGAT")];
     forward_links := list_to_map [(1, [-1; -2]); (2, [-1; -2])];
     reverse_links := list_to_map [(-1, [1; 2]); (-2, [1; 2])];
     copy_depths := ∅;
     paths := {[ "NODE_1" := [1; -2] ]};
     overlap := 2 |}.

(** ** Further predicates: the two link tables taken together *)

(** How many times the table [d] lists [b] under [a]. *)
Definition link_count (d : gmap Z (list Z)) (a b : Z) : nat :=
  count_in b (links_of d a).

(** The two tables are in order: no link is listed twice, every link is
    listed as often as its twin, and the reverse table lists a link as often
    as the forward table. *)
Definition link_tables_ok (g : AssemblyGraph) : Prop :=
  forall a b,
    (link_count (forward_links g) a b <= 1)%nat
    /\ link_count (forward_links g) (- b) (- a) = link_count (forward_links g) a b
    /\ link_count (reverse_links g) b a = link_count (forward_links g) a b.

Definition link_tables_ok_at (g : AssemblyGraph) (ab : Z * Z) : bool :=
  (link_count (forward_links g) ab.1 ab.2 <=? 1)%nat
  && (link_count (forward_links g) (- ab.2) (- ab.1)
      =? link_count (forward_links g) ab.1 ab.2)%nat
  && (link_count (reverse_links g) ab.2 ab.1
      =? link_count (forward_links g) ab.1 ab.2)%nat.

Definition link_tables_ok_check (g : AssemblyGraph) : bool :=
  forallb (link_tables_ok_at g)
    (all_links (forward_links g)
     ++ map (fun ab => (- ab.2, - ab.1)) (all_links (forward_links g))
     ++ map (fun ba => (ba.2, ba.1)) (all_links (reverse_links g))).


(** The state kept by the two unlinking loops of [apply_bridge] on a graph
    [g0]: well-formed link tables, no hairpin link at the two ends, the
    segments of [g0] and no link that [g0] does not have. *)
Definition unlinking_state (g0 : AssemblyGraph) (start end_ : Z) (g : AssemblyGraph) : Prop :=
  link_tables_ok g
  /\ ~ has_link g start (- start) /\ ~ has_link g (- end_) end_
  /\ segments g = segments g0
  /\ forall a b, has_link g a b -> has_link g0 a b.

(** The loop of [get_path_length]:
    [path_length += self.segments[abs(seg)].get_length()]. *)
Fixpoint path_length_from (g : AssemblyGraph) (path_length : Z) (path : list Z)
    : result Z :=
  match path with
  | [] => Ok path_length
  | seg :: rest =>
      s ← getitem (segments g) (Z.abs seg);
      path_length_from g (path_length + get_length s) rest
  end.

(** [AssemblyGraph.get_path_length]: the sum of the segment lengths less
    [len(path) - 1] overlaps; [except KeyError: return 0]. *)
Definition get_path_length (g : AssemblyGraph) (path : list Z) : result Z :=
  match path_length_from g 0 path with
  | Ok path_length => Ok (path_length - (Z.of_nat (length path) - 1) * overlap g)
  | Raise KeyError => Ok 0
  | Raise e => Raise e
  end.

(** A list in descending order: no entry is smaller than an entry after
    it. *)
Fixpoint descending (l : list Q) : Prop :=
  match l with
  | [] => True
  | x :: l' => Forall (fun y => (y <= x)%Q) l' /\ descending l'
  end.

(** ** Building the link tables of a loaded graph *)

(** A Python dictionary of links with its keys in the order in which they
    were put in, as the loops over [links.items()] see it. *)
Fixpoint od_get (d : list (Z * list Z)) (k : Z) : option (list Z) :=
  match d with
  | [] => None
  | (k', l) :: d' => if decide (k' = k) then Some l else od_get d' k
  end.

(** [if k not in d: d[k] = []] followed by a change of [d[k]]: an old key
    keeps its place, a new key goes to the end. *)
Fixpoint od_update (k : Z) (f : list Z -> list Z) (d : list (Z * list Z))
    : list (Z * list Z) :=
  match d with
  | [] => [(k, f [])]
  | (k', l) :: d' =>
      if decide (k' = k) then (k', f l) :: d' else (k', l) :: od_update k f d'
  end.

(** [build_rc_links_if_necessary]: [new_links] starts as a copy of [links]
    that shares its lists, so the list read for a key is the one [new_links]
    holds when the loop comes to that key.  A list is not appended to while
    it is read: that would take [rc_end = start], so [end = rc_start], which
    the list then has. *)
Definition build_rc_links_if_necessary (links : list (Z * list Z)) : list (Z * list Z) :=
  foldl (fun new_links start =>
           foldl (fun new_links end_ =>
                    let rc_start := - start in
                    let rc_end := - end_ in
                    od_update rc_end
                      (fun l => if py_in rc_start l then l else l ++ [rc_start])
                      new_links)
                 new_links (default [] (od_get new_links start)))
        links links.*1.

(** [build_reverse_links] *)
Definition build_reverse_links (links : list (Z * list Z)) : list (Z * list Z) :=
  foldl (fun reverse_links item =>
           foldl (fun reverse_links end_ =>
                    od_update end_ (fun l => l ++ [item.1]) reverse_links)
                 reverse_links item.2)
        [] links.

(** The links of a dictionary given by its items. *)
Definition od_has_link (d : list (Z * list Z)) (a b : Z) : Prop :=
  b ∈ default [] (od_get d a).

(** What the loops of [build_rc_links_if_necessary] keep, in terms of how
    often a link is listed: nothing of [m0] is lost, and nothing is listed
    more often than in [m0] unless it is the twin of a link of [m0], which
    is listed once. *)
Definition rc_bounds (m0 m : gmap Z (list Z)) : Prop :=
  forall a b,
    (link_count m0 a b <= link_count m a b)%nat
    /\ (link_count m a b
        <= Nat.max (link_count m0 a b) (Nat.min 1 (link_count m0 (- b) (- a))))%nat.

(** Only segments have copy depths, and the copy depths of a segment are a
    list that is not empty and is in descending order. *)
Definition copy_depths_ok (g : AssemblyGraph) : Prop :=
  forall n l, copy_depths g !! n = Some l ->
    is_Some (segments g !! n) /\ l <> [] /\ descending l.

(** The best candidate of [merge_copy_depths], when there is one, is a
    segment of the graph with depths that are not empty and in descending
    order. *)
Definition merge_best_ok (g : AssemblyGraph) (b : merge_best) : Prop :=
  forall n, best_segment_num b = Some n ->
    is_Some (segments g !! n)
    /\ best_new_depths b <> [] /\ descending (best_new_depths b).

(** A list of segments with no segment longer than one before it. *)
Fixpoint longest_first (l : list Segment) : Prop :=
  match l with
  | [] => True
  | x :: l' => Forall (fun y => get_length y <= get_length x) l' /\ longest_first l'
  end.

(** ** Simple paths *)

(** One round of the first [while True] loop of [get_simple_path]; [None]
    stands for [break]. *)
Definition simple_path_step_forward (g : AssemblyGraph) (simple_path : list Z)
    : result (option (list Z)) :=
  last_seg ← list_last simple_path;
  match forward_links g !! last_seg with
  | None => Ok None
  | Some [potential] =>
      if py_in potential simple_path || py_in (- potential) simple_path then Ok None
      else
        back ← getitem (reverse_links g) potential;
        match back with
        | [x] => if bool_decide (x = last_seg)
                 then Ok (Some (simple_path ++ [potential])) else Ok None
        | _ => Ok None
        end
  | Some _ => Ok None
  end.

(** One round of the second [while True] loop of [get_simple_path]. *)
Definition simple_path_step_backward (g : AssemblyGraph) (simple_path : list Z)
    : result (option (list Z)) :=
  first_seg ← list_getitem simple_path 0;
  match reverse_links g !! first_seg with
  | None => Ok None
  | Some [potential] =>
      if py_in potential simple_path || py_in (- potential) simple_path then Ok None
      else
        forth ← getitem (forward_links g) potential;
        match forth with
        | [x] => if bool_decide (x = first_seg)
                 then Ok (Some (potential :: simple_path)) else Ok None
        | _ => Ok None
        end
  | Some _ => Ok None
  end.

(** A [while True] loop that runs [step] until it breaks; [fuel] bounds
    the number of rounds ([None] when used up). *)
Fixpoint expand_path (fuel : nat) (step : list Z -> result (option (list Z)))
    (simple_path : list Z) : option (result (list Z)) :=
  match fuel with
  | O => None
  | S fuel' =>
      match step simple_path with
      | Raise e => Some (Raise e)
      | Ok None => Some (Ok simple_path)
      | Ok (Some simple_path') => expand_path fuel' step simple_path'
      end
  end.

(** [AssemblyGraph.get_simple_path] *)
Definition get_simple_path (fuel : nat) (g : AssemblyGraph) (starting_seg : Z)
    : option (result (list Z)) :=
  match expand_path fuel (simple_path_step_forward g) [starting_seg] with
  | None => None
  | Some (Raise e) => Some (Raise e)
  | Some (Ok simple_path) => expand_path fuel (simple_path_step_backward g) simple_path
  end.

(** Each entry of the path has the next one as its only successor and is
    the only predecessor of the next one. *)
Definition exclusive_chain (g : AssemblyGraph) (p : list Z) : Prop :=
  forall i x y, p !! i = Some x -> p !! S i = Some y ->
    forward_links g !! x = Some [y] /\ reverse_links g !! y = Some [x].

(** What the two loops of [get_simple_path] keep of the path they grow
    from [starting_seg]. *)
Definition simple_path_state (g : AssemblyGraph) (starting_seg : Z) (p : list Z) : Prop :=
  NoDup (map Z.abs p) /\ starting_seg ∈ p
  /\ (forall x, x ∈ p ->
        x = starting_seg \/ x ∈ (map_to_list (forward_links g)).*1
        \/ x ∈ (map_to_list (reverse_links g)).*1)
  /\ exclusive_chain g p.

(** ** Simple loops *)

(** The body of the loop of [find_all_simple_loops] for one [middle]
    segment; [None] stands for [continue]. *)
Definition simple_loop_at (g : AssemblyGraph) (middle : Z)
    : result (option (Z * Z * Z * Z)) :=
  match forward_links g !! middle, reverse_links g !! middle with
  | Some [f0], Some [r0] =>
      if negb (bool_decide (f0 = r0)) then Ok None
      else
        let repeat := f0 in
        repeat_out ← getitem (forward_links g) repeat;
        match repeat_out with
        | [out0; out1] =>
            repeat_in ← getitem (reverse_links g) repeat;
            match repeat_in with
            | [in0; in1] =>
                let start := in0 in
                let start := if bool_decide (Z.abs start = Z.abs middle) then in1
                             else start in
                if bool_decide (Z.abs start = Z.abs middle)
                   || bool_decide (Z.abs start = Z.abs repeat)
                then Ok None
                else
                  let end_ := out0 in
                  let end_ := if bool_decide (Z.abs end_ = Z.abs middle) then out1
                              else end_ in
                  if bool_decide (Z.abs end_ = Z.abs middle)
                     || bool_decide (Z.abs end_ = Z.abs repeat)
                  then Ok None
                  else Ok (Some (start, end_, middle, repeat))
            | _ => Ok None
            end
        | _ => Ok None
        end
  | _, _ => Ok None
  end.

(** The loop of [find_all_simple_loops] over the segment numbers. *)
Fixpoint simple_loops_from (g : AssemblyGraph) (middles : list Z)
    : result (list (Z * Z * Z * Z)) :=
  match middles with
  | [] => Ok []
  | middle :: middles' =>
      found ← simple_loop_at g middle;
      simple_loops ← simple_loops_from g middles';
      Ok (match found with
          | Some loop => loop :: simple_loops
          | None => simple_loops
          end)
  end.

(** [AssemblyGraph.find_all_simple_loops]: the tuples
    [(start, end, middle, repeat)]. *)
Definition find_all_simple_loops (g : AssemblyGraph) : result (list (Z * Z * Z * Z)) :=
  simple_loops_from g (map_to_list (segments g)).*1.

(** [start -> repeat -> middle -> repeat -> end] is a simple loop of the
    graph: the middle segment has the repeat segment as its only successor
    and only predecessor, the repeat segment has two links on each side, and
    the start and the end are neither the middle nor the repeat segment. *)
Definition simple_loop (g : AssemblyGraph) (start end_ middle repeat : Z) : Prop :=
  is_Some (segments g !! middle)
  /\ forward_links g !! middle = Some [repeat]
  /\ reverse_links g !! middle = Some [repeat]
  /\ length (links_of (forward_links g) repeat) = 2%nat
  /\ length (links_of (reverse_links g) repeat) = 2%nat
  /\ (end_ ∈ links_of (forward_links g) repeat)
  /\ (start ∈ links_of (reverse_links g) repeat)
  /\ Z.abs start <> Z.abs middle /\ Z.abs start <> Z.abs repeat
  /\ Z.abs end_ <> Z.abs middle /\ Z.abs end_ <> Z.abs repeat.

(** A simple loop [1 -> 2 -> 3 -> 2 -> 4]: segment 3 is the middle and
    segment 2 the repeat. *)
Definition simple_loop_example : AssemblyGraph :=
  add_link 2 4 (add_link 3 2 (add_link 2 3 (add_link 1 2
    {| segments := list_to_map
         [(1, plain_segment 1 10 "ACGT"); (2, plain_segment 2 20 "ACGT");
          (3, plain_segment 3 10 "ACGT"); (4, plain_segment 4 10 "ACGT")];
       forward_links := ∅; reverse_links := ∅; copy_depths := ∅; paths := ∅;
       overlap := 0 |}))).
(** ** [apply_bridge] on scenario 5 *)

(** C1: on scenario 5 ([1 -> 2 -> 3 -> 4] with the bypass [1 -> 4], bridge
    from 1 to 4 over [2; 3]) [apply_bridge] returns the new segment 5 with
    the links [1 -> 5 -> 4], but each of its two loops skips the second link
    of the list it shortens while running over it: the old link [3 -> 4] into
    the end segment is still there afterwards. *)
Theorem apply_bridge_scenario5_keeps_old_link :
  exists g', apply_scenario5 = Some (Ok (g', 5))
    /\ links_of (forward_links g') 1 = [5]
    /\ links_of (reverse_links g') 4 = [3; 5]
    /\ has_link g' 3 4
    /\ links_of (forward_links scenario5) 1 = [2; 4]
    /\ links_of (reverse_links scenario5) 4 = [1; 3].
Proof.
  eexists. split; [vm_compute; reflexivity|].
  repeat split; try (vm_compute; reflexivity).
  vm_compute. apply list_elem_of_here.
Qed.

(** ** [dead_end_change_if_path_deleted] *)

(** C5: for the isolated pair [1 -> 2] the source answers 0 and for the
    isolated chain [1 -> 2 -> 3] it answers 1, where the described count is
    -2 in both cases (nothing is left to become a dead end and the path's two
    ends are dead ends already). *)
Theorem dead_end_change_if_path_deleted_differs :
  dead_end_change_if_path_deleted isolated_pair [1; 2] = Ok 0
  /\ path_dead_end_change isolated_pair [1; 2] = Ok (-2)
  /\ dead_end_change_if_path_deleted isolated_chain [1; 2; 3] = Ok 1
  /\ path_dead_end_change isolated_chain [1; 2; 3] = Ok (-2).
Proof. repeat split; vm_compute; reflexivity. Qed.

(** ** Shared lemmas on tables *)

Lemma elem_of_all_links (d : gmap Z (list Z)) (a b : Z) :
  (a, b) ∈ all_links d <-> b ∈ links_of d a.
Proof.
  unfold all_links, links_of. rewrite list_elem_of_In, in_flat_map. split.
  - intros [[k l] [Hin Hab]]. apply list_elem_of_In, elem_of_map_to_list in Hin.
    simpl in Hab. apply in_map_iff in Hab as [x [Heq Hx]].
    inversion Heq; subst. rewrite Hin. simpl. by apply list_elem_of_In.
  - intros Hb. destruct (d !! a) as [l|] eqn:Hl; simpl in Hb.
    + exists (a, l). split.
      * by apply list_elem_of_In, elem_of_map_to_list.
      * simpl. apply in_map_iff. exists b. split; [done|]. by apply list_elem_of_In.
    + by apply not_elem_of_nil in Hb.
Qed.

Lemma strand_symmetric_check_sound (g : AssemblyGraph) :
  strand_symmetric_check g = true -> strand_symmetric g.
Proof.
  unfold strand_symmetric_check, strand_symmetric, has_link.
  rewrite forallb_forall. intros H a b Hab.
  apply elem_of_all_links, list_elem_of_In, H in Hab.
  by apply bool_decide_eq_true in Hab.
Qed.

Lemma links_nonzero_check_sound (g : AssemblyGraph) :
  links_nonzero_check g = true -> links_nonzero g.
Proof.
  unfold links_nonzero_check, links_nonzero, has_link.
  rewrite forallb_forall. intros H a b Hab.
  apply elem_of_all_links, list_elem_of_In, H in Hab.
  apply andb_true_iff in Hab as [H1 H2].
  apply negb_true_iff, bool_decide_eq_false in H1.
  apply negb_true_iff, bool_decide_eq_false in H2. done.
Qed.

Lemma mirrored_check_sound (g : AssemblyGraph) :
  mirrored_check g = true -> mirrored g.
Proof.
  unfold mirrored_check, mirrored. rewrite andb_true_iff, !forallb_forall.
  intros [H1 H2] a b. split; intros Hab.
  - apply elem_of_all_links, list_elem_of_In, H1 in Hab.
    by apply bool_decide_eq_true in Hab.
  - apply elem_of_all_links, list_elem_of_In, H2 in Hab.
    by apply bool_decide_eq_true in Hab.
Qed.

(** ** Positive links and the GFA link lines *)

Section PositiveLinks.

Local Ltac link_cases :=
  unfold is_link_positive;
  repeat match goal with
  | |- context [(?x <? ?y)] => destruct (Z.ltb_spec x y)
  | |- context [(?x =? ?y)] => destruct (Z.eqb_spec x y)
  end; simpl.

Lemma is_link_positive_iff (a b : Z) :
  a <> 0 -> b <> 0 ->
  (is_link_positive a b = true <->
     (0 < a /\ 0 < b) \/ (~ (a < 0 /\ b < 0) /\ (a = - b \/ Z.abs b < Z.abs a))).
Proof. intros Ha Hb. link_cases; split; intros; try done; lia. Qed.

Lemma is_link_positive_negative (a b : Z) :
  a < 0 -> b < 0 -> is_link_positive a b = false.
Proof. intros Ha Hb. link_cases; try done; lia. Qed.

Lemma is_link_positive_twin (a b : Z) :
  a <> 0 -> b <> 0 -> a <> - b ->
  is_link_positive (- b) (- a) = negb (is_link_positive a b).
Proof. intros Ha Hb Hab. link_cases; try done; lia. Qed.

Lemma is_link_positive_self_twin (a : Z) :
  a <> 0 -> is_link_positive a (- a) = true.
Proof. intros Ha. link_cases; try done; lia. Qed.

Lemma count_in_nil {A} `{EqDecision A} (x : A) : count_in x [] = 0%nat.
Proof. done. Qed.

Lemma count_in_app {A} `{EqDecision A} (x : A) (l1 l2 : list A) :
  count_in x (l1 ++ l2) = (count_in x l1 + count_in x l2)%nat.
Proof. unfold count_in. by rewrite List.filter_app, length_app. Qed.

Lemma count_in_cons {A} `{EqDecision A} (x y : A) (l : list A) :
  count_in x (y :: l) = ((if decide (y = x) then 1 else 0) + count_in x l)%nat.
Proof.
  unfold count_in. simpl. case_bool_decide; case_decide; done.
Qed.

Lemma count_in_zero {A} `{EqDecision A} (x : A) (l : list A) :
  x ∉ l -> count_in x l = 0%nat.
Proof.
  induction l as [|y l IH]; [done|]. intros Hx.
  rewrite count_in_cons. apply not_elem_of_cons in Hx as [Hne Hx].
  rewrite IH by done. case_decide; [congruence|done].
Qed.

Lemma count_in_pos {A} `{EqDecision A} (x : A) (l : list A) :
  (0 < count_in x l)%nat -> x ∈ l.
Proof.
  intros Hc. destruct (decide (x ∈ l)) as [|Hn]; [done|].
  rewrite count_in_zero in Hc by done. lia.
Qed.

(** The lines written for the links of one start. *)
Lemma count_in_links_of_start (start a b : Z) (ends : list Z) :
  count_in (a, b)
    (map (fun end_ => (start, end_))
         (List.filter (fun end_ => is_link_positive start end_) ends))
  = if decide (start = a)
    then (if is_link_positive a b then count_in b ends else 0%nat)
    else 0%nat.
Proof.
  induction ends as [|e ends IH]; simpl.
  - case_decide; [destruct (is_link_positive a b)|]; done.
  - destruct (is_link_positive start e) eqn:He; simpl.
    + rewrite count_in_cons, IH. case_decide as Hs.
      * subst start. rewrite count_in_cons.
        case_decide as H1; case_decide as H2; try congruence.
        -- subst e. by rewrite He.
        -- by destruct (is_link_positive a b).
      * case_decide as H1; [congruence|done].
    + rewrite IH. case_decide as Hs; [|done]. subst start.
      destruct (is_link_positive a b) eqn:Hab; [|done].
      rewrite count_in_cons. case_decide; [congruence|done].
Qed.

Lemma emitted_count_items (items : list (Z * list Z)) (a b : Z) :
  NoDup items.*1 ->
  count_in (a, b)
    (flat_map (fun se => map (fun end_ => (se.1, end_))
                 (List.filter (fun end_ => is_link_positive se.1 end_) se.2)) items)
  = match list_to_map (M := gmap Z (list Z)) items !! a with
    | Some ends => if is_link_positive a b then count_in b ends else 0%nat
    | None => 0%nat
    end.
Proof.
  induction items as [|[k l] items IH]; simpl; [done|].
  intros Hnd. apply NoDup_cons in Hnd as [Hk Hnd].
  rewrite count_in_app, count_in_links_of_start, IH by done.
  case_decide as Hka.
  - subst k. rewrite lookup_insert_eq.
    rewrite (not_elem_of_list_to_map_1 _ a) by done.
    destruct (is_link_positive a b); lia.
  - rewrite lookup_insert_ne by done. done.
Qed.

Lemma gfa_links_count (g : AssemblyGraph) (a b : Z) :
  count_in (a, b) (gfa_links g)
  = if is_link_positive a b then count_in b (links_of (forward_links g) a) else 0%nat.
Proof.
  unfold gfa_links.
  rewrite emitted_count_items by apply NoDup_fst_map_to_list.
  rewrite list_to_map_to_list. unfold links_of.
  destruct (forward_links g !! a); simpl; [done|].
  by destruct (is_link_positive a b).
Qed.

End PositiveLinks.

(** ** Scaling copy depths *)

Lemma Qsum_zero_scale_fails (target_depth : Q) (source_depths : list Q) :
  (Qsum source_depths == 0)%Q ->
  scale_copy_depths target_depth source_depths = Raise ZeroDivisionError.
Proof.
  intros H. unfold scale_copy_depths, py_div.
  apply Qeq_bool_iff in H. by rewrite H.
Qed.

(** C4: scaling sources that sum to zero does not give an infinite error: the
    division by their sum fails.  [scale_copy_depths 5 [0]] raises
    [ZeroDivisionError], and so do [merge_copy_depths] and
    [determine_copy_depth] on a graph whose segment of depth 0 leads into a
    segment of depth 5. *)
Theorem scale_copy_depths_zero_sum_fails :
  scale_copy_depths 5 [0%Q] = Raise ZeroDivisionError
  /\ merge_copy_depths (2 # 10)
       (set_copy_depths zero_depth_source {[ 1 := [0%Q] ]})
     = Raise ZeroDivisionError
  /\ determine_copy_depth 10 zero_depth_source = Some (Raise ZeroDivisionError).
Proof. repeat split; vm_compute; reflexivity. Qed.

(** ** The single-copy depth *)

Lemma Zsum_from (l : list Z) (acc : Z) : foldl Z.add acc l = acc + Zsum l.
Proof.
  unfold Zsum. revert acc. induction l as [|x l IH]; intros acc; simpl; [lia|].
  rewrite IH, (IH (0 + x)). lia.
Qed.

Lemma get_base_count_in_depth_range_eq (g : AssemblyGraph) (min_depth max_depth : Q) :
  get_base_count_in_depth_range g min_depth max_depth
  = bases_in_depth_range g min_depth max_depth.
Proof.
  unfold get_base_count_in_depth_range, bases_in_depth_range.
  generalize ((map_to_list (segments g)).*2). intros l.
  enough (forall acc,
    foldl (fun total_bases segment =>
             if Qle_bool min_depth (depth segment) && Qle_bool (depth segment) max_depth
             then total_bases + get_length segment else total_bases) acc l
    = acc + Zsum (map get_length
        (List.filter (fun s => Qle_bool min_depth (depth s) && Qle_bool (depth s) max_depth) l)))
    as H by (rewrite H; lia).
  induction l as [|s l IH]; intros acc; simpl; [unfold Zsum; simpl; lia|].
  rewrite IH. destruct (Qle_bool min_depth (depth s) && Qle_bool (depth s) max_depth); simpl.
  - unfold Zsum at 2. simpl. rewrite Zsum_from. lia.
  - done.
Qed.

Lemma Qlt_bool_fractions (a b t : Z) :
  0 < t -> Qlt_bool (inject_Z b / inject_Z t) (inject_Z a / inject_Z t) = (b <? a).
Proof.
  intros Ht. unfold Qlt_bool. destruct t as [|p|p]; try lia.
  destruct (Z.ltb_spec b a) as [H|H].
  - apply negb_true_iff, not_true_is_false. rewrite Qle_bool_iff.
    unfold Qle, Qdiv, Qinv, Qmult, inject_Z. simpl. nia.
  - apply negb_false_iff. rewrite Qle_bool_iff.
    unfold Qle, Qdiv, Qinv, Qmult, inject_Z. simpl. nia.
Qed.

Lemma Qle_bool_tenth (a t : Z) :
  0 < t ->
  Qle_bool min_half_median_for_diploid (inject_Z a / inject_Z t) = (t <=? 10 * a).
Proof.
  intros Ht. destruct t as [|p|p]; try lia.
  destruct (Z.leb_spec (Z.pos p) (10 * a)) as [H|H].
  - rewrite Qle_bool_iff.
    unfold Qle, Qdiv, Qinv, Qmult, inject_Z, min_half_median_for_diploid. simpl. lia.
  - apply not_true_is_false. rewrite Qle_bool_iff.
    unfold Qle, Qdiv, Qinv, Qmult, inject_Z, min_half_median_for_diploid. simpl. lia.
Qed.

Lemma single_copy_depth_diploid_example :
  exists d, single_copy_depth diploid_example = Ok d /\ (d == 100)%Q.
Proof. eexists. split; vm_compute; reflexivity. Qed.

(** C8 (as amended): with [M] the median depth, the single-copy depth is
    [M/2] when the bases at depths in [0.4M, 0.6M] outnumber those in
    [1.6M, 2.4M] and are at least a tenth of all bases, and [M] otherwise.
    For 50 kb at depth 50 and 500 kb at depth 100 the bases near half the
    median are 50000 of 550000, less than a tenth, and the single-copy depth
    is the median, 100. *)
Theorem single_copy_depth_rule (g : AssemblyGraph) :
  0 < get_total_length g ->
  (let M := get_median_read_depth g None in
   let near_half := bases_in_depth_range g (M * (4 # 10)) (M * (6 # 10)) in
   let near_double := bases_in_depth_range g (M * (16 # 10)) (M * (24 # 10)) in
   single_copy_depth g
   = Ok (if (near_double <? near_half) && (get_total_length g <=? 10 * near_half)
         then (M / 2)%Q else M))
  /\ get_median_read_depth diploid_example None = 100%Q
  /\ bases_in_depth_range diploid_example 40 60 = 50000
  /\ get_total_length diploid_example = 550000
  /\ exists d, single_copy_depth diploid_example = Ok d /\ (d == 100)%Q.
Proof.
  intros Htot. split; [|repeat split; try (vm_compute; reflexivity);
                        apply single_copy_depth_diploid_example].
  intros M near_half near_double. unfold single_copy_depth.
  rewrite !get_base_count_in_depth_range_eq.
  fold M. fold near_half. fold near_double.
  unfold py_div.
  assert (Qeq_bool (inject_Z (get_total_length g)) 0 = false) as ->.
  { apply not_true_is_false. intros H%Qeq_bool_iff.
    unfold Qeq, inject_Z in H. simpl in H. lia. }
  simpl. rewrite Qlt_bool_fractions, Qle_bool_tenth by done.
  by destruct ((near_double <? near_half) && (get_total_length g <=? 10 * near_half)).
Qed.

Lemma single_copy_depth_rule_witness :
  0 < get_total_length isolated_pair
  /\ exists d, single_copy_depth isolated_pair = Ok d /\ (d == 10)%Q.
Proof.
  split; [vm_compute; reflexivity|].
  eexists. split.
  - refine (eq_trans (proj1 (single_copy_depth_rule isolated_pair _)) _).
    + vm_compute; reflexivity.
    + vm_compute; reflexivity.
  - vm_compute; reflexivity.
Defined.

(** C8, the example as stated: the single-copy depth of the example is not
    50. *)
Lemma single_copy_depth_diploid_not_50 :
  exists d, single_copy_depth diploid_example = Ok d /\ ~ (d == 50)%Q.
Proof.
  eexists. split; [vm_compute; reflexivity|].
  intros H. vm_compute in H. discriminate H.
Qed.

(** ** [remove_link] *)

Lemma list_remove_present (x : Z) (l : list Z) :
  x ∈ l -> exists l', list_remove x l = Ok l' /\ removed_first x l l'.
Proof.
  induction l as [|y l IH]; intros Hx; [by apply not_elem_of_nil in Hx|].
  simpl. case_decide as Hy.
  - subst y. exists l. split; [done|]. exists [], l.
    split; [done|]. split; [apply not_elem_of_nil|done].
  - apply elem_of_cons in Hx as [Hx|Hx]; [congruence|].
    destruct (IH Hx) as (l' & Hl' & l1 & l2 & -> & Hn & ->).
    exists (y :: l1 ++ l2). rewrite Hl'. split; [done|].
    exists (y :: l1), l2. split; [done|]. split; [|done].
    apply not_elem_of_cons. split; [congruence|done].
Qed.

Lemma list_remove_absent (x : Z) (l : list Z) :
  x ∉ l -> list_remove x l = Raise ValueError.
Proof.
  induction l as [|y l IH]; intros Hx; [done|].
  apply not_elem_of_cons in Hx as [Hne Hx]. simpl.
  case_decide; [congruence|]. by rewrite IH.
Qed.

Lemma links_of_elem (d : gmap Z (list Z)) (k v : Z) :
  v ∈ links_of d k -> exists l, d !! k = Some l /\ v ∈ l /\ links_of d k = l.
Proof.
  unfold links_of. destruct (d !! k) as [l|]; simpl; intros H.
  - by exists l.
  - by apply not_elem_of_nil in H.
Qed.

Lemma link_remove_present (k v : Z) (d : gmap Z (list Z)) :
  v ∈ links_of d k ->
  exists l', link_remove k v d = Ok (<[k := l']> d)
             /\ removed_first v (links_of d k) l'.
Proof.
  intros (l & Hl & Hv & Heq)%links_of_elem.
  destruct (list_remove_present v l Hv) as (l' & Hrm & Hfirst).
  exists l'. unfold link_remove. rewrite Hl, Hrm, Heq. done.
Qed.

Lemma link_remove_no_key (k v : Z) (d : gmap Z (list Z)) :
  d !! k = None -> link_remove k v d = Ok d.
Proof. intros H. unfold link_remove. by rewrite H. Qed.

Lemma link_remove_absent (k v : Z) (d : gmap Z (list Z)) (l : list Z) :
  d !! k = Some l -> v ∉ l -> link_remove k v d = Raise ValueError.
Proof.
  intros H Hv. unfold link_remove. rewrite H.
  by rewrite (list_remove_absent v l Hv).
Qed.

Lemma links_of_insert_eq (d : gmap Z (list Z)) (k : Z) (l : list Z) :
  links_of (<[k := l]> d) k = l.
Proof. unfold links_of. by rewrite lookup_insert_eq. Qed.

Lemma links_of_insert_ne (d : gmap Z (list Z)) (k k' : Z) (l : list Z) :
  k <> k' -> links_of (<[k := l]> d) k' = links_of d k'.
Proof. intros H. unfold links_of. by rewrite lookup_insert_ne. Qed.

(** What [remove_link] does when it does not fail: for a link [a -> b]
    that is not its own twin and is recorded in the four lists,
    [remove_link] succeeds and takes the first
    occurrence of the link and of its twin out of the forward and the reverse
    table, leaving every other list and every other field as it was; when
    none of the four keys is in the tables it changes nothing; when the
    forward table has the key [a] and its list lacks [b] it fails with
    [ValueError]. *)
Theorem remove_link_spec (g : AssemblyGraph) (a b : Z) :
  (b <> - a ->
   b ∈ links_of (forward_links g) a ->
   - a ∈ links_of (forward_links g) (- b) ->
   a ∈ links_of (reverse_links g) b ->
   - b ∈ links_of (reverse_links g) (- a) ->
   exists g', remove_link a b g = Ok g'
     /\ removed_first b (links_of (forward_links g) a) (links_of (forward_links g') a)
     /\ removed_first (- a) (links_of (forward_links g) (- b))
                      (links_of (forward_links g') (- b))
     /\ removed_first a (links_of (reverse_links g) b) (links_of (reverse_links g') b)
     /\ removed_first (- b) (links_of (reverse_links g) (- a))
                      (links_of (reverse_links g') (- a))
     /\ (forall k, k <> a -> k <> - b -> forward_links g' !! k = forward_links g !! k)
     /\ (forall k, k <> b -> k <> - a -> reverse_links g' !! k = reverse_links g !! k)
     /\ segments g' = segments g /\ copy_depths g' = copy_depths g
     /\ paths g' = paths g /\ overlap g' = overlap g)
  /\ (forward_links g !! a = None -> forward_links g !! (- b) = None ->
      reverse_links g !! b = None -> reverse_links g !! (- a) = None ->
      remove_link a b g = Ok g)
  /\ (forall l, forward_links g !! a = Some l -> b ∉ l ->
      remove_link a b g = Raise ValueError).
Proof.
  split; [|split].
  - intros Hne Hf1 Hf2 Hr1 Hr2.
    assert (a <> - b) as Hne' by lia.
    destruct (link_remove_present a b _ Hf1) as (l1 & E1 & F1).
    assert (- a ∈ links_of (<[a := l1]> (forward_links g)) (- b)) as Hf2'.
    { by rewrite links_of_insert_ne. }
    destruct (link_remove_present _ _ _ Hf2') as (l2 & E2 & F2).
    rewrite links_of_insert_ne in F2 by done.
    destruct (link_remove_present b a _ Hr1) as (l3 & E3 & F3).
    assert (- b ∈ links_of (<[b := l3]> (reverse_links g)) (- a)) as Hr2'.
    { by rewrite links_of_insert_ne. }
    destruct (link_remove_present _ _ _ Hr2') as (l4 & E4 & F4).
    rewrite links_of_insert_ne in F4 by done.
    eexists. unfold remove_link. rewrite E1. simpl. rewrite E2. simpl.
    rewrite E3. simpl. rewrite E4. simpl. split; [done|]. simpl.
    rewrite links_of_insert_ne, !links_of_insert_eq by lia.
    rewrite links_of_insert_ne, links_of_insert_eq by lia.
    repeat split; try done.
    + intros k Hk1 Hk2. by rewrite !lookup_insert_ne.
    + intros k Hk1 Hk2. by rewrite !lookup_insert_ne.
  - intros H1 H2 H3 H4. unfold remove_link.
    rewrite (link_remove_no_key _ _ _ H1). simpl.
    rewrite (link_remove_no_key _ _ _ H2). simpl.
    rewrite (link_remove_no_key _ _ _ H3). simpl.
    rewrite (link_remove_no_key _ _ _ H4). simpl.
    by destruct g.
  - intros l Hl Hb. unfold remove_link.
    by rewrite (link_remove_absent _ _ _ _ Hl Hb).
Qed.

Lemma remove_link_spec_witness :
  exists g', remove_link 1 2 isolated_pair = Ok g'
    /\ removed_first 2 (links_of (forward_links isolated_pair) 1)
                       (links_of (forward_links g') 1).
Proof.
  destruct (proj1 (remove_link_spec isolated_pair 1 2)) as (g' & H1 & H2 & _).
  - lia.
  - vm_compute. apply list_elem_of_here.
  - vm_compute. apply list_elem_of_here.
  - vm_compute. apply list_elem_of_here.
  - vm_compute. apply list_elem_of_here.
  - exists g'. split; assumption.
Defined.

(** C6: [remove_link] is no silent no-op on an absent link, and it cannot
    remove a link that is its own twin.  In the graph [1 -> 2] there is no
    link [1 -> 3], yet [remove_link 1 3] fails with [ValueError], since the
    key [1] is there and [list.remove] is not guarded.  In the hairpin
    junction the link [1 -> -1] is there, yet [remove_link 1 (-1)] fails with
    [ValueError] too: its second statement looks in the same list for the
    entry that the first one has just removed. *)
Theorem remove_link_raises_value_error :
  (~ has_link isolated_pair 1 3
   /\ remove_link 1 3 isolated_pair = Raise ValueError
   /\ remove_link 1 3 isolated_pair <> Ok isolated_pair)
  /\ (has_link hairpin_junction 1 (- 1)
      /\ strand_symmetric hairpin_junction /\ mirrored hairpin_junction
      /\ remove_link 1 (- 1) hairpin_junction = Raise ValueError).
Proof.
  split; [split; [|split]|split; [|split; [|split]]].
  - vm_compute. intros H. apply list_elem_of_In in H. simpl in H.
    destruct H as [H|[]]. discriminate H.
  - vm_compute. reflexivity.
  - vm_compute. discriminate.
  - vm_compute. apply list_elem_of_here.
  - apply strand_symmetric_check_sound. vm_compute. reflexivity.
  - apply mirrored_check_sound. vm_compute. reflexivity.
  - vm_compute. reflexivity.
Qed.

(** ** Splitting paths *)

Section SplitPath.

Lemma split_where_nonempty (f : Z -> bool) (p : list Z) : split_where f p <> [].
Proof.
  destruct p as [|x p]; simpl; [done|].
  destruct (f x); [done|]. by destruct (split_where f p).
Qed.

Lemma split_where_ext (f1 f2 : Z -> bool) (p : list Z) :
  (forall x, f1 x = f2 x) -> split_where f1 p = split_where f2 p.
Proof.
  intros H. induction p as [|x p IH]; simpl; [done|]. by rewrite H, IH.
Qed.

Lemma split_on_where (seg : Z) (p : list Z) :
  split_on seg p = split_where (fun x => bool_decide (x = seg)) p.
Proof.
  induction p as [|x p IH]; simpl; [done|]. rewrite IH.
  case_decide; case_bool_decide; done.
Qed.

Lemma flat_map_split_where (f1 f2 : Z -> bool) (p : list Z) :
  flat_map (split_where f2) (split_where f1 p)
  = split_where (fun x => f1 x || f2 x) p.
Proof.
  induction p as [|x p IH]; simpl; [done|].
  destruct (f1 x) eqn:H1; simpl.
  - by rewrite IH.
  - destruct (split_where f1 p) as [|piece pieces] eqn:Hp.
    { by apply split_where_nonempty in Hp. }
    simpl in *. rewrite <- IH.
    destruct (f2 x) eqn:H2; simpl; [done|].
    destruct (split_where f2 piece) as [|q qs] eqn:Hq.
    { by apply split_where_nonempty in Hq. }
    done.
Qed.

Lemma split_where_lengths (f : Z -> bool) (p : list Z) :
  Forall (fun q => (length q <= length p)%nat) (split_where f p).
Proof.
  induction p as [|x p IH]; simpl.
  - by constructor.
  - destruct (f x).
    + constructor; [simpl; lia|].
      eapply Forall_impl; [exact IH|]. simpl. intros; lia.
    + destruct (split_where f p) as [|piece pieces];
        [constructor; [simpl; lia|constructor]|].
      apply Forall_cons in IH as [H1 H2]. constructor; [simpl; lia|].
      eapply Forall_impl; [exact H2|]. simpl. intros; lia.
Qed.

Lemma split_where_pieces (f : Z -> bool) (p q : list Z) :
  q ∈ split_where f p -> Forall (fun x => f x = false) q /\ occurs_in q p.
Proof.
  revert q. induction p as [|x p IH]; simpl; intros q Hq.
  - apply list_elem_of_singleton in Hq as ->. split; [constructor|]. by exists [], [].
  - destruct (f x) eqn:Hx.
    + apply elem_of_cons in Hq as [->|Hq].
      * split; [constructor|]. by exists [], (x :: p).
      * destruct (IH q Hq) as [H1 (l1 & l2 & ->)]. split; [done|].
        by exists (x :: l1), l2.
    + destruct (split_where f p) as [|piece pieces] eqn:Hp.
      { apply list_elem_of_singleton in Hq as ->. by apply split_where_nonempty in Hp. }
      apply elem_of_cons in Hq as [->|Hq].
      * destruct (IH piece) as [H1 (l1 & l2 & Heq)]; [apply list_elem_of_here|].
        split; [by constructor|].
        (* the first piece starts the path *)
        assert (exists l2', p = piece ++ l2') as [l2' ->].
        { clear -Hp. revert piece pieces Hp. induction p as [|y p IHp]; simpl.
          - intros piece pieces [= <- <-]. by exists [].
          - intros piece pieces. destruct (f y).
            + intros [= <- <-]. by exists (y :: p).
            + destruct (split_where f p) as [|piece' pieces'] eqn:Hp'.
              { by apply split_where_nonempty in Hp'. }
              intros [= <- <-]. destruct (IHp _ _ eq_refl) as [l ->]. by exists l. }
        by exists [], l2'.
      * destruct (IH q) as [H1 (l1 & l2 & ->)]; [by apply list_elem_of_further|].
        split; [done|]. by exists (x :: l1), l2.
Qed.

Lemma filter_long_short_piece (f : Z -> bool) (part : list Z) :
  long_path part = false -> List.filter long_path (split_where f part) = [].
Proof.
  intros Hs. pose proof (split_where_lengths f part) as H.
  induction H as [|q qs Hq _ IH]; simpl; [done|].
  rewrite IH. unfold long_path in *.
  apply bool_decide_eq_false in Hs.
  rewrite bool_decide_eq_false_2 by lia. done.
Qed.

Lemma filter_flat_map_split (f : Z -> bool) (parts : list (list Z)) :
  flat_map (fun part => List.filter long_path (split_where f part))
           (List.filter long_path parts)
  = List.filter long_path (flat_map (split_where f) parts).
Proof.
  induction parts as [|part parts IH]; simpl; [done|].
  rewrite List.filter_app, <- IH.
  destruct (long_path part) eqn:Hl; simpl; [done|].
  by rewrite filter_long_short_piece.
Qed.

Lemma split_path_where (part : list Z) (seg : Z) :
  split_path part seg
  = List.filter long_path (split_where (fun x => bool_decide (x = seg)) part).
Proof. unfold split_path. by rewrite split_on_where. Qed.

Lemma split_path_multiple_from (f : Z -> bool) (p : list Z) (segs : list Z) :
  foldl (fun path_parts seg => flat_map (fun part => split_path part seg) path_parts)
        (List.filter long_path (split_where f p)) segs
  = List.filter long_path (split_where (fun x => f x || py_in x segs) p).
Proof.
  revert f. induction segs as [|seg segs IH]; intros f; simpl.
  - f_equal. apply split_where_ext. intros x. unfold py_in.
    rewrite bool_decide_eq_false_2 by apply not_elem_of_nil. by rewrite orb_false_r.
  - rewrite (flat_map_ext _ (fun part => List.filter long_path
       (split_where (fun x => bool_decide (x = seg)) part)))
      by (intros; apply split_path_where).
    rewrite filter_flat_map_split, flat_map_split_where, IH.
    f_equal. apply split_where_ext. intros x. unfold py_in.
    rewrite <- orb_assoc. f_equal.
    destruct (decide (x = seg)) as [->|Hne].
    + rewrite bool_decide_eq_true_2 by done.
      symmetry. apply bool_decide_eq_true_2, list_elem_of_here.
    + rewrite (bool_decide_eq_false_2 (x = seg)) by done. simpl.
      apply bool_decide_ext. rewrite elem_of_cons. tauto.
Qed.

(** Splitting on a non-empty list of numbers keeps exactly the pieces of two
    or more numbers that lie between those numbers. *)
Lemma split_path_multiple_where (p : list Z) (seg : Z) (segs : list Z) :
  split_path_multiple p (seg :: segs)
  = List.filter long_path (split_where (fun x => py_in x (seg :: segs)) p).
Proof.
  unfold split_path_multiple. simpl. rewrite app_nil_r, split_path_where.
  rewrite split_path_multiple_from. f_equal. apply split_where_ext.
  intros x. unfold py_in.
  destruct (decide (x = seg)) as [->|Hne].
  - rewrite bool_decide_eq_true_2 by done. simpl.
    symmetry. apply bool_decide_eq_true_2, list_elem_of_here.
  - rewrite (bool_decide_eq_false_2 (x = seg)) by done. simpl.
    apply bool_decide_ext. rewrite elem_of_cons. tauto.
Qed.

End SplitPath.

(** ** Replacing a merged path inside the registered paths *)

Section FindReplace.

Lemma starts_with_prefix (pat lst : list Z) :
  starts_with pat lst = true <-> exists rest, lst = pat ++ rest.
Proof.
  revert lst. induction pat as [|p pat IH]; intros lst; simpl.
  - split; [|done]. intros _. by exists lst.
  - destruct lst as [|x lst].
    + split; [done|]. by intros [rest ?].
    + rewrite andb_true_iff, bool_decide_eq_true, IH. split.
      * intros [-> [rest ->]]. by exists rest.
      * intros [rest [= -> ->]]. split; [done|]. by exists rest.
Qed.

Lemma find_replace_first_Some (lst pat rep l' : list Z) :
  find_replace_first lst pat rep = Some l' -> replace_step pat rep lst l'.
Proof.
  revert l'. induction lst as [|x lst IH]; intros l'; simpl; [done|].
  destruct (starts_with pat (x :: lst)) eqn:Hs.
  - apply starts_with_prefix in Hs as [rest Hrest]. intros [= <-].
    exists [], rest. rewrite Hrest. simpl. split; [done|].
    by rewrite drop_app_length.
  - destruct (find_replace_first lst pat rep) as [l''|] eqn:Hl; simpl; [|done].
    intros [= <-]. destruct (IH _ eq_refl) as (l1 & l2 & -> & ->).
    by exists (x :: l1), l2.
Qed.

Lemma find_replace_first_None (lst pat rep : list Z) :
  pat <> [] -> find_replace_first lst pat rep = None -> ~ occurs_in pat lst.
Proof.
  intros Hpat. induction lst as [|x lst IH]; simpl.
  - intros _ (l1 & l2 & H). symmetry in H.
    apply app_eq_nil in H as [_ H]. apply app_eq_nil in H as [H _]. done.
  - destruct (starts_with pat (x :: lst)) eqn:Hs; [done|].
    destruct (find_replace_first lst pat rep) eqn:Hl; simpl; [done|].
    intros _ (l1 & l2 & H). destruct l1 as [|y l1]; simpl in H.
    + assert (starts_with pat (x :: lst) = true) as Ht.
      { apply starts_with_prefix. by exists l2. }
      congruence.
    + injection H as -> ->. apply IH; [done|]. by exists l1, l2.
Qed.

Lemma find_replace_in_list_Some (fuel : nat) (lst pat rep r : list Z) :
  pat <> [] -> find_replace_in_list fuel lst pat rep = Some r ->
  replaced_all pat rep lst r.
Proof.
  intros Hpat. revert lst. induction fuel as [|fuel IH]; intros lst; simpl; [done|].
  destruct (find_replace_first lst pat rep) as [l'|] eqn:Hl.
  - intros H. destruct (IH _ H) as [Hrtc Hno]. split; [|done].
    eapply rtc_l; [|exact Hrtc]. by eapply find_replace_first_Some.
  - intros [= <-]. split; [apply rtc_refl|]. by eapply find_replace_first_None.
Qed.

Lemma listed_app (pat l1 l2 : list Z) :
  listed pat (l1 ++ l2) = (listed pat l1 + listed pat l2)%nat.
Proof. unfold listed. by rewrite List.filter_app, length_app. Qed.

Lemma listed_self (pat l : list Z) :
  (forall x, x ∈ l -> x ∈ pat) -> listed pat l = length l.
Proof.
  unfold listed. induction l as [|x l IH]; intros H; simpl; [done|].
  unfold py_in at 1. rewrite bool_decide_eq_true_2 by (apply H, list_elem_of_here).
  simpl. rewrite IH; [done|]. intros y Hy. by apply H, list_elem_of_further.
Qed.

Lemma listed_le (pat l : list Z) : (listed pat l <= length l)%nat.
Proof. unfold listed. apply List.filter_length_le. Qed.

Lemma replace_step_listed (pat l l' : list Z) (n : Z) :
  pat <> [] -> n ∉ pat -> replace_step pat [n] l l' ->
  (listed pat l' < listed pat l)%nat /\ (length l' <= length l)%nat.
Proof.
  intros Hpat Hn (l1 & l2 & -> & ->).
  rewrite !listed_app, !length_app. rewrite (listed_self pat pat) by done.
  unfold listed at 2. simpl. unfold py_in at 1.
  rewrite bool_decide_eq_false_2 by done. simpl.
  destruct pat; [done|]. simpl. lia.
Qed.

Lemma find_replace_in_list_enough (fuel : nat) (lst pat : list Z) (n : Z) :
  pat <> [] -> n ∉ pat -> (listed pat lst < fuel)%nat ->
  exists r, find_replace_in_list fuel lst pat [n] = Some r
            /\ (length r <= length lst)%nat.
Proof.
  intros Hpat Hn. revert lst. induction fuel as [|fuel IH]; intros lst Hf; [lia|].
  simpl. destruct (find_replace_first lst pat [n]) as [l'|] eqn:Hl.
  - apply find_replace_first_Some in Hl.
    destruct (replace_step_listed _ _ _ _ Hpat Hn Hl) as [H1 H2].
    destruct (IH l') as (r & Hr & Hlen); [lia|]. exists r. split; [done|lia].
  - by exists lst.
Qed.

Lemma replace_merged_enough (path merge_path : list Z) (n : Z) :
  merge_path <> [] -> n ∉ merge_path -> - n ∉ merge_path ->
  exists r, replace_merged (S (length path)) path merge_path n = Some r.
Proof.
  intros Hp Hn Hn'. unfold replace_merged.
  destruct (find_replace_in_list_enough (S (length path)) path merge_path n)
    as (r1 & -> & Hlen); [done|done|pose proof (listed_le merge_path path); lia|].
  change (exists r, find_replace_in_list (S (length path)) r1
                      (map Z.opp (rev merge_path)) [- n] = Some r).
  destruct (find_replace_in_list_enough (S (length path)) r1
              (map Z.opp (rev merge_path)) (- n)) as (r & -> & _).
  - destruct merge_path; [done|]. simpl. intros H%(f_equal length).
    rewrite length_map, length_app in H. simpl in H. lia.
  - intros H. apply list_elem_of_In, in_map_iff in H as (x & Hx & Hin).
    apply in_rev, list_elem_of_In in Hin. assert (x = n) as -> by lia. done.
  - pose proof (listed_le (map Z.opp (rev merge_path)) r1). lia.
  - by exists r.
Qed.

Lemma replace_merged_Some (fuel : nat) (path merge_path r : list Z) (n : Z) :
  merge_path <> [] -> replace_merged fuel path merge_path n = Some r ->
  rewritten_path merge_path n path r.
Proof.
  intros Hp. unfold replace_merged.
  destruct (find_replace_in_list fuel path merge_path [n]) as [r1|] eqn:H1; simpl; [|done].
  intros H2. exists r1. split.
  - by eapply find_replace_in_list_Some.
  - eapply find_replace_in_list_Some; [|exact H2].
    destruct merge_path; [done|]. simpl. intros H%(f_equal length).
    rewrite length_map, length_app in H. simpl in H. lia.
Qed.

End FindReplace.

(** ** Storing the pieces of the paths *)

Section StorePieces.

Lemma piece_name_inj (name : string) (i j : nat) :
  piece_name name i = piece_name name j -> i = j.
Proof.
  unfold piece_name. intros H.
  apply String.app_inj, String.app_inj, pretty_nat_inj in H. lia.
Qed.

Lemma store_numbered_lookup (name : string) (i : nat) (pieces : list (list Z))
    (acc : gmap string (list Z)) (name' : string) (piece : list Z) :
  store_numbered name i pieces acc !! name' = Some piece <->
    (exists j, pieces !! j = Some piece /\ name' = piece_name name (i + j))
    \/ ((forall j, (j < length pieces)%nat -> name' <> piece_name name (i + j))
        /\ acc !! name' = Some piece).
Proof.
  revert i acc. induction pieces as [|p ps IH]; intros i acc; simpl.
  - split.
    + intros H. right. split; [intros; lia|done].
    + intros [(j & Hj & _)|[_ H]]; [done|done].
  - rewrite IH. destruct (decide (name' = piece_name name i)) as [->|Hne].
    + rewrite lookup_insert_eq. split.
      * intros [(j & Hj & Heq)|[Hall [= ->]]].
        { apply piece_name_inj in Heq. lia. }
        left. exists 0%nat. split; [done|]. by rewrite Nat.add_0_r.
      * intros [(j & Hj & Heq)|[Hall Hacc]].
        { apply piece_name_inj in Heq. assert (j = 0%nat) as -> by lia.
          simpl in Hj. injection Hj as ->. right. split; [|done].
          intros j _ Heq'. apply piece_name_inj in Heq'. lia. }
        exfalso. apply (Hall 0%nat); [lia|]. by rewrite Nat.add_0_r.
    + rewrite lookup_insert_ne by done. split.
      * intros [(j & Hj & Heq)|[Hall Hacc]].
        { left. exists (S j). split; [done|]. rewrite Heq. f_equal. lia. }
        right. split; [|done]. intros j Hj. destruct j as [|j].
        { by rewrite Nat.add_0_r. }
        replace (i + S j)%nat with (S i + j)%nat by lia. apply Hall. lia.
      * intros [(j & Hj & Heq)|[Hall Hacc]].
        { destruct j as [|j].
          - rewrite Nat.add_0_r in Heq. done.
          - left. exists j. split; [done|]. rewrite Heq. f_equal. lia. }
        right. split; [|done]. intros j Hj.
        replace (S i + j)%nat with (i + S j)%nat by lia. apply Hall. lia.
Qed.

Lemma elem_of_written_names_numbered (name name' : string) (pieces : list (list Z)) :
  name' ∈ map (piece_name name) (seq 0 (length pieces))
  <-> exists j, (j < length pieces)%nat /\ name' = piece_name name j.
Proof.
  rewrite list_elem_of_In, in_map_iff. split.
  - intros (j & <- & Hj%in_seq). exists j. split; [lia|done].
  - intros (j & Hj & ->). exists j. split; [done|]. apply in_seq. lia.
Qed.

Lemma store_pieces_lookup (name : string) (pieces : list (list Z))
    (acc : gmap string (list Z)) (name' : string) (piece : list Z) :
  store_pieces name pieces acc !! name' = Some piece <->
    stored_as name pieces name' piece
    \/ ((name' ∉ written_names name pieces) /\ acc !! name' = Some piece).
Proof.
  unfold store_pieces, stored_as, written_names.
  destruct pieces as [|p [|p2 ps]].
  - split.
    + intros H. right. split; [apply not_elem_of_nil|done].
    + intros [[[H _]|[H _]]|[_ H]]; [done|simpl in H; lia|done].
  - destruct (decide (name' = name)) as [->|Hne].
    + rewrite lookup_insert_eq. split.
      * intros [= ->]. left. left. done.
      * intros [[[[= ->] _]|[H _]]|[H _]]; [done|simpl in H; lia|].
        exfalso. apply H, list_elem_of_here.
    + rewrite lookup_insert_ne by done. split.
      * intros H. right. split; [|done]. by intros ->%list_elem_of_singleton.
      * intros [[[_ H]|[H _]]|[_ H]]; [done|simpl in H; lia|done].
  - rewrite store_numbered_lookup. rewrite elem_of_written_names_numbered. split.
    + intros [(j & Hj & Heq)|[Hall Hacc]].
      * left. right. split; [simpl; lia|]. by exists j.
      * right. split; [|done]. intros (j & Hj & Heq). by apply (Hall j).
    + intros [[[H _]|[_ (j & Hj & Heq)]]|[Hn Hacc]]; [done| |].
      * left. by exists j.
      * right. split; [|done]. intros j Hj Heq. apply Hn. by exists j.
Qed.

Lemma stored_as_written (name : string) (pieces : list (list Z)) (name' : string)
    (piece : list Z) :
  stored_as name pieces name' piece ->
  name' ∈ written_names name pieces /\ piece ∈ pieces.
Proof.
  unfold stored_as, written_names. intros [[-> ->]|[Hlen (i & Hi & ->)]].
  - split; apply list_elem_of_here.
  - destruct pieces as [|p [|p2 ps]]; [simpl in Hlen; lia..|].
    split; [|by eapply list_elem_of_lookup_2].
    apply elem_of_written_names_numbered. exists i. split; [|done].
    by eapply lookup_lt_Some.
Qed.

End StorePieces.

(** ** The path registry after [merge_simple_path] *)

Section RewritePaths.

Variable merge_path : list Z.
Variable new_seg_num : Z.
Hypothesis merge_path_nonempty : merge_path <> [].

Lemma split_path_multiple_kept (r : list Z) :
  split_path_multiple r (merge_path ++ map Z.opp (rev merge_path))
  = kept_pieces merge_path r.
Proof.
  unfold kept_pieces, merged_numbers.
  destruct merge_path as [|s rest] eqn:E; [done|].
  rewrite <- app_comm_cons. apply split_path_multiple_where.
Qed.

Lemma store_pieces_other (name name' : string) (pieces : list (list Z))
    (acc : gmap string (list Z)) :
  name' ∉ written_names name pieces ->
  store_pieces name pieces acc !! name' = acc !! name'.
Proof.
  intros Hn. apply option_eq. intros piece. rewrite store_pieces_lookup. split.
  - intros [H%stored_as_written|[_ H]]; [|done]. by destruct H.
  - intros H. by right.
Qed.

Lemma rewrite_paths_sound (items : list (string * list Z))
    (acc res : gmap string (list Z)) (name' : string) (piece : list Z) :
  rewrite_paths items merge_path new_seg_num acc = Some res ->
  res !! name' = Some piece ->
  acc !! name' = Some piece
  \/ exists name path r,
       (name, path) ∈ items
       /\ replace_merged (S (length path)) path merge_path new_seg_num = Some r
       /\ stored_as name (kept_pieces merge_path r) name' piece.
Proof.
  revert acc. induction items as [|[name path] items IH]; intros acc; simpl.
  - intros [= <-] H. by left.
  - destruct (replace_merged (S (length path)) path merge_path new_seg_num)
      as [r|] eqn:Hr; simpl; [|done].
    rewrite split_path_multiple_kept. intros Hres Hlook.
    destruct (IH _ Hres Hlook) as [Hacc|(name2 & path2 & r2 & Hin & Hr2 & Hst)].
    + apply store_pieces_lookup in Hacc as [Hst|[_ Hacc]]; [|by left].
      right. exists name, path, r. split; [apply list_elem_of_here|done].
    + right. exists name2, path2, r2. split; [by apply list_elem_of_further|done].
Qed.

Lemma rewrite_paths_keeps (items : list (string * list Z))
    (acc res : gmap string (list Z)) (name' : string) :
  rewrite_paths items merge_path new_seg_num acc = Some res ->
  (forall name path r, (name, path) ∈ items ->
     replace_merged (S (length path)) path merge_path new_seg_num = Some r ->
     name' ∉ written_names name (kept_pieces merge_path r)) ->
  res !! name' = acc !! name'.
Proof.
  revert acc. induction items as [|[name path] items IH]; intros acc; simpl.
  - by intros [= <-] _.
  - destruct (replace_merged (S (length path)) path merge_path new_seg_num)
      as [r|] eqn:Hr; simpl; [|done].
    rewrite split_path_multiple_kept. intros Hres Hall.
    rewrite (IH _ Hres).
    + apply store_pieces_other. eapply Hall; [apply list_elem_of_here|done].
    + intros name2 path2 r2 Hin. apply Hall. by apply list_elem_of_further.
Qed.

Lemma rewrite_paths_complete (items : list (string * list Z))
    (acc res : gmap string (list Z)) (name : string) (path : list Z) :
  NoDup items.*1 ->
  rewrite_paths items merge_path new_seg_num acc = Some res ->
  (name, path) ∈ items ->
  exists r, replace_merged (S (length path)) path merge_path new_seg_num = Some r
    /\ forall name' piece,
         stored_as name (kept_pieces merge_path r) name' piece ->
         (forall name2 path2 r2, (name2, path2) ∈ items -> name2 <> name ->
            replace_merged (S (length path2)) path2 merge_path new_seg_num = Some r2 ->
            name' ∉ written_names name2 (kept_pieces merge_path r2)) ->
         res !! name' = Some piece.
Proof.
  revert acc. induction items as [|[name0 path0] items IH]; intros acc Hnd Hres Hin.
  - by apply not_elem_of_nil in Hin.
  - simpl in Hnd. apply NoDup_cons in Hnd as [Hfresh Hnd]. simpl in Hres.
    destruct (replace_merged (S (length path0)) path0 merge_path new_seg_num)
      as [r0|] eqn:Hr0; simpl in Hres; [|done].
    rewrite split_path_multiple_kept in Hres.
    apply elem_of_cons in Hin as [[= -> ->]|Hin].
    + exists r0. split; [done|]. intros name' piece Hst Hothers.
      rewrite (rewrite_paths_keeps _ _ _ name' Hres).
      * apply store_pieces_lookup. by left.
      * intros name2 path2 r2 Hin2 Hr2. eapply Hothers; [|  |exact Hr2].
        -- by apply list_elem_of_further.
        -- intros ->. apply Hfresh. apply list_elem_of_fmap. by exists (name0, path2).
    + destruct (IH _ Hnd Hres Hin) as (r & Hr & Hall). exists r. split; [done|].
      intros name' piece Hst Hothers. apply Hall; [done|].
      intros name2 path2 r2 Hin2. apply Hothers. by apply list_elem_of_further.
Qed.

Lemma rewrite_paths_enough (items : list (string * list Z))
    (acc : gmap string (list Z)) :
  new_seg_num ∉ merge_path -> - new_seg_num ∉ merge_path ->
  is_Some (rewrite_paths items merge_path new_seg_num acc).
Proof.
  intros H1 H2. revert acc. induction items as [|[name path] items IH]; intros acc; simpl.
  - by eexists.
  - destruct (replace_merged_enough path merge_path new_seg_num) as [r ->]; try done.
    simpl. apply IH.
Qed.

Lemma kept_pieces_spec (r piece : list Z) :
  piece ∈ kept_pieces merge_path r ->
  (2 <= length piece)%nat
  /\ (forall x, x ∈ piece -> x ∉ merged_numbers merge_path)
  /\ occurs_in piece r.
Proof.
  unfold kept_pieces. intros H%list_elem_of_In%filter_In. destruct H as [Hin Hlong].
  apply list_elem_of_In, split_where_pieces in Hin as [Hall Hocc].
  unfold long_path in Hlong. apply bool_decide_eq_true in Hlong.
  split; [lia|]. split; [|done].
  intros x Hx. rewrite Forall_forall in Hall. specialize (Hall x Hx).
  unfold py_in in Hall. by apply bool_decide_eq_false in Hall.
Qed.

End RewritePaths.

Section MergeSimplePath.

Lemma max_key_ge (m : gmap Z Segment) (k : Z) :
  is_Some (m !! k) -> exists M, max_key m = Some M /\ k <= M.
Proof.
  intros [v Hv]. unfold max_key.
  assert (k ∈ (map_to_list m).*1) as Hin.
  { apply list_elem_of_fmap. exists (k, v). split; [done|]. by apply elem_of_map_to_list. }
  induction ((map_to_list m).*1) as [|x l IH]; [by apply not_elem_of_nil in Hin|].
  simpl. apply elem_of_cons in Hin as [->|Hin].
  - destruct (foldr _ None l); eexists; (split; [done|lia]).
  - destruct (IH Hin) as (M & -> & HM). eexists. split; [done|lia].
Qed.

Lemma path_segment_objects_live (g : AssemblyGraph) (xs : list Z) (segs : list Segment) :
  path_segment_objects g xs = Ok segs ->
  forall x, x ∈ xs -> is_Some (segments g !! Z.abs x).
Proof.
  revert segs. induction xs as [|y xs IH]; intros segs; simpl.
  - intros _ x Hx. by apply not_elem_of_nil in Hx.
  - unfold getitem. destruct (segments g !! Z.abs y) as [s|] eqn:Hy; simpl; [|done].
    destruct (path_segment_objects g xs) as [ss|] eqn:Hss; simpl; [|done].
    intros _ x [->|Hx]%elem_of_cons; [by eexists|]. by eapply IH.
Qed.

Lemma merge_simple_path_segments_inv (merge_path : list Z) (g g4 : AssemblyGraph)
    (new_seg_num : Z) :
  merge_simple_path_segments merge_path g = Ok (g4, new_seg_num) ->
  merge_path <> []
  /\ get_next_available_seg_number g = Ok new_seg_num
  /\ (forall x, x ∈ merge_path -> is_Some (segments g !! Z.abs x)).
Proof.
  unfold merge_simple_path_segments.
  destruct (list_getitem merge_path 0) as [start|] eqn:H0; simpl; [|done].
  destruct (list_last merge_path) as [end_|] eqn:H1; simpl; [|done].
  destruct (path_segment_objects g merge_path) as [segs|] eqn:H2; simpl; [|done].
  destruct (if 0 <? Zsum _ then _ else _) as [mean_depth|]; simpl; [|done].
  destruct (get_next_available_seg_number g) as [n|] eqn:H3; simpl; [|done].
  destruct (get_path_sequence g merge_path) as [sq|]; simpl; [|done].
  intros [= _ <-]. split; [|split; [done|]].
  - intros ->. done.
  - by eapply path_segment_objects_live.
Qed.

Lemma fresh_number_not_listed (g : AssemblyGraph) (xs : list Z) (n : Z) :
  get_next_available_seg_number g = Ok n ->
  (forall x, x ∈ xs -> is_Some (segments g !! Z.abs x)) ->
  (n ∉ xs) /\ (- n ∉ xs).
Proof.
  unfold get_next_available_seg_number. intros Hn Hlive.
  assert (forall x, x ∈ xs -> Z.abs x < n) as Hlt.
  { intros x Hx. destruct (max_key_ge _ _ (Hlive x Hx)) as (M & HM & Hle).
    rewrite HM in Hn. injection Hn as <-. lia. }
  split; intros H%Hlt; lia.
Qed.

(** [merge_simple_path] always comes to an end: the bound on the rounds of
    [find_replace_in_list] is never reached. *)
Lemma merge_simple_path_returns (merge_path : list Z) (g : AssemblyGraph) :
  is_Some (merge_simple_path merge_path g).
Proof.
  unfold merge_simple_path.
  destruct (merge_simple_path_segments merge_path g) as [[g4 n]|e] eqn:H; [|by eexists].
  apply merge_simple_path_segments_inv in H as (Hne & Hn & Hlive).
  destruct (fresh_number_not_listed g merge_path n Hn Hlive) as [H1 H2].
  destruct (rewrite_paths_enough merge_path n Hne (map_to_list (paths g)) ∅ H1 H2)
    as [res ->].
  by eexists.
Qed.

End MergeSimplePath.

(** C7 (as amended): after [merge_simple_path] every path of the registry
    comes from an old path in which the merged path was replaced by the new
    number, and its reverse complement by the negated new number, until no
    occurrence was left, and which was then cut at every remaining number of
    the merged path; a piece that is kept has two numbers or more and none of
    the merged ones, shorter pieces are dropped whether or not the path met
    the merged path.  A path with a single kept piece keeps its own name;
    with two or more, the pieces are stored under the name followed by [_1],
    [_2], ...; with none the path is gone.  Each kept piece is found under
    that name unless a piece of another path is stored under the same
    name. *)
Theorem merge_simple_path_paths (merge_path : list Z) (g g' : AssemblyGraph) :
  merge_simple_path merge_path g = Some (Ok g') ->
  exists new_seg_num,
    get_next_available_seg_number g = Ok new_seg_num
    /\ (forall name' piece, paths g' !! name' = Some piece ->
          exists name path r,
            paths g !! name = Some path
            /\ rewritten_path merge_path new_seg_num path r
            /\ stored_as name (kept_pieces merge_path r) name' piece
            /\ (2 <= length piece)%nat
            /\ (forall x, x ∈ piece -> x ∉ merged_numbers merge_path)
            /\ occurs_in piece r)
    /\ (forall name path, paths g !! name = Some path ->
          exists r,
            rewritten_path merge_path new_seg_num path r
            /\ forall name' piece,
                 stored_as name (kept_pieces merge_path r) name' piece ->
                 (forall name2 path2 r2,
                    paths g !! name2 = Some path2 -> name2 <> name ->
                    replace_merged (S (length path2)) path2 merge_path new_seg_num
                      = Some r2 ->
                    name' ∉ written_names name2 (kept_pieces merge_path r2)) ->
                 paths g' !! name' = Some piece).
Proof.
  unfold merge_simple_path.
  destruct (merge_simple_path_segments merge_path g) as [[g4 n]|e] eqn:H; [|done].
  apply merge_simple_path_segments_inv in H as (Hne & Hn & Hlive).
  destruct (rewrite_paths (map_to_list (paths g)) merge_path n ∅) as [res|] eqn:Hres;
    simpl; [|done].
  intros [= <-]. exists n. split; [done|]. simpl. split.
  - intros name' piece Hlook.
    destruct (rewrite_paths_sound _ _ Hne _ _ _ _ _ Hres Hlook)
      as [Hempty|(name & path & r & Hin & Hr & Hst)]; [by rewrite lookup_empty in Hempty|].
    exists name, path, r. split; [by apply elem_of_map_to_list|].
    split; [by eapply replace_merged_Some|]. split; [done|].
    apply (kept_pieces_spec merge_path). by apply stored_as_written in Hst as [_ ?].
  - intros name path Hpath.
    destruct (rewrite_paths_complete _ _ Hne _ _ _ name path
                (NoDup_fst_map_to_list _) Hres) as (r & Hr & Hall).
    { by apply elem_of_map_to_list. }
    exists r. split; [by eapply replace_merged_Some|].
    intros name' piece Hst Hothers. apply Hall; [done|].
    intros name2 path2 r2 Hin. apply Hothers. by apply elem_of_map_to_list.
Qed.

Lemma merge_simple_path_paths_witness :
  exists g', merge_simple_path [1; 2; 3] merge_example = Some (Ok g')
    /\ exists name path r,
         paths merge_example !! name = Some path
         /\ rewritten_path [1; 2; 3] 10 path r
         /\ stored_as name (kept_pieces [1; 2; 3] r) "R" [9; 10].
Proof.
  eexists. split; [vm_compute; reflexivity|].
  match goal with
  | |- context [rewritten_path _ _ _ _] =>
      destruct (merge_simple_path_paths [1; 2; 3] merge_example _ eq_refl)
        as (n & Hn & Hsound & _)
  end.
  assert (n = 10) as -> by (vm_compute in Hn; congruence).
  destruct (Hsound "R" [9; 10]) as (name & path & r & H1 & H2 & H3 & _).
  - vm_compute. reflexivity.
  - exists name, path, r. by repeat split.
Defined.

(** C7, the renaming as stated: after merging [1; 2; 3] the path [Q], of
    which one piece is kept, is stored under its own name and not as
    [Q_1]. *)
Lemma merge_simple_path_keeps_name :
  exists g', merge_simple_path [1; 2; 3] merge_example = Some (Ok g')
    /\ paths merge_example !! "Q" = Some [8; 9; 1]
    /\ paths g' !! "Q" = Some [8; 9]
    /\ paths g' !! "Q_1" = None.
Proof.
  eexists. split; [vm_compute; reflexivity|].
  repeat split; vm_compute; reflexivity.
Qed.

(** ** Propagation of copy depths *)

Section Propagation.

Lemma extends_assignment_refl (g : AssemblyGraph) : extends_assignment g g.
Proof. by repeat split. Qed.

Lemma extends_assignment_trans (g1 g2 g3 : AssemblyGraph) :
  extends_assignment g1 g2 -> extends_assignment g2 g3 -> extends_assignment g1 g3.
Proof.
  intros (A1 & A2 & A3 & A4 & A5 & A6) (B1 & B2 & B3 & B4 & B5 & B6).
  repeat split; try congruence. by etrans.
Qed.

Lemma extends_assignment_insert (g : AssemblyGraph) (n : Z) (l : list Q) :
  copy_depths g !! n = None ->
  extends_assignment g (set_copy_depths g (<[n := l]> (copy_depths g))).
Proof. intros H. repeat split; simpl. by apply insert_subseteq. Qed.

Lemma assigns_new_extends (g g1 g2 : AssemblyGraph) :
  extends_assignment g g1 -> assigns_new g1 g2 -> assigns_new g g2.
Proof.
  intros (A1 & _ & _ & _ & _ & A6) (n & Hs & Hn & Hs').
  exists n. rewrite <- A1. split; [done|]. split; [|done].
  destruct (copy_depths g !! n) as [l|] eqn:Hl; [|done].
  eapply lookup_weaken in Hl; [|exact A6]. congruence.
Qed.

Lemma segments_numbered_extends (g g' : AssemblyGraph) :
  extends_assignment g g' -> segments_numbered g -> segments_numbered g'.
Proof. intros (A1 & _) H k s. rewrite A1. apply H. Qed.

Lemma has_copy_depths_extends (g g' : AssemblyGraph) (n : Z) :
  extends_assignment g g' ->
  has_copy_depths g n = true -> has_copy_depths g' n = true.
Proof.
  intros (_ & _ & _ & _ & _ & A6). unfold has_copy_depths.
  rewrite !bool_decide_eq_true. intros [l Hl]. exists l. by eapply lookup_weaken.
Qed.

Lemma filter_length_le_impl {A} (P P' : A -> bool) (l : list A) :
  (forall x, x ∈ l -> P' x = true -> P x = true) ->
  (length (List.filter P' l) <= length (List.filter P l))%nat.
Proof.
  induction l as [|x l IH]; intros H; simpl; [done|].
  assert (length (List.filter P' l) <= length (List.filter P l))%nat as Hle.
  { apply IH. intros y Hy. apply H. by apply list_elem_of_further. }
  destruct (P' x) eqn:H'.
  - rewrite (H x (list_elem_of_here _ _) H'). simpl. lia.
  - destruct (P x); simpl; lia.
Qed.

Lemma filter_length_lt_impl {A} (P P' : A -> bool) (l : list A) (y : A) :
  (forall x, x ∈ l -> P' x = true -> P x = true) ->
  y ∈ l -> P y = true -> P' y = false ->
  (length (List.filter P' l) < length (List.filter P l))%nat.
Proof.
  induction l as [|x l IH]; intros H Hy Hp Hp'; [by apply not_elem_of_nil in Hy|].
  simpl.
  assert (forall z, z ∈ l -> P' z = true -> P z = true) as Hl.
  { intros z Hz. apply H. by apply list_elem_of_further. }
  pose proof (filter_length_le_impl P P' l Hl) as Hle.
  apply elem_of_cons in Hy as [->|Hy].
  - rewrite Hp, Hp'. simpl. lia.
  - specialize (IH Hl Hy Hp Hp').
    destruct (P' x) eqn:H'.
    + rewrite (H x (list_elem_of_here _ _) H'). simpl. lia.
    + destruct (P x); simpl; lia.
Qed.

Lemma unassigned_extends (g g' : AssemblyGraph) :
  extends_assignment g g' -> (unassigned g' <= unassigned g)%nat.
Proof.
  intros Hext. unfold unassigned, get_segments_without_copies.
  destruct Hext as (A1 & Hrest). rewrite A1.
  apply filter_length_le_impl. intros s _ Hs.
  apply negb_true_iff in Hs. apply negb_true_iff.
  destruct (has_copy_depths g (number s)) eqn:Hc; [|done].
  eapply has_copy_depths_extends in Hc; [|by split]. congruence.
Qed.

Lemma unassigned_assigns_new (g g' : AssemblyGraph) :
  segments_numbered g -> extends_assignment g g' -> assigns_new g g' ->
  (unassigned g' < unassigned g)%nat.
Proof.
  intros Hwf Hext (n & [s Hs] & Hn & Hn').
  unfold unassigned, get_segments_without_copies.
  pose proof Hext as (A1 & Hrest). rewrite A1.
  apply (filter_length_lt_impl _ _ _ s).
  - intros x _ Hx. apply negb_true_iff in Hx. apply negb_true_iff.
    destruct (has_copy_depths g (number x)) eqn:Hc; [|done].
    eapply has_copy_depths_extends in Hc; [|exact Hext]. congruence.
  - apply list_elem_of_fmap. exists (n, s). split; [done|]. by apply elem_of_map_to_list.
  - rewrite (Hwf _ _ Hs). apply negb_true_iff. unfold has_copy_depths.
    apply bool_decide_eq_false. rewrite Hn. by intros [? ?].
  - rewrite (Hwf _ _ Hs). apply negb_false_iff. unfold has_copy_depths.
    by apply bool_decide_eq_true.
Qed.

Lemma round_monotone_intro (g g' : AssemblyGraph) (changed : bool) :
  segments_numbered g ->
  extends_assignment g g' ->
  (changed = false -> g' = g) ->
  (changed = true -> assigns_new g g') ->
  round_monotone g g' changed.
Proof.
  intros Hwf Hext Hf Ht. split; [done|]. split; [done|]. split; [done|].
  split; [by apply unassigned_extends|].
  intros Hc. by apply unassigned_assigns_new; [| |apply Ht].
Qed.

End Propagation.

Section MergeRound.

Lemma merge_consider_best (g : AssemblyGraph) (num : Z) (sources : list Z)
    (b b' : merge_best) :
  merge_consider g num sources b = Ok b' ->
  best_segment_num b' = best_segment_num b \/ best_segment_num b' = Some num.
Proof.
  unfold merge_consider.
  destruct (negb (bool_decide (sources = [])) && all_have_copy_depths g sources).
  - destruct (scale_copy_depths_from_source_segments g num sources)
      as [[depths error]|]; simpl; [|done].
    destruct (error_lt error (lowest_error b)); intros [= <-]; auto.
  - intros [= <-]. auto.
Qed.

Lemma merge_scan_best (g : AssemblyGraph) (segs : list Segment) (b b' : merge_best)
    (n : Z) :
  merge_scan g segs b = Ok b' ->
  best_segment_num b' = Some n ->
  best_segment_num b = Some n \/ exists s, s ∈ segs /\ number s = n.
Proof.
  revert b. induction segs as [|s segs IH]; intros b; simpl.
  - intros [= <-]. auto.
  - destruct (merge_consider g (number s) (get_exclusive_inputs g (number s)) b)
      as [b1|] eqn:H1; simpl; [|done].
    destruct (merge_consider g (number s) (get_exclusive_outputs g (number s)) b1)
      as [b2|] eqn:H2; simpl; [|done].
    intros Hscan Hbest.
    destruct (IH _ Hscan Hbest) as [Hb2|(s' & Hin & Hnum)].
    + apply merge_consider_best in H1, H2.
      destruct H2 as [H2|H2]; rewrite H2 in Hb2.
      * destruct H1 as [H1|H1]; rewrite H1 in Hb2; [by left|].
        right. exists s. split; [apply list_elem_of_here|congruence].
      * right. exists s. split; [apply list_elem_of_here|congruence].
    + right. exists s'. split; [by apply list_elem_of_further|done].
Qed.

Lemma without_copies_elem (g : AssemblyGraph) (s : Segment) :
  segments_numbered g ->
  s ∈ get_segments_without_copies g ->
  segments g !! number s = Some s /\ copy_depths g !! number s = None.
Proof.
  intros Hwf. unfold get_segments_without_copies.
  intros H%list_elem_of_In%filter_In. destruct H as [Hin Hc].
  apply list_elem_of_In, list_elem_of_fmap in Hin as ([k s'] & -> & Hin).
  apply elem_of_map_to_list in Hin. simpl in *.
  rewrite (Hwf _ _ Hin). split; [done|].
  apply negb_true_iff in Hc. unfold has_copy_depths in Hc.
  apply bool_decide_eq_false in Hc. rewrite (Hwf _ _ Hin) in Hc.
  destruct (copy_depths g !! k); [|done]. exfalso. apply Hc. by eexists.
Qed.

Lemma merge_copy_depths_round (error_margin : Q) (g g' : AssemblyGraph) (changed : bool) :
  segments_numbered g ->
  merge_copy_depths error_margin g = Ok (g', changed) ->
  round_monotone g g' changed.
Proof.
  intros Hwf. unfold merge_copy_depths.
  destruct (get_segments_without_copies g) as [|s0 segs] eqn:Hsegs.
  { intros [= <- <-]. apply round_monotone_intro; try done; apply extends_assignment_refl. }
  destruct (merge_scan g (s0 :: segs) (mkBest None [] Infinite)) as [b|] eqn:Hscan;
    simpl; [|done].
  destruct (best_segment_num b) as [n|] eqn:Hbest.
  - destruct (negb (bool_decide (n = 0))
              && error_lt (lowest_error b) (Finite error_margin)).
    + intros [= <- <-].
      destruct (merge_scan_best _ _ _ _ _ Hscan Hbest) as [H|(s & Hin & Hnum)];
        [done|].
      rewrite <- Hsegs in Hin.
      destruct (without_copies_elem g s Hwf Hin) as [Hs Hc]. rewrite Hnum in Hs, Hc.
      apply round_monotone_intro; try done.
      * by apply extends_assignment_insert.
      * intros _. exists n. split; [by eexists|]. split; [done|].
        simpl. rewrite lookup_insert_eq. by eexists.
    + intros [= <- <-]. apply round_monotone_intro; try done; apply extends_assignment_refl.
  - intros [= <- <-]. apply round_monotone_intro; try done; apply extends_assignment_refl.
Qed.

End MergeRound.

Section RedistributeRound.

#[local] Arguments best_arrangement_from : simpl never.
#[local] Arguments shuffle_into_bins : simpl never.
#[local] Arguments scale_copy_depths : simpl never.

Lemma assign_copy_depths_where_needed_spec (g g' : AssemblyGraph)
    (segment_numbers : list Z) (new_depths : list (list Q)) (error_margin : Q)
    (success success' : bool) :
  assign_copy_depths_where_needed g segment_numbers new_depths error_margin success
    = Ok (g', success') ->
  extends_assignment g g'
  /\ (success' = false -> g' = g /\ success = false)
  /\ (success' = true -> success = true \/ assigns_new g g').
Proof.
  revert g new_depths success.
  induction segment_numbers as [|num nums IH]; intros g new_depths success; simpl.
  - intros [= <- <-]. split; [apply extends_assignment_refl|]. split; auto.
  - destruct (has_copy_depths g num) eqn:Hhas; [apply IH|].
    unfold getitem. destruct (segments g !! num) as [seg|] eqn:Hseg; simpl; [|done].
    destruct new_depths as [|d ds]; [done|].
    destruct (scale_copy_depths (depth seg) d) as [[new_copy_depths error]|]; simpl;
      [|done].
    assert (copy_depths g !! num = None) as Hnone.
    { unfold has_copy_depths in Hhas. apply bool_decide_eq_false in Hhas.
      destruct (copy_depths g !! num); [|done]. exfalso. apply Hhas. by eexists. }
    destruct (error_le error (Finite error_margin)); [|apply IH].
    intros Hrest. apply IH in Hrest as (Hext & Hf & Ht).
    pose proof (extends_assignment_insert g num new_copy_depths Hnone) as Hins.
    split; [by eapply extends_assignment_trans|]. split.
    + intros Hs. by destruct (Hf Hs).
    + intros _. right. exists num. split; [by eexists|]. split; [done|].
      destruct Hext as (_ & _ & _ & _ & _ & Hsub).
      assert (copy_depths (set_copy_depths g (<[num := new_copy_depths]> (copy_depths g)))
              !! num = Some new_copy_depths) as Hl.
      { simpl. apply lookup_insert_eq. }
      eapply lookup_weaken in Hl; [|exact Hsub]. by eexists.
Qed.

Lemma redistribute_scan_spec (error_margin : Q) (g g' : AssemblyGraph)
    (segs : list Segment) (changed : bool) :
  redistribute_scan error_margin g segs = Ok (g', changed) ->
  extends_assignment g g'
  /\ (changed = false -> g' = g)
  /\ (changed = true -> assigns_new g g').
Proof.
  revert g. induction segs as [|segment segs IH]; intros g; simpl.
  - intros [= <- <-]. split; [apply extends_assignment_refl|]. split; [done|done].
  - destruct (redistribute_connections g (number segment)) as [connections|];
      [|apply IH].
    unfold getitem.
    destruct (copy_depths g !! number segment) as [cd|]; simpl; [|done].
    destruct (shuffle_into_bins cd _ _) as [|a0 arrangements]; [apply IH|].
    destruct (best_arrangement_from g connections (a0 :: arrangements) Infinite None)
      as [[lowest best]|]; simpl; [|done].
    destruct (error_lt lowest (Finite error_margin)); [|apply IH].
    destruct best as [best_arrangement|]; [|apply IH].
    destruct (assign_copy_depths_where_needed g connections best_arrangement
                error_margin false) as [[g1 success]|] eqn:Hassign; simpl; [|done].
    apply assign_copy_depths_where_needed_spec in Hassign as (Hext & Hf & Ht).
    destruct success.
    + intros [= <- <-]. split; [done|]. split; [done|].
      intros _. by destruct (Ht eq_refl).
    + destruct (Hf eq_refl) as [-> _]. apply IH.
Qed.

Lemma redistribute_copy_depths_round (error_margin : Q) (g g' : AssemblyGraph)
    (changed : bool) :
  segments_numbered g ->
  redistribute_copy_depths error_margin g = Ok (g', changed) ->
  round_monotone g g' changed.
Proof.
  intros Hwf H. apply redistribute_scan_spec in H as (Hext & Hf & Ht).
  by apply round_monotone_intro.
Qed.

End RedistributeRound.

Lemma segments_numbered_check_sound (g : AssemblyGraph) :
  segments_numbered_check g = true -> segments_numbered g.
Proof.
  unfold segments_numbered_check, segments_numbered. rewrite forallb_forall.
  intros H k s Hs. apply elem_of_map_to_list, list_elem_of_In, H in Hs.
  by apply bool_decide_eq_true in Hs.
Qed.

Section PropagationLoop.

Variable tolerance : Q.

Lemma merge_while_returns (fuel : nat) (g : AssemblyGraph) :
  segments_numbered g -> (unassigned g < fuel)%nat ->
  (exists e, merge_while fuel tolerance g = Some (Raise e))
  \/ exists g', merge_while fuel tolerance g = Some (Ok g') /\ extends_assignment g g'.
Proof.
  revert g. induction fuel as [|fuel IH]; intros g Hwf Hlt; [lia|]. simpl.
  destruct (merge_copy_depths tolerance g) as [[g1 changed]|e] eqn:Hm;
    [|left; by exists e].
  apply merge_copy_depths_round in Hm as (Hext & Hf & _ & _ & Hdec); [|done].
  destruct changed.
  - destruct (IH g1) as [[e He]|(g2 & Hg2 & Hext2)].
    + by eapply segments_numbered_extends.
    + specialize (Hdec eq_refl). lia.
    + left. by exists e.
    + right. exists g2. split; [done|]. by eapply extends_assignment_trans.
  - right. exists g1. by split.
Qed.

Lemma determine_copy_depth_part_2_returns (fuel : nat) (g : AssemblyGraph) :
  segments_numbered g -> (unassigned g < fuel)%nat ->
  (exists e, determine_copy_depth_part_2 fuel tolerance g = Some (Raise e))
  \/ exists g', determine_copy_depth_part_2 fuel tolerance g = Some (Ok g')
                /\ extends_assignment g g'.
Proof.
  revert g. induction fuel as [|fuel IH]; intros g Hwf Hlt; [lia|].
  cbn [determine_copy_depth_part_2].
  destruct (merge_while_returns (S fuel) g Hwf Hlt) as [[e ->]|(g1 & -> & Hext1)].
  { left. by exists e. }
  pose proof (segments_numbered_extends _ _ Hext1 Hwf) as Hwf1.
  pose proof (unassigned_extends _ _ Hext1) as Hle1.
  destruct (redistribute_copy_depths tolerance g1) as [[g2 changed]|e] eqn:Hr;
    [|left; by exists e].
  apply redistribute_copy_depths_round in Hr as (Hext2 & _ & _ & _ & Hdec); [|done].
  destruct changed.
  - destruct (IH g2) as [[e He]|(g3 & Hg3 & Hext3)].
    + by eapply segments_numbered_extends.
    + specialize (Hdec eq_refl). lia.
    + left. by exists e.
    + right. exists g3. split; [done|].
      eapply extends_assignment_trans; [exact Hext1|].
      by eapply extends_assignment_trans.
  - right. exists g2. split; [done|]. by eapply extends_assignment_trans.
Qed.

End PropagationLoop.

(** C9: a round of [merge_copy_depths] or of [redistribute_copy_depths] that
    reports no change leaves the graph as it was; a round that reports a
    change gives copy depths to a segment that had none; no round changes or
    removes an assignment; the number of segments without copy depths never
    grows and falls with every reported change.  Hence
    [determine_copy_depth_part_2] comes to an end, with a result or an
    exception, within as many rounds as there are segments without copy
    depths (plus one), and its result only adds assignments. *)
Theorem copy_depth_propagation_terminates (tolerance : Q) (g : AssemblyGraph) :
  segments_numbered g ->
  (forall g' changed,
     merge_copy_depths tolerance g = Ok (g', changed) -> round_monotone g g' changed)
  /\ (forall g' changed,
        redistribute_copy_depths tolerance g = Ok (g', changed) ->
        round_monotone g g' changed)
  /\ (forall fuel, (unassigned g < fuel)%nat ->
        (exists e, determine_copy_depth_part_2 fuel tolerance g = Some (Raise e))
        \/ exists g', determine_copy_depth_part_2 fuel tolerance g = Some (Ok g')
                      /\ extends_assignment g g').
Proof.
  intros Hwf. split; [|split].
  - intros g' changed. by apply merge_copy_depths_round.
  - intros g' changed. by apply redistribute_copy_depths_round.
  - intros fuel. by apply determine_copy_depth_part_2_returns.
Qed.

Lemma copy_depth_propagation_terminates_witness :
  segments_numbered triangle_seeded
  /\ exists g', determine_copy_depth_part_2 2 (2 # 10) triangle_seeded = Some (Ok g')
                /\ extends_assignment triangle_seeded g'
                /\ exists l, copy_depths g' !! 3 = Some l
                             /\ Forall2 Qeq l [10%Q; 10%Q].
Proof.
  assert (segments_numbered triangle_seeded) as Hwf.
  { apply segments_numbered_check_sound. vm_compute. reflexivity. }
  split; [exact Hwf|].
  destruct (proj2 (proj2 (copy_depth_propagation_terminates (2 # 10) triangle_seeded Hwf))
              2%nat) as [[e He]|(g' & Hg' & Hext)].
  - vm_compute. lia.
  - vm_compute in He. discriminate He.
  - exists g'. split; [exact Hg'|]. split; [exact Hext|].
    vm_compute in Hg'. injection Hg' as <-.
    eexists. split; [vm_compute; reflexivity|].
    repeat constructor; vm_compute; reflexivity.
Defined.

(** ** Paths and the removal of segments *)

Section PathsConsistent.

Lemma path_linked_check_sound (g : AssemblyGraph) (p : list Z) :
  path_linked_check g p = true -> path_linked g p.
Proof.
  unfold path_linked. induction p as [|x p IH]; intros Hc i a b Ha Hb; [done|].
  destruct p as [|y p]; [by destruct i|].
  simpl in Hc. apply andb_true_iff in Hc as [Hxy Hrest].
  destruct i as [|i]; simpl in Ha, Hb.
  - injection Ha as <-. injection Hb as <-.
    unfold has_link. by apply bool_decide_eq_true in Hxy.
  - by apply (IH Hrest i).
Qed.

Lemma paths_consistent_check_sound (g : AssemblyGraph) :
  paths_consistent_check g = true -> paths_consistent g.
Proof.
  unfold paths_consistent_check, paths_consistent. rewrite forallb_forall.
  intros H name p Hp. apply elem_of_map_to_list, list_elem_of_In, H in Hp.
  simpl in Hp. apply andb_true_iff in Hp as [H1 H2].
  split; [by apply path_linked_check_sound|].
  unfold path_live_check in H2. rewrite forallb_forall in H2.
  intros x Hx. apply list_elem_of_In, H2 in Hx. by apply bool_decide_eq_true in Hx.
Qed.

Lemma links_of_remove_nums (d : gmap Z (list Z)) (nums : list Z) (k : Z) :
  links_of (remove_nums_from_links d nums) k
  = if py_in (Z.abs k) nums then []
    else List.filter (fun x => negb (py_in (Z.abs x) nums)) (links_of d k).
Proof.
  unfold links_of, remove_nums_from_links. rewrite map_lookup_imap.
  destruct (d !! k) as [l|]; simpl.
  - destruct (py_in (Z.abs k) nums); [done|].
    by destruct (List.filter _ l).
  - by destruct (py_in (Z.abs k) nums).
Qed.

Lemma path_mentions_false (nums p : list Z) (x : Z) :
  path_mentions nums p = false -> x ∈ p -> Z.abs x ∉ nums.
Proof.
  unfold path_mentions. intros H Hx Habs.
  apply orb_false_iff in H as [H1 H2].
  destruct (Z.abs_eq_or_opp x) as [Heq|Heq]; rewrite Heq in Habs.
  - assert (existsb (fun x => py_in x p) nums = true) as Ht; [|congruence].
    apply existsb_exists. exists x. split; [by apply list_elem_of_In|].
    by apply bool_decide_eq_true.
  - assert (existsb (fun x => py_in x p) (map Z.opp nums) = true) as Ht; [|congruence].
    apply existsb_exists. exists x. split.
    + apply in_map_iff. exists (- x). split; [lia|by apply list_elem_of_In].
    + by apply bool_decide_eq_true.
Qed.

Lemma remove_segments_paths_consistent (nums : list Z) (g : AssemblyGraph) :
  paths_consistent g -> paths_consistent (remove_segments nums g).
Proof.
  intros Hg name p Hp. simpl in Hp.
  apply map_lookup_filter_Some in Hp as [Hp Hm]. simpl in Hm.
  apply negb_prop_elim, Is_true_false in Hm.
  destruct (Hg name p Hp) as [Hlinked Hlive]. split.
  - intros i x y Hx Hy. unfold has_link. simpl.
    rewrite links_of_remove_nums.
    assert (Z.abs x ∉ nums) as Hx'.
    { eapply path_mentions_false; [done|]. by eapply list_elem_of_lookup_2. }
    assert (Z.abs y ∉ nums) as Hy'.
    { eapply path_mentions_false; [done|]. by eapply list_elem_of_lookup_2. }
    unfold py_in at 1. rewrite bool_decide_eq_false_2 by done.
    apply list_elem_of_In, filter_In. split.
    + apply list_elem_of_In. by eapply Hlinked.
    + apply negb_true_iff. unfold py_in. by apply bool_decide_eq_false_2.
  - intros x Hx. simpl. destruct (Hlive x Hx) as [s Hs]. exists s.
    apply map_lookup_filter_Some. split; [done|]. simpl.
    apply negb_prop_intro. intros Hin%Is_true_true.
    apply bool_decide_eq_true in Hin.
    by eapply path_mentions_false.
Qed.

End PathsConsistent.

(** ** [apply_bridge] and the paths *)

Section ApplyBridgePaths.

Lemma for_live_list_invariant {S : Type} (P : S -> Prop) (fuel : nat)
    (cur : S -> list Z) (body : Z -> S -> result S) (i : nat) (s s' : S) :
  (forall x s1 s2, P s1 -> body x s1 = Ok s2 -> P s2) ->
  P s -> for_live_list fuel cur body i s = Some (Ok s') -> P s'.
Proof.
  intros Hbody. revert i s. induction fuel as [|fuel IH]; intros i s Hs; simpl; [done|].
  destruct (cur s !! i) as [x|]; [|by intros [= <-]].
  destruct (body x s) as [s1|] eqn:Hb; [|done].
  apply IH. by eapply Hbody.
Qed.

Lemma remove_link_paths (a b : Z) (g g' : AssemblyGraph) :
  remove_link a b g = Ok g' -> paths g' = paths g.
Proof.
  unfold remove_link.
  destruct (link_remove a b (forward_links g)) as [f1|]; simpl; [|done].
  destruct (link_remove (- b) (- a) f1) as [f2|]; simpl; [|done].
  destruct (link_remove b a (reverse_links g)) as [r1|]; simpl; [|done].
  destruct (link_remove (- a) (- b) r1) as [r2|]; simpl; [|done].
  by intros [= <-].
Qed.

Lemma remove_segment_depth_paths (seg : Z) (d : Q) (g : AssemblyGraph) :
  paths (remove_segment_depth seg d g) = paths g.
Proof.
  unfold remove_segment_depth. destruct (segments g !! Z.abs seg); [|done].
  destruct (copy_depths g !! Z.abs seg) as [[|x l]|]; done.
Qed.

Lemma remove_segment_depths_paths (d : Q) (gp : list Z) (g : AssemblyGraph) :
  paths (foldl (fun g seg => remove_segment_depth seg d g) g gp) = paths g.
Proof.
  revert g. induction gp as [|seg gp IH]; intros g; simpl; [done|].
  by rewrite IH, remove_segment_depth_paths.
Qed.

Lemma apply_bridge_paths (b : Bridge) (start end_ : Z) (sequence : string)
    (gp : list Z) (g g' : AssemblyGraph) (n : Z) :
  apply_bridge b start end_ sequence gp g = Some (Ok (g', n)) ->
  paths g' = paths g.
Proof.
  unfold apply_bridge.
  destruct (remove_forward_links_of start g) as [[g1|]|] eqn:H1; try done.
  destruct (remove_reverse_links_of end_ g1) as [[g2|]|] eqn:H2; try done.
  assert (paths g1 = paths g) as E1.
  { unfold remove_forward_links_of in H1.
    destruct (forward_links g !! start); [|by injection H1 as <-].
    apply (for_live_list_invariant (fun s => paths s = paths g)) in H1; [done| |done].
    intros x s1 s2 Hs1 Hb. apply remove_link_paths in Hb. congruence. }
  assert (paths g2 = paths g1) as E2.
  { unfold remove_reverse_links_of in H2.
    destruct (reverse_links g1 !! end_); [|by injection H2 as <-].
    apply (for_live_list_invariant (fun s => paths s = paths g1)) in H2; [done| |done].
    intros x s1 s2 Hs1 Hb. apply remove_link_paths in Hb. congruence. }
  unfold apply_bridge_after_unlinking.
  destruct (get_next_available_seg_number g2) as [m|]; simpl; [|done].
  intros [= <- <-]. rewrite remove_segment_depths_paths. simpl. congruence.
Qed.

End ApplyBridgePaths.

(** X30: [remove_segments] keeps the registered paths consistent: if every
    path ran over links between live segments before, so does every path
    that is left afterwards (the paths that mention a removed segment are
    deleted).  [apply_bridge] does not look at the registry: the paths after
    it are the paths before it, whatever links it deleted. *)
Theorem paths_after_remove_segments_and_apply_bridge (g : AssemblyGraph) :
  (forall nums, paths_consistent g -> paths_consistent (remove_segments nums g))
  /\ (forall b start end_ sequence gp g' n,
        apply_bridge b start end_ sequence gp g = Some (Ok (g', n)) ->
        paths g' = paths g).
Proof.
  split.
  - intros nums. apply remove_segments_paths_consistent.
  - intros b start end_ sequence gp g' n. apply apply_bridge_paths.
Qed.

Lemma paths_after_remove_segments_and_apply_bridge_witness :
  paths_consistent (remove_segments [2] scenario5)
  /\ exists g', apply_scenario5 = Some (Ok (g', 5)) /\ paths g' = paths scenario5.
Proof.
  split.
  - apply (proj1 (paths_after_remove_segments_and_apply_bridge scenario5)).
    apply paths_consistent_check_sound. vm_compute. reflexivity.
  - eexists. split; [vm_compute; reflexivity|].
    apply (proj2 (paths_after_remove_segments_and_apply_bridge scenario5)
             scenario5_bridge 1 4 "ACGTACGTACGTACGT" [2; 3] _ 5).
    vm_compute. reflexivity.
Defined.

(** C3: the application of a bridge does not keep the paths consistent.
    In scenario 5 with the registered path [1; 4] over the bypass, all paths
    run over links between live segments before; [apply_bridge] deletes the
    link [1 -> 4] and leaves the path [1; 4] in the registry, so that
    afterwards a registered path runs over a link that is not there. *)
Theorem apply_bridge_breaks_path :
  paths_consistent scenario5_bypass
  /\ exists g',
       apply_bridge scenario5_bridge 1 4 "ACGTACGTACGTACGT" [2; 3] scenario5_bypass
         = Some (Ok (g', 5))
       /\ paths g' !! "NODE_2" = Some [1; 4]
       /\ ~ has_link g' 1 4
       /\ ~ paths_consistent g'.
Proof.
  split; [apply paths_consistent_check_sound; vm_compute; reflexivity|].
  eexists. split; [vm_compute; reflexivity|].
  assert (forall g, links_of (forward_links g) 1 = [5] -> ~ has_link g 1 4) as Hno.
  { intros g Hg. unfold has_link. rewrite Hg.
    intros H%list_elem_of_singleton. discriminate H. }
  split; [vm_compute; reflexivity|]. split.
  - apply Hno. vm_compute. reflexivity.
  - intros Hc. destruct (Hc "NODE_2" [1; 4]) as [Hl _]; [vm_compute; reflexivity|].
    eapply Hno; [|apply (Hl 0%nat 1 4); reflexivity]. vm_compute. reflexivity.
Qed.

(** ** Junction repair and strand symmetry *)

(** C2: the junction repair of a hairpin junction (1 and 2 leading into
    [-1] and [-2]) leaves tables that are neither strand symmetric nor
    mirrored: the loop over the ending segments overwrites what the loop
    over the starting segments wrote for the same segments, so that
    afterwards [-3 -> -1] is a forward link whose twin [1 -> 3] is missing,
    while the reverse table still lists 1 before 3. *)
Theorem repair_multi_way_junctions_breaks_symmetry :
  strand_symmetric hairpin_junction
  /\ mirrored hairpin_junction
  /\ exists g',
       repair_multi_way_junctions 3 hairpin_junction = Some (Ok g')
       /\ links_of (forward_links g') 1 = [-3]
       /\ links_of (forward_links g') (-3) = [-1; -2]
       /\ links_of (reverse_links g') 3 = [1; 2]
       /\ has_link g' (-3) (-1)
       /\ ~ has_link g' 1 3
       /\ ~ strand_symmetric g'
       /\ ~ mirrored g'.
Proof.
  split; [apply strand_symmetric_check_sound; vm_compute; reflexivity|].
  split; [apply mirrored_check_sound; vm_compute; reflexivity|].
  eexists. split; [vm_compute; reflexivity|].
  split; [vm_compute; reflexivity|].
  split; [vm_compute; reflexivity|].
  split; [vm_compute; reflexivity|].
  assert (forall g, links_of (forward_links g) (-3) = [-1; -2] -> has_link g (-3) (-1)) as Hyes.
  { intros g Hg. unfold has_link. rewrite Hg. apply list_elem_of_here. }
  assert (forall g, links_of (forward_links g) 1 = [-3] -> ~ has_link g 1 3) as Hno.
  { intros g Hg. unfold has_link. rewrite Hg.
    intros H%list_elem_of_singleton. discriminate H. }
  split; [apply Hyes; vm_compute; reflexivity|].
  split; [apply Hno; vm_compute; reflexivity|].
  split.
  - intros Hs. specialize (Hs (-3) (-1)). simpl in Hs.
    assert (count_in 3 [-3] = 1%nat) as Hc; [|vm_compute in Hc; discriminate Hc].
    etransitivity; [|apply Hs, Hyes; vm_compute; reflexivity].
    vm_compute. reflexivity.
  - intros Hm. eapply Hno; [|apply (Hm 1 3)]; [vm_compute; reflexivity|].
    vm_compute. apply list_elem_of_here.
Qed.

(** * Further properties of the link tables *)

Section LinkCounts.

Lemma count_in_elem {A} `{EqDecision A} (x : A) (l : list A) :
  x ∈ l <-> (0 < count_in x l)%nat.
Proof.
  split; [|apply count_in_pos].
  induction l as [|y l IH]; intros Hx; [by apply not_elem_of_nil in Hx|].
  rewrite count_in_cons. apply elem_of_cons in Hx as [->|Hx].
  - rewrite decide_True by done. lia.
  - specialize (IH Hx). lia.
Qed.

Lemma link_count_pos (d : gmap Z (list Z)) (a b : Z) :
  (0 < link_count d a b)%nat <-> (a, b) ∈ all_links d.
Proof. unfold link_count. by rewrite <- count_in_elem, elem_of_all_links. Qed.

Lemma link_tables_ok_check_sound (g : AssemblyGraph) :
  link_tables_ok_check g = true -> link_tables_ok g.
Proof.
  unfold link_tables_ok_check. rewrite forallb_forall. intros H a b.
  destruct (decide (link_count (forward_links g) a b = 0
                    /\ link_count (forward_links g) (- b) (- a) = 0
                    /\ link_count (reverse_links g) b a = 0)%nat) as [(-> & -> & ->)|Hne].
  { repeat split; lia. }
  assert (In (a, b)
    (all_links (forward_links g)
     ++ map (fun ab => (- ab.2, - ab.1)) (all_links (forward_links g))
     ++ map (fun ba => (ba.2, ba.1)) (all_links (reverse_links g)))) as Hin.
  { rewrite !in_app_iff, !in_map_iff.
    destruct (link_count (forward_links g) a b) eqn:E1.
    - destruct (link_count (forward_links g) (- b) (- a)) eqn:E2.
      + destruct (link_count (reverse_links g) b a) eqn:E3; [by destruct Hne|].
        right. right. exists (b, a). split; [done|].
        apply list_elem_of_In, link_count_pos. lia.
      + right. left. exists (- b, - a). simpl. rewrite !Z.opp_involutive.
        split; [done|]. apply list_elem_of_In, link_count_pos. lia.
    - left. apply list_elem_of_In, link_count_pos. lia. }
  apply H in Hin. unfold link_tables_ok_at in Hin. simpl in Hin.
  apply andb_true_iff in Hin as [Hin H3]. apply andb_true_iff in Hin as [H1 H2].
  apply Nat.leb_le in H1. apply Nat.eqb_eq in H2, H3. done.
Qed.

Lemma link_tables_ok_symmetric (g : AssemblyGraph) :
  link_tables_ok g -> strand_symmetric g /\ mirrored g.
Proof.
  intros H. split.
  - intros a b Hab. unfold has_link in Hab. apply count_in_elem in Hab.
    destruct (H a b) as (H1 & H2 & _). unfold link_count in *. lia.
  - intros a b. destruct (H a b) as (_ & _ & H3). unfold link_count in H3.
    rewrite !count_in_elem. lia.
Qed.

Lemma links_of_link_add (k v k' : Z) (d : gmap Z (list Z)) :
  links_of (link_add k v d) k'
  = if decide (k' = k)
    then (if py_in v (links_of d k) then links_of d k else links_of d k ++ [v])
    else links_of d k'.
Proof.
  unfold link_add. fold (links_of d k).
  destruct (py_in v (links_of d k)); case_decide as Hk; subst;
    by rewrite ?links_of_insert_eq, ?links_of_insert_ne.
Qed.

Lemma link_add_count (k v k' x : Z) (d : gmap Z (list Z)) :
  link_count (link_add k v d) k' x
  = if decide (k' = k /\ x = v) then Nat.max 1 (link_count d k v)
    else link_count d k' x.
Proof.
  unfold link_count. rewrite links_of_link_add.
  destruct (decide (k' = k)) as [->|Hk].
  - destruct (decide (x = v)) as [->|Hxv].
    + rewrite (decide_True (P := k = k /\ v = v)) by done.
      unfold py_in. case_bool_decide as Hin.
      * apply count_in_elem in Hin. lia.
      * rewrite count_in_app, count_in_cons, count_in_nil.
        rewrite (decide_True (P := v = v)) by done.
        rewrite (count_in_zero v) by done. done.
    + rewrite (decide_False (P := k = k /\ x = v)) by (by intros [_ ?]).
      unfold py_in. case_bool_decide as Hin; [done|].
      rewrite count_in_app, count_in_cons, count_in_nil.
      rewrite (decide_False (P := v = x)) by congruence. lia.
  - rewrite decide_False; [done|]. by intros [? _].
Qed.

Lemma list_remove_count (v x : Z) (l l' : list Z) :
  list_remove v l = Ok l' ->
  count_in x l' = (if decide (x = v) then pred (count_in x l) else count_in x l)
  /\ v ∈ l.
Proof.
  revert l'. induction l as [|y l IH]; intros l'; simpl; [done|].
  destruct (decide (y = v)) as [->|Hy].
  - intros [= <-]. split; [|apply list_elem_of_here].
    rewrite count_in_cons. destruct (decide (x = v)) as [->|Hx].
    + rewrite (decide_True (P := v = v)) by done. done.
    + rewrite (decide_False (P := v = x)) by congruence. done.
  - destruct (list_remove v l) as [l''|] eqn:Hl; simpl; [|done].
    intros [= <-]. destruct (IH _ eq_refl) as [Hc Hin].
    split; [|by apply list_elem_of_further].
    rewrite !count_in_cons, Hc. destruct (decide (x = v)) as [->|Hx]; [|done].
    rewrite (decide_False (P := y = v)) by done. done.
Qed.

Lemma link_remove_count (k v : Z) (d d' : gmap Z (list Z)) :
  link_remove k v d = Ok d' ->
  (forall k' x, link_count d' k' x
     = if decide (k' = k /\ x = v) then pred (link_count d k v)
       else link_count d k' x)
  /\ (d !! k = None \/ (0 < link_count d k v)%nat).
Proof.
  unfold link_remove, link_count.
  destruct (d !! k) as [l|] eqn:Hl.
  - destruct (list_remove v l) as [l'|] eqn:Hrm; simpl; [|done].
    intros [= <-]. apply list_remove_count with (x := v) in Hrm as Hv.
    destruct Hv as [_ Hin].
    assert (links_of d k = l) as Hk by (unfold links_of; by rewrite Hl).
    split; [|right; rewrite Hk; by apply count_in_elem].
    intros k' x. destruct (decide (k' = k)) as [->|Hne].
    + rewrite links_of_insert_eq, Hk.
      destruct (list_remove_count _ x _ _ Hrm) as [-> _].
      case_decide as Hx; subst.
      * by rewrite decide_True.
      * rewrite decide_False; [done|]. by intros [_ ?].
    + rewrite links_of_insert_ne by done.
      rewrite decide_False; [done|]. by intros [? _].
  - intros [= <-]. split; [|by left].
    intros k' x. case_decide as Hx; [|done]. destruct Hx as [-> ->].
    unfold links_of. rewrite Hl. done.
Qed.

Lemma link_remove_Raise (k v : Z) (d : gmap Z (list Z)) :
  is_Some (d !! k) -> link_count d k v = 0%nat ->
  link_remove k v d = Raise ValueError.
Proof.
  intros [l Hl] Hc. eapply link_remove_absent; [done|].
  intros Hin. unfold link_count, links_of in Hc. rewrite Hl in Hc. simpl in Hc.
  apply count_in_elem in Hin. lia.
Qed.

Lemma count_in_filter {A} `{EqDecision A} (f : A -> bool) (x : A) (l : list A) :
  count_in x (List.filter f l) = if f x then count_in x l else 0%nat.
Proof.
  induction l as [|y l IH]; simpl; [by destruct (f x)|].
  destruct (f y) eqn:Hy.
  - rewrite !count_in_cons, IH. destruct (f x) eqn:Hx; [done|].
    rewrite decide_False; [done|]. intros ->. congruence.
  - rewrite IH, count_in_cons. destruct (f x) eqn:Hx; [|done].
    rewrite decide_False; [done|]. intros ->. congruence.
Qed.

Lemma remove_nums_count (d : gmap Z (list Z)) (nums : list Z) (k x : Z) :
  link_count (remove_nums_from_links d nums) k x
  = if py_in (Z.abs k) nums || py_in (Z.abs x) nums then 0%nat
    else link_count d k x.
Proof.
  unfold link_count. rewrite links_of_remove_nums.
  destruct (py_in (Z.abs k) nums); simpl; [done|].
  rewrite count_in_filter. by destruct (py_in (Z.abs x) nums).
Qed.

End LinkCounts.

Section LinkTableInvariant.

Lemma link_add_keeps_member (k v k' x : Z) (d : gmap Z (list Z)) :
  x ∈ links_of d k' -> x ∈ links_of (link_add k v d) k'.
Proof.
  rewrite !count_in_elem. fold (link_count d k' x).
  fold (link_count (link_add k v d) k' x). rewrite link_add_count.
  case_decide as H; [|done]. destruct H as [-> ->]. lia.
Qed.

Lemma link_add_member (k v : Z) (d : gmap Z (list Z)) :
  v ∈ links_of (link_add k v d) k.
Proof.
  rewrite count_in_elem. fold (link_count (link_add k v d) k v).
  rewrite link_add_count, decide_True by done. lia.
Qed.

Lemma link_add_present (k v k' : Z) (d : gmap Z (list Z)) :
  v ∈ links_of d k -> links_of (link_add k v d) k' = links_of d k'.
Proof.
  intros Hin. rewrite links_of_link_add. case_decide as Hk; [|done]. subst k'.
  unfold py_in. by rewrite bool_decide_eq_true_2.
Qed.

Lemma link_add_same_links (k v k' : Z) (d d' : gmap Z (list Z)) :
  (forall j, links_of d j = links_of d' j) ->
  links_of (link_add k v d) k' = links_of (link_add k v d') k'.
Proof. intros H. rewrite !links_of_link_add. by rewrite !H. Qed.

Lemma add_link_counts (start end_ : Z) (g : AssemblyGraph) (a b : Z) :
  link_count (forward_links (add_link start end_ g)) a b
  = (if decide ((a = start /\ b = end_) \/ (a = - end_ /\ b = - start))
     then Nat.max 1 (link_count (forward_links g) a b)
     else link_count (forward_links g) a b)
  /\ link_count (reverse_links (add_link start end_ g)) b a
     = (if decide ((a = start /\ b = end_) \/ (a = - end_ /\ b = - start))
        then Nat.max 1 (link_count (reverse_links g) b a)
        else link_count (reverse_links g) b a).
Proof.
  unfold add_link. simpl. rewrite !link_add_count.
  split; repeat case_decide; try lia; try tauto;
    repeat match goal with
           | H : _ /\ _ |- _ => destruct H as [? ?]
           end; subst; rewrite ?Z.opp_involutive in *; try lia.
Qed.

Lemma add_link_tables_ok (start end_ : Z) (g : AssemblyGraph) :
  link_tables_ok g -> link_tables_ok (add_link start end_ g).
Proof.
  intros Hg a b.
  destruct (add_link_counts start end_ g a b) as [-> ->].
  destruct (add_link_counts start end_ g (- b) (- a)) as [-> _].
  destruct (Hg a b) as (H1 & H2 & H3). rewrite H2, H3.
  destruct (decide ((a = start /\ b = end_) \/ (a = - end_ /\ b = - start))) as [H|H].
  - rewrite decide_True by (destruct H as [[-> ->]|[-> ->]]; [right|left]; lia).
    lia.
  - rewrite decide_False; [lia|].
    intros [[? ?]|[? ?]]; apply H; [right|left]; lia.
Qed.

Lemma remove_link_counts (a b : Z) (g g' : AssemblyGraph) :
  link_tables_ok g -> remove_link a b g = Ok g' ->
  forall x y,
    link_count (forward_links g') x y
    = (if decide ((x = a /\ y = b) \/ (x = - b /\ y = - a)) then 0%nat
       else link_count (forward_links g) x y)
    /\ link_count (reverse_links g') y x
       = (if decide ((x = a /\ y = b) \/ (x = - b /\ y = - a)) then 0%nat
          else link_count (reverse_links g) y x).
Proof.
  intros Hg. unfold remove_link.
  destruct (link_remove a b (forward_links g)) as [f1|] eqn:E1; simpl; [|done].
  destruct (link_remove (- b) (- a) f1) as [f2|] eqn:E2; simpl; [|done].
  destruct (link_remove b a (reverse_links g)) as [r1|] eqn:E3; simpl; [|done].
  destruct (link_remove (- a) (- b) r1) as [r2|] eqn:E4; simpl; [|done].
  intros [= <-] x y. simpl.
  apply link_remove_count in E1 as [C1 _]. apply link_remove_count in E2 as [C2 _].
  apply link_remove_count in E3 as [C3 _]. apply link_remove_count in E4 as [C4 _].
  rewrite C2, C4, !C1, !C3.
  destruct (Hg a b) as (Ha1 & Ha2 & Ha3). destruct (Hg x y) as (Hx1 & Hx2 & Hx3).
  destruct (Hg (- b) (- a)) as (Hb1 & Hb2 & Hb3).
  split; repeat case_decide; try lia; try tauto;
    repeat match goal with
           | H : _ /\ _ |- _ => destruct H as [? ?]
           end; subst; rewrite ?Z.opp_involutive in *; try lia.
Qed.

Lemma remove_link_tables_ok (a b : Z) (g g' : AssemblyGraph) :
  link_tables_ok g -> remove_link a b g = Ok g' -> link_tables_ok g'.
Proof.
  intros Hg Hrm x y.
  destruct (remove_link_counts a b g g' Hg Hrm x y) as [-> ->].
  destruct (remove_link_counts a b g g' Hg Hrm (- y) (- x)) as [-> _].
  destruct (Hg x y) as (H1 & H2 & H3). rewrite H2, H3.
  destruct (decide ((x = a /\ y = b) \/ (x = - b /\ y = - a))) as [H|H].
  - rewrite decide_True by (destruct H as [[-> ->]|[-> ->]]; [right|left]; lia).
    lia.
  - rewrite decide_False; [lia|].
    intros [[? ?]|[? ?]]; apply H; [right|left]; lia.
Qed.

Lemma link_remove_keys (k v k' : Z) (d d' : gmap Z (list Z)) :
  link_remove k v d = Ok d' -> is_Some (d !! k') -> is_Some (d' !! k').
Proof.
  unfold link_remove. destruct (d !! k) as [l|] eqn:Hl; [|by intros [= <-]].
  destruct (list_remove v l) as [l'|]; simpl; [|done].
  intros [= <-] Hk. destruct (decide (k = k')) as [->|Hne].
  - rewrite lookup_insert_eq. by eexists.
  - by rewrite lookup_insert_ne.
Qed.

Lemma remove_segments_tables_ok (nums : list Z) (g : AssemblyGraph) :
  link_tables_ok g -> link_tables_ok (remove_segments nums g).
Proof.
  intros Hg a b. simpl. rewrite !remove_nums_count, !Z.abs_opp.
  destruct (Hg a b) as (H1 & H2 & H3). rewrite H2, H3.
  rewrite (orb_comm (py_in (Z.abs b) nums)).
  destruct (py_in (Z.abs a) nums || py_in (Z.abs b) nums); lia.
Qed.

End LinkTableInvariant.

Section LinkTableOperations.

Lemma has_link_count (g : AssemblyGraph) (a b : Z) :
  has_link g a b <-> (0 < link_count (forward_links g) a b)%nat.
Proof. unfold has_link, link_count. apply count_in_elem. Qed.

Lemma link_add_id (k v : Z) (d : gmap Z (list Z)) :
  (0 < link_count d k v)%nat -> link_add k v d = d.
Proof.
  unfold link_count. rewrite <- count_in_elem.
  intros (l & Hl & Hv & Heq)%links_of_elem.
  unfold link_add. rewrite Hl. simpl. unfold py_in.
  rewrite bool_decide_eq_true_2 by done. by apply insert_id.
Qed.

Lemma set_links_id (g : AssemblyGraph) :
  set_links g (forward_links g) (reverse_links g) = g.
Proof. by destruct g. Qed.

(** X1: [add_link] keeps the link tables well formed (no link listed
    twice, every link with its twin, the reverse table the mirror of the
    forward one); afterwards the links are those of before together with
    [start -> end_] and its twin [-end_ -> -start]. *)
Theorem add_link_keeps_link_tables (start end_ : Z) (g : AssemblyGraph) :
  link_tables_ok g ->
  link_tables_ok (add_link start end_ g)
  /\ forall a b, has_link (add_link start end_ g) a b
       <-> has_link g a b \/ (a = start /\ b = end_) \/ (a = - end_ /\ b = - start).
Proof.
  intros Hg. split; [by apply add_link_tables_ok|].
  intros a b. rewrite !has_link_count.
  destruct (add_link_counts start end_ g a b) as [-> _].
  case_decide as H; [|intuition lia]. split; [tauto|lia].
Qed.

Lemma add_link_keeps_link_tables_witness :
  link_tables_ok scenario5
  /\ link_tables_ok (add_link 4 1 scenario5)
  /\ forall a b, has_link (add_link 4 1 scenario5) a b
       <-> has_link scenario5 a b \/ (a = 4 /\ b = 1) \/ (a = - 1 /\ b = - 4).
Proof.
  assert (link_tables_ok scenario5) as H
    by (apply link_tables_ok_check_sound; vm_compute; reflexivity).
  split; [exact H|]. exact (add_link_keeps_link_tables 4 1 scenario5 H).
Defined.

(** X2: adding a link a second time changes nothing, and in a graph with
    well-formed link tables adding a link that is already there leaves the
    graph as it was. *)
Theorem add_link_existing_is_noop (start end_ : Z) (g : AssemblyGraph) :
  add_link start end_ (add_link start end_ g) = add_link start end_ g
  /\ (link_tables_ok g -> has_link g start end_ -> add_link start end_ g = g).
Proof.
  assert (forall k v d, (0 < link_count (link_add k v d) k v)%nat) as Hnew.
  { intros k v d. rewrite link_add_count, decide_True by done. lia. }
  assert (forall k v k' v' d, (0 < link_count d k' v')%nat ->
            (0 < link_count (link_add k v d) k' v')%nat) as Hkeep.
  { intros k v k' v' d H. rewrite link_add_count. case_decide as E; [lia|done]. }
  split.
  - unfold add_link at 1 3. simpl.
    rewrite (link_add_id start end_) by (apply Hkeep, Hnew).
    rewrite (link_add_id (- end_) (- start)) by apply Hnew.
    rewrite (link_add_id end_ start) by (apply Hkeep, Hnew).
    rewrite (link_add_id (- start) (- end_)) by apply Hnew.
    done.
  - intros Hg Hl. apply has_link_count in Hl.
    destruct (Hg start end_) as (_ & H2 & H3).
    destruct (Hg (- end_) (- start)) as (_ & _ & H4).
    unfold add_link.
    rewrite (link_add_id start end_) by done.
    rewrite (link_add_id (- end_) (- start)) by lia.
    rewrite (link_add_id end_ start) by lia.
    rewrite (link_add_id (- start) (- end_)) by lia.
    apply set_links_id.
Qed.

Lemma add_link_existing_is_noop_witness :
  add_link 1 2 (add_link 1 2 scenario5) = add_link 1 2 scenario5
  /\ link_tables_ok scenario5 /\ has_link scenario5 1 2
  /\ add_link 1 2 scenario5 = scenario5.
Proof.
  assert (link_tables_ok scenario5) as H
    by (apply link_tables_ok_check_sound; vm_compute; reflexivity).
  assert (has_link scenario5 1 2) as Hl
    by (apply has_link_count; vm_compute; lia).
  destruct (add_link_existing_is_noop 1 2 scenario5) as [H1 H2].
  split; [exact H1|]. split; [exact H|]. split; [exact Hl|]. exact (H2 H Hl).
Defined.

(** X3: when [remove_link] returns on a graph with well-formed link
    tables, the tables are still well formed, the link and its twin are
    gone and every other link is kept. *)
Theorem remove_link_keeps_link_tables (a b : Z) (g g' : AssemblyGraph) :
  link_tables_ok g -> remove_link a b g = Ok g' ->
  link_tables_ok g'
  /\ forall x y, has_link g' x y
       <-> has_link g x y /\ ~ (x = a /\ y = b) /\ ~ (x = - b /\ y = - a).
Proof.
  intros Hg Hrm. split; [by eapply remove_link_tables_ok|].
  intros x y. rewrite !has_link_count.
  destruct (remove_link_counts a b g g' Hg Hrm x y) as [-> _].
  case_decide as H; [|intuition lia]. split; [lia|tauto].
Qed.

Lemma remove_link_keeps_link_tables_witness :
  exists g', link_tables_ok scenario5 /\ remove_link 1 2 scenario5 = Ok g'
    /\ link_tables_ok g'
    /\ forall x y, has_link g' x y
         <-> has_link scenario5 x y /\ ~ (x = 1 /\ y = 2) /\ ~ (x = - 2 /\ y = - 1).
Proof.
  assert (link_tables_ok scenario5) as H
    by (apply link_tables_ok_check_sound; vm_compute; reflexivity).
  destruct (remove_link 1 2 scenario5) as [g'|e] eqn:E; [|vm_compute in E; discriminate E].
  exists g'. split; [exact H|]. split; [reflexivity|].
  exact (remove_link_keeps_link_tables 1 2 scenario5 g' H E).
Defined.

(** X4: in a graph with well-formed link tables a link from a strand to
    its own reverse complement, [a -> -a], is its own twin, and
    [remove_link] cannot take it out: the second removal looks for the entry
    that the first one has just removed and raises [ValueError]. *)
Theorem remove_link_hairpin_fails (a : Z) (g : AssemblyGraph) :
  link_tables_ok g -> has_link g a (- a) ->
  remove_link a (- a) g = Raise ValueError.
Proof.
  intros Hg Hl. apply has_link_count in Hl as Hc.
  destruct (Hg a (- a)) as (H1 & _ & _).
  unfold remove_link. rewrite Z.opp_involutive.
  destruct (link_remove a (- a) (forward_links g)) as [f1|e] eqn:E1.
  - simpl. apply link_remove_count in E1 as HC. destruct HC as [C1 _].
    rewrite (link_remove_Raise a (- a) f1); [done| |].
    + eapply link_remove_keys; [exact E1|].
      destruct (links_of_elem _ _ _ Hl) as (l & -> & _). by eexists.
    + rewrite C1, decide_True by done. lia.
  - exfalso. destruct (link_remove_present a (- a) (forward_links g) Hl) as (l' & E & _).
    rewrite E in E1. discriminate E1.
Qed.

Lemma remove_link_hairpin_fails_witness :
  link_tables_ok (add_link 1 (- 1) scenario5)
  /\ has_link (add_link 1 (- 1) scenario5) 1 (- 1)
  /\ remove_link 1 (- 1) (add_link 1 (- 1) scenario5) = Raise ValueError.
Proof.
  assert (link_tables_ok (add_link 1 (- 1) scenario5)) as H
    by (apply link_tables_ok_check_sound; vm_compute; reflexivity).
  assert (has_link (add_link 1 (- 1) scenario5) 1 (- 1)) as Hl
    by (apply has_link_count; vm_compute; lia).
  split; [exact H|]. split; [exact Hl|].
  exact (remove_link_hairpin_fails 1 (add_link 1 (- 1) scenario5) H Hl).
Defined.

Lemma lookup_foldl_delete {V} (nums : list Z) (m : gmap Z V) (n : Z) :
  foldl (fun c num => delete num c) m nums !! n
  = if py_in n nums then None else m !! n.
Proof.
  revert m. induction nums as [|x nums IH]; intros m; simpl; [done|].
  rewrite IH. unfold py_in.
  destruct (decide (n = x)) as [->|Hne].
  - rewrite lookup_delete_eq. rewrite (bool_decide_eq_true_2 (x ∈ x :: nums)) by left.
    by destruct (bool_decide (x ∈ nums)).
  - rewrite lookup_delete_ne by done.
    destruct (decide (n ∈ nums)) as [Hin|Hout].
    + rewrite !bool_decide_eq_true_2; [done|by right|done].
    + rewrite !bool_decide_eq_false_2; [done| |done].
      intros [?|?]%elem_of_cons; done.
Qed.

(** X5: [remove_segments] keeps the link tables well formed; it keeps
    exactly the links between segments that are not listed, takes the
    listed segments and their copy depths out and leaves the others as they
    were, and leaves no key with an empty list in the link tables. *)
Theorem remove_segments_keeps_link_tables (nums : list Z) (g : AssemblyGraph) :
  link_tables_ok g ->
  link_tables_ok (remove_segments nums g)
  /\ (forall a b, has_link (remove_segments nums g) a b
        <-> has_link g a b /\ (Z.abs a ∉ nums) /\ (Z.abs b ∉ nums))
  /\ (forall n, segments (remove_segments nums g) !! n
        = if py_in n nums then None else segments g !! n)
  /\ (forall n, copy_depths (remove_segments nums g) !! n
        = if py_in n nums then None else copy_depths g !! n)
  /\ (forall k, forward_links (remove_segments nums g) !! k <> Some [])
  /\ (forall k, reverse_links (remove_segments nums g) !! k <> Some []).
Proof.
  intros Hg. split; [by apply remove_segments_tables_ok|].
  assert (forall d k, remove_nums_from_links d nums !! k <> Some []) as Hne.
  { intros d k. unfold remove_nums_from_links. rewrite map_lookup_imap.
    destruct (d !! k) as [l|]; simpl; [|done].
    destruct (py_in (Z.abs k) nums); [done|].
    destruct (List.filter _ l); done. }
  split; [|split; [|split; [|split]]].
  - intros a b. rewrite !has_link_count. simpl. rewrite remove_nums_count.
    unfold py_in.
    destruct (decide (Z.abs a ∈ nums)) as [Ha|Ha];
      [rewrite (bool_decide_eq_true_2 _ Ha)|rewrite (bool_decide_eq_false_2 _ Ha)];
      simpl; [intuition lia|].
    destruct (decide (Z.abs b ∈ nums)) as [Hb|Hb];
      [rewrite (bool_decide_eq_true_2 _ Hb)|rewrite (bool_decide_eq_false_2 _ Hb)];
      intuition lia.
  - intros n. simpl.
    destruct (filter _ (segments g) !! n) as [s|] eqn:E.
    + apply map_lookup_filter_Some in E as [E1 E2]. simpl in E2.
      destruct (py_in n nums); [done|]. by rewrite E1.
    + destruct (py_in n nums) eqn:Hn; [done|].
      destruct (segments g !! n) as [s|] eqn:E1; [|done].
      assert (filter (fun kv : Z * Segment => negb (py_in kv.1 nums)) (segments g) !! n = Some s) as E'.
      { apply map_lookup_filter_Some. split; [done|]. simpl. by rewrite Hn. }
      rewrite E' in E. discriminate E.
  - intros n. simpl. apply lookup_foldl_delete.
  - intros k. apply Hne.
  - intros k. apply Hne.
Qed.

Lemma remove_segments_keeps_link_tables_witness :
  link_tables_ok scenario5
  /\ link_tables_ok (remove_segments [2; 3] scenario5)
  /\ (forall a b, has_link (remove_segments [2; 3] scenario5) a b
        <-> has_link scenario5 a b /\ (Z.abs a ∉ [2; 3]) /\ (Z.abs b ∉ [2; 3])).
Proof.
  assert (link_tables_ok scenario5) as H
    by (apply link_tables_ok_check_sound; vm_compute; reflexivity).
  split; [exact H|].
  destruct (remove_segments_keeps_link_tables [2; 3] scenario5 H) as (H1 & H2 & _).
  split; [exact H1|exact H2].
Defined.

End LinkTableOperations.

Section ApplyBridgeReturns.

Lemma list_remove_length (x : Z) (l l' : list Z) :
  list_remove x l = Ok l' -> (length l' <= length l)%nat.
Proof.
  revert l'. induction l as [|y l IH]; intros l'; simpl; [done|].
  case_decide; [intros [= <-]; lia|].
  destruct (list_remove x l) as [l0|]; simpl; [|done].
  intros [= <-]. simpl. specialize (IH l0 eq_refl). lia.
Qed.

Lemma link_remove_length (k v k' : Z) (d d' : gmap Z (list Z)) :
  link_remove k v d = Ok d' ->
  (length (links_of d' k') <= length (links_of d k'))%nat.
Proof.
  unfold link_remove. destruct (d !! k) as [l|] eqn:Hl; [|by intros [= <-]].
  destruct (list_remove v l) as [l'|] eqn:Hrm; simpl; [|done].
  intros [= <-]. destruct (decide (k = k')) as [<-|Hne].
  - rewrite links_of_insert_eq. unfold links_of. rewrite Hl. simpl.
    by eapply list_remove_length.
  - by rewrite links_of_insert_ne.
Qed.

Lemma remove_link_inv (a b : Z) (g g' : AssemblyGraph) :
  remove_link a b g = Ok g' ->
  exists f1 r1,
    link_remove a b (forward_links g) = Ok f1
    /\ link_remove (- b) (- a) f1 = Ok (forward_links g')
    /\ link_remove b a (reverse_links g) = Ok r1
    /\ link_remove (- a) (- b) r1 = Ok (reverse_links g')
    /\ segments g' = segments g /\ copy_depths g' = copy_depths g.
Proof.
  unfold remove_link.
  destruct (link_remove a b (forward_links g)) as [f1|] eqn:E1; simpl; [|done].
  destruct (link_remove (- b) (- a) f1) as [f2|] eqn:E2; simpl; [|done].
  destruct (link_remove b a (reverse_links g)) as [r1|] eqn:E3; simpl; [|done].
  destruct (link_remove (- a) (- b) r1) as [r2|] eqn:E4; simpl; [|done].
  intros [= <-]. exists f1, r1. simpl. by rewrite E2, E4.
Qed.

Lemma remove_link_length (a b k : Z) (g g' : AssemblyGraph) :
  remove_link a b g = Ok g' ->
  (length (links_of (forward_links g') k) <= length (links_of (forward_links g) k))%nat
  /\ (length (links_of (reverse_links g') k) <= length (links_of (reverse_links g) k))%nat.
Proof.
  intros (f1 & r1 & E1 & E2 & E3 & E4 & _)%remove_link_inv.
  apply (link_remove_length _ _ k) in E1, E2, E3, E4. lia.
Qed.

Lemma link_remove_succeeds (k v : Z) (d : gmap Z (list Z)) :
  (0 < link_count d k v)%nat -> exists d', link_remove k v d = Ok d'.
Proof.
  unfold link_count. rewrite <- count_in_elem. intros H.
  destruct (link_remove_present k v d H) as (l' & E & _). by eexists.
Qed.

Lemma remove_link_succeeds (a b : Z) (g : AssemblyGraph) :
  link_tables_ok g -> has_link g a b -> b <> - a ->
  exists g', remove_link a b g = Ok g'.
Proof.
  intros Hg Hl Hne. apply has_link_count in Hl.
  destruct (Hg a b) as (_ & H2 & H3).
  destruct (Hg (- b) (- a)) as (_ & _ & H4).
  unfold remove_link.
  destruct (link_remove_succeeds a b (forward_links g) Hl) as (f1 & E1).
  rewrite E1. simpl. apply link_remove_count in E1 as [C1 _].
  destruct (link_remove_succeeds (- b) (- a) f1) as (f2 & E2).
  { rewrite C1, decide_False by lia. lia. }
  rewrite E2. simpl.
  destruct (link_remove_succeeds b a (reverse_links g)) as (r1 & E3); [lia|].
  rewrite E3. simpl. apply link_remove_count in E3 as [C3 _].
  destruct (link_remove_succeeds (- a) (- b) r1) as (r2 & E4).
  { rewrite C3, decide_False by lia. lia. }
  rewrite E4. simpl. by eexists.
Qed.

Lemma for_live_list_returns {S : Type} (P : S -> Prop) (fuel : nat)
    (cur : S -> list Z) (body : Z -> S -> result S) (i : nat) (s : S) :
  (forall x s1, P s1 -> x ∈ cur s1 ->
     exists s2, body x s1 = Ok s2 /\ P s2 /\ (length (cur s2) <= length (cur s1))%nat) ->
  P s -> (length (cur s) - i < fuel)%nat ->
  exists s', for_live_list fuel cur body i s = Some (Ok s') /\ P s'.
Proof.
  intros Hbody. revert i s. induction fuel as [|fuel IH]; intros i s Hs Hf; [lia|].
  simpl. destruct (cur s !! i) as [x|] eqn:Hx; [|by exists s].
  destruct (Hbody x s Hs) as (s2 & -> & Hs2 & Hlen).
  { by eapply list_elem_of_lookup_2. }
  apply IH; [done|]. apply lookup_lt_Some in Hx. lia.
Qed.

Lemma remove_segment_depth_links (seg : Z) (d : Q) (g : AssemblyGraph) :
  forward_links (remove_segment_depth seg d g) = forward_links g
  /\ reverse_links (remove_segment_depth seg d g) = reverse_links g.
Proof.
  unfold remove_segment_depth. destruct (segments g !! Z.abs seg); [|done].
  destruct (copy_depths g !! Z.abs seg) as [[|x l]|]; done.
Qed.

Lemma remove_segment_depths_links (d : Q) (gp : list Z) (g : AssemblyGraph) :
  forward_links (foldl (fun g seg => remove_segment_depth seg d g) g gp) = forward_links g
  /\ reverse_links (foldl (fun g seg => remove_segment_depth seg d g) g gp)
     = reverse_links g.
Proof.
  revert g. induction gp as [|seg gp IH]; intros g; simpl; [done|].
  destruct (IH (remove_segment_depth seg d g)) as [-> ->].
  apply remove_segment_depth_links.
Qed.

Lemma remove_segment_depth_keys (seg : Z) (d : Q) (g : AssemblyGraph) (k : Z) :
  is_Some (segments (remove_segment_depth seg d g) !! k) <-> is_Some (segments g !! k).
Proof.
  unfold remove_segment_depth. destruct (segments g !! Z.abs seg) as [s|] eqn:E; [|done].
  assert (is_Some (<[Z.abs seg := set_depth s (py_max0 (depth s - d))]> (segments g) !! k)
          <-> is_Some (segments g !! k)) as H.
  { destruct (decide (Z.abs seg = k)) as [<-|Hne].
    - rewrite lookup_insert_eq, E. split; intros _; by eexists.
    - by rewrite lookup_insert_ne. }
  destruct (copy_depths g !! Z.abs seg) as [[|x l]|]; exact H.
Qed.

Lemma remove_segment_depths_keys (d : Q) (gp : list Z) (g : AssemblyGraph) (k : Z) :
  is_Some (segments (foldl (fun g seg => remove_segment_depth seg d g) g gp) !! k)
  <-> is_Some (segments g !! k).
Proof.
  revert g. induction gp as [|seg gp IH]; intros g; simpl; [done|].
  rewrite IH. apply remove_segment_depth_keys.
Qed.

Lemma link_tables_ok_ext (g g' : AssemblyGraph) :
  forward_links g' = forward_links g -> reverse_links g' = reverse_links g ->
  link_tables_ok g -> link_tables_ok g'.
Proof. intros Hf Hr Hg a b. rewrite Hf, Hr. apply Hg. Qed.

Lemma unlinking_state_step (g0 : AssemblyGraph) (start end_ a b : Z) (g : AssemblyGraph) :
  unlinking_state g0 start end_ g -> has_link g a b -> b <> - a ->
  exists g', remove_link a b g = Ok g' /\ unlinking_state g0 start end_ g'
    /\ (forall k, (length (links_of (forward_links g') k)
                   <= length (links_of (forward_links g) k))%nat
                  /\ (length (links_of (reverse_links g') k)
                      <= length (links_of (reverse_links g) k))%nat).
Proof.
  intros (Hg & Hs & He & Hseg & Hsub) Hl Hne.
  destruct (remove_link_succeeds a b g Hg Hl Hne) as (g' & E).
  exists g'. split; [done|].
  assert (forall x y, has_link g' x y -> has_link g x y) as Hless.
  { intros x y. rewrite !has_link_count.
    destruct (remove_link_counts a b g g' Hg E x y) as [-> _]. case_decide; lia. }
  split; [|intros k; by eapply remove_link_length].
  split; [by eapply remove_link_tables_ok|].
  split; [intros H; by apply Hs, Hless|].
  split; [intros H; by apply He, Hless|].
  split; [|intros x y H; by apply Hsub, Hless].
  apply remove_link_inv in E as (f1 & r1 & _ & _ & _ & _ & -> & _). done.
Qed.

Lemma remove_forward_links_of_returns (g0 : AssemblyGraph) (start end_ : Z)
    (g : AssemblyGraph) :
  unlinking_state g0 start end_ g ->
  exists g1, remove_forward_links_of start g = Some (Ok g1)
             /\ unlinking_state g0 start end_ g1.
Proof.
  intros Hg. unfold remove_forward_links_of.
  destruct (forward_links g !! start) as [l|] eqn:Hl; [|by exists g].
  apply (for_live_list_returns (unlinking_state g0 start end_)); [|done|].
  - intros x s1 Hs1 Hx.
    destruct (unlinking_state_step g0 start end_ start x s1 Hs1 Hx) as (s2 & E & Hs2 & Hlen).
    { intros ->. destruct Hs1 as (_ & Hn & _). by apply Hn. }
    exists s2. split; [done|]. split; [done|]. apply Hlen.
  - unfold links_of. rewrite Hl. simpl. lia.
Qed.

Lemma remove_reverse_links_of_returns (g0 : AssemblyGraph) (start end_ : Z)
    (g : AssemblyGraph) :
  unlinking_state g0 start end_ g ->
  exists g1, remove_reverse_links_of end_ g = Some (Ok g1)
             /\ unlinking_state g0 start end_ g1.
Proof.
  intros Hg. unfold remove_reverse_links_of.
  destruct (reverse_links g !! end_) as [l|] eqn:Hl; [|by exists g].
  apply (for_live_list_returns (unlinking_state g0 start end_)); [|done|].
  - intros x s1 Hs1 Hx.
    assert (has_link s1 x end_) as Hlink.
    { apply has_link_count. destruct Hs1 as (Hok & _).
      destruct (Hok x end_) as (_ & _ & <-). by apply count_in_elem. }
    destruct (unlinking_state_step g0 start end_ x end_ s1 Hs1 Hlink) as (s2 & E & Hs2 & Hlen).
    { intros Heq. destruct Hs1 as (_ & _ & He & _). apply He.
      replace (- end_) with x by lia. done. }
    exists s2. split; [done|]. split; [done|]. apply Hlen.
  - unfold links_of. rewrite Hl. simpl. lia.
Qed.

(** X6: on a graph with well-formed link tables, at least one segment and
    no hairpin link at the two ends ([start -> -start], [-end_ -> end_]),
    [apply_bridge] returns: neither of its loops fails.  The new segment
    gets a number that was not in use, the link tables are still well
    formed, [start -> new -> end_] are links, and every other link of the
    result was a link before. *)
Theorem apply_bridge_returns (b : Bridge) (start end_ : Z) (sequence : string)
    (gp : list Z) (g : AssemblyGraph) :
  link_tables_ok g ->
  ~ has_link g start (- start) -> ~ has_link g (- end_) end_ ->
  (exists k, is_Some (segments g !! k)) ->
  exists g' n,
    apply_bridge b start end_ sequence gp g = Some (Ok (g', n))
    /\ link_tables_ok g'
    /\ segments g !! n = None /\ is_Some (segments g' !! n)
    /\ has_link g' start n /\ has_link g' n end_
    /\ forall x y, has_link g' x y ->
         has_link g x y \/ (x = start /\ y = n) \/ (x = - n /\ y = - start)
         \/ (x = n /\ y = end_) \/ (x = - end_ /\ y = - n).
Proof.
  intros Hg Hs He (k & Hk).
  assert (unlinking_state g start end_ g) as H0 by done.
  destruct (remove_forward_links_of_returns g start end_ g H0) as (g1 & E1 & H1).
  destruct (remove_reverse_links_of_returns g start end_ g1 H1) as (g2 & E2 & H2).
  unfold apply_bridge. rewrite E1, E2.
  destruct H2 as (Hok & _ & _ & Hseg & Hsub).
  destruct (max_key_ge (segments g) k Hk) as (M & HM & _).
  unfold apply_bridge_after_unlinking, get_next_available_seg_number.
  rewrite Hseg, HM. simpl.
  set (n := M + 1).
  set (seg := build_other_sequence_if_necessary _).
  set (g3 := set_segments g2 _).
  set (g5 := add_link n end_ (add_link start n g3)).
  destruct (remove_segment_depths_links (bridge_depth b) gp g5) as [Ef Er].
  assert (link_tables_ok g5) as Hok5.
  { apply add_link_tables_ok, add_link_tables_ok. by apply (link_tables_ok_ext g2). }
  eexists _, n. split; [done|].
  split; [by apply (link_tables_ok_ext g5)|].
  split.
  { destruct (segments g !! n) as [s|] eqn:En; [|done].
    destruct (max_key_ge (segments g) n) as (M' & HM' & Hle); [by eexists|].
    rewrite HM in HM'. injection HM' as <-. unfold n in Hle. lia. }
  split.
  { apply remove_segment_depths_keys. unfold g5, g3. simpl.
    rewrite lookup_insert_eq. by eexists. }
  assert (forall x y, has_link (foldl (fun g seg => remove_segment_depth seg (bridge_depth b) g) g5 gp) x y
                      <-> has_link g5 x y) as Hsame.
  { intros x y. unfold has_link. by rewrite Ef. }
  assert (forall x y, has_link g5 x y
            <-> (has_link g2 x y \/ (x = start /\ y = n) \/ (x = - n /\ y = - start))
                \/ (x = n /\ y = end_) \/ (x = - end_ /\ y = - n)) as H5.
  { intros x y. rewrite !has_link_count. unfold g5.
    destruct (add_link_counts n end_ (add_link start n g3) x y) as [-> _].
    destruct (add_link_counts start n g3 x y) as [-> _].
    change (forward_links g3) with (forward_links g2).
    repeat case_decide; intuition lia. }
  split; [apply Hsame, H5; tauto|].
  split; [apply Hsame, H5; tauto|].
  intros x y [[H|H]|H]%Hsame%H5; [left; by apply Hsub|tauto|tauto].
Qed.

Lemma apply_bridge_returns_witness :
  exists g' n,
    link_tables_ok scenario5
    /\ ~ has_link scenario5 1 (- 1) /\ ~ has_link scenario5 (- 4) 4
    /\ (exists k, is_Some (segments scenario5 !! k))
    /\ apply_bridge scenario5_bridge 1 4 "ACGT" [2; 3] scenario5 = Some (Ok (g', n))
    /\ link_tables_ok g'
    /\ has_link g' 1 n /\ has_link g' n 4.
Proof.
  assert (link_tables_ok scenario5) as H
    by (apply link_tables_ok_check_sound; vm_compute; reflexivity).
  assert (~ has_link scenario5 1 (- 1)) as Hs
    by (rewrite has_link_count; vm_compute; lia).
  assert (~ has_link scenario5 (- 4) 4) as He
    by (rewrite has_link_count; vm_compute; lia).
  assert (exists k, is_Some (segments scenario5 !! k)) as Hk
    by (exists 1; vm_compute; eexists; reflexivity).
  destruct (apply_bridge_returns scenario5_bridge 1 4 "ACGT" [2; 3] scenario5 H Hs He Hk)
    as (g' & n & E & Hok & _ & _ & H1 & H2 & _).
  exists g', n.
  exact (conj H (conj Hs (conj He (conj Hk (conj E (conj Hok (conj H1 H2))))))).
Defined.

End ApplyBridgeReturns.

Section MergeLinks.

Lemma add_link_has_link (start end_ : Z) (g : AssemblyGraph) (a b : Z) :
  has_link (add_link start end_ g) a b
  <-> has_link g a b \/ (a = start /\ b = end_) \/ (a = - end_ /\ b = - start).
Proof.
  rewrite !has_link_count.
  destruct (add_link_counts start end_ g a b) as [-> _].
  case_decide as H; [|intuition lia]. split; [tauto|lia].
Qed.

Lemma remove_segments_has_link (nums : list Z) (g : AssemblyGraph) (a b : Z) :
  has_link (remove_segments nums g) a b
  <-> has_link g a b /\ (Z.abs a ∉ nums) /\ (Z.abs b ∉ nums).
Proof.
  rewrite !has_link_count. simpl. rewrite remove_nums_count. unfold py_in.
  destruct (decide (Z.abs a ∈ nums)) as [Ha|Ha];
    [rewrite (bool_decide_eq_true_2 _ Ha)|rewrite (bool_decide_eq_false_2 _ Ha)];
    simpl; [intuition lia|].
  destruct (decide (Z.abs b ∈ nums)) as [Hb|Hb];
    [rewrite (bool_decide_eq_true_2 _ Hb)|rewrite (bool_decide_eq_false_2 _ Hb)];
    intuition lia.
Qed.

Lemma add_links_out (n : Z) (outs : list Z) (g : AssemblyGraph) :
  let g' := foldl (fun g link => add_link n link g) g outs in
  (link_tables_ok g -> link_tables_ok g')
  /\ segments g' = segments g
  /\ forall x y, has_link g' x y
       <-> has_link g x y \/ (x = n /\ y ∈ outs) \/ ((- x) ∈ outs /\ y = - n).
Proof.
  revert g. induction outs as [|l outs IH]; intros g; simpl.
  - split; [done|]. split; [done|]. intros x y. split; [tauto|].
    intros [H|[[_ H]|[H _]]]; [done|by apply not_elem_of_nil in H..].
  - destruct (IH (add_link n l g)) as (H1 & H2 & H3).
    split; [intros Hg; by apply H1, add_link_tables_ok|].
    split; [by rewrite H2|].
    intros x y. rewrite H3, add_link_has_link, !elem_of_cons.
    split; [intros [[H|[[-> ->]|[-> ->]]]|[[-> H]|[H ->]]]|
            intros [H|[[-> [->|H]]|[[H|H] ->]]]]; try tauto.
    + right. right. split; [left; lia|done].
    + left. right. right. split; lia.
Qed.

Lemma add_links_in (n : Z) (ins : list Z) (g : AssemblyGraph) :
  let g' := foldl (fun g link => add_link link n g) g ins in
  (link_tables_ok g -> link_tables_ok g')
  /\ segments g' = segments g
  /\ forall x y, has_link g' x y
       <-> has_link g x y \/ (x ∈ ins /\ y = n) \/ (x = - n /\ (- y) ∈ ins).
Proof.
  revert g. induction ins as [|l ins IH]; intros g; simpl.
  - split; [done|]. split; [done|]. intros x y. split; [tauto|].
    intros [H|[[H _]|[_ H]]]; [done|by apply not_elem_of_nil in H..].
  - destruct (IH (add_link l n g)) as (H1 & H2 & H3).
    split; [intros Hg; by apply H1, add_link_tables_ok|].
    split; [by rewrite H2|].
    intros x y. rewrite H3, add_link_has_link, !elem_of_cons.
    split; [intros [[H|[[-> ->]|[-> ->]]]|[[H ->]|[-> H]]]|
            intros [H|[[[->|H] ->]|[-> [H|H]]]]]; try tauto.
    + right. right. split; [done|left; lia].
    + left. right. right. split; lia.
Qed.

Lemma find_replace_one_val_map (lst : list Z) (val replacement : Z) :
  find_replace_one_val_in_list lst val replacement
  = map (fun x => if decide (x = val) then replacement else x) lst.
Proof.
  unfold find_replace_one_val_in_list, py_in. case_bool_decide as H; [done|].
  induction lst as [|x lst IH]; simpl; [done|].
  rewrite not_elem_of_cons in H. destruct H as [H1 H2].
  rewrite decide_False by done. by rewrite <- IH.
Qed.

Lemma merge_simple_path_segments_graph (merge_path : list Z) (g g' : AssemblyGraph)
    (n : Z) :
  merge_simple_path_segments merge_path g = Ok (g', n) ->
  exists start end_ seg,
    merge_path !! 0%nat = Some start /\ last merge_path = Some end_
    /\ g' = foldl (fun g link => add_link link n g)
              (foldl (fun g link => add_link n link g)
                 (set_segments (remove_segments (map Z.abs merge_path) g)
                    (<[n := seg]> (segments (remove_segments (map Z.abs merge_path) g))))
                 (map (fun x => if decide (x = - end_) then - n else x)
                    (map (fun x => if decide (x = start) then n else x)
                       (links_of (forward_links g) end_))))
              (map (fun x => if decide (x = - start) then - n else x)
                 (map (fun x => if decide (x = end_) then n else x)
                    (links_of (reverse_links g) start))).
Proof.
  unfold merge_simple_path_segments, list_getitem, list_last.
  destruct (merge_path !! 0%nat) as [start|] eqn:H0; simpl; [|done].
  destruct (last merge_path) as [end_|] eqn:H1; simpl; [|done].
  destruct (path_segment_objects g merge_path) as [segs|] eqn:H2; simpl; [|done].
  destruct (if 0 <? Zsum _ then _ else _) as [mean_depth|]; simpl; [|done].
  destruct (get_next_available_seg_number g) as [m|] eqn:H3; simpl; [|done].
  destruct (get_path_sequence g merge_path) as [sq|]; simpl; [|done].
  intros [= <- <-]. eexists start, end_, _. split; [done|]. split; [done|].
  by rewrite !find_replace_one_val_map.
Qed.

(** X7: the segment part of [merge_simple_path] on a graph with
    well-formed link tables leaves them well formed.  The merged segment
    gets an unused number [n]; the segments of the path are gone; the new
    segment has the outgoing links of the path's last segment and the
    incoming links of its first one (with the path's own ends renamed to
    [n]); and the links between the other segments are exactly those that
    do not touch a segment of the path. *)
Theorem merge_simple_path_segments_links (merge_path : list Z) (g g' : AssemblyGraph)
    (n start end_ : Z) :
  link_tables_ok g ->
  merge_simple_path_segments merge_path g = Ok (g', n) ->
  merge_path !! 0%nat = Some start -> last merge_path = Some end_ ->
  link_tables_ok g'
  /\ segments g !! n = None /\ is_Some (segments g' !! n)
  /\ (forall x, x ∈ merge_path -> segments g' !! Z.abs x = None)
  /\ (forall y, has_link g end_ y ->
        has_link g' n (if decide (y = start) then n
                       else if decide (y = - end_) then - n else y))
  /\ (forall x, has_link g x start ->
        has_link g' (if decide (x = end_) then n
                     else if decide (x = - start) then - n else x) n)
  /\ (forall x y, Z.abs x <> n -> Z.abs y <> n ->
        (has_link g' x y
         <-> has_link g x y /\ (Z.abs x ∉ map Z.abs merge_path)
             /\ (Z.abs y ∉ map Z.abs merge_path))).
Proof.
  intros Hg Hm Hs He.
  destruct (merge_simple_path_segments_inv _ _ _ _ Hm) as (_ & Hn & Hlive).
  destruct (merge_simple_path_segments_graph _ _ _ _ Hm) as (s & e & seg & Hs' & He' & ->).
  rewrite Hs in Hs'. rewrite He in He'. injection Hs' as <-. injection He' as <-.
  assert (forall x, x ∈ merge_path -> Z.abs x < n) as Hlt.
  { intros x Hx. destruct (max_key_ge _ _ (Hlive x Hx)) as (M & HM & Hle).
    unfold get_next_available_seg_number in Hn. rewrite HM in Hn.
    injection Hn as <-. lia. }
  assert (start ∈ merge_path) as Hsin by (by eapply list_elem_of_lookup_2).
  assert (end_ ∈ merge_path) as Hein.
  { apply last_Some in He as (l' & ->). apply elem_of_app. right. left. }
  apply Hlt in Hsin as Hslt. apply Hlt in Hein as Helt.
  set (g1 := remove_segments (map Z.abs merge_path) g).
  set (g2 := set_segments g1 (<[n := seg]> (segments g1))).
  set (outs := map _ (map _ (links_of (forward_links g) end_))).
  set (ins := map _ (map _ (links_of (reverse_links g) start))).
  destruct (add_links_out n outs g2) as (O1 & O2 & O3).
  destruct (add_links_in n ins (foldl (fun g link => add_link n link g) g2 outs))
    as (I1 & I2 & I3).
  assert (link_tables_ok g2) as Hg2.
  { apply (link_tables_ok_ext g1); [done..|]. by apply remove_segments_tables_ok. }
  split; [by apply I1, O1|].
  split.
  { destruct (segments g !! n) as [sg|] eqn:En; [|done].
    destruct (max_key_ge (segments g) n) as (M' & HM' & Hle); [by eexists|].
    unfold get_next_available_seg_number in Hn. rewrite HM' in Hn.
    injection Hn as Hn. lia. }
  split.
  { rewrite I2, O2. unfold g2. simpl. rewrite lookup_insert_eq. by eexists. }
  split.
  { intros x Hx. rewrite I2, O2. unfold g2. simpl.
    rewrite lookup_insert_ne by (apply Hlt in Hx; lia).
    apply map_lookup_filter_None. right. intros sg _. simpl.
    unfold py_in. rewrite bool_decide_eq_true_2; [auto|].
    apply list_elem_of_fmap. by exists x. }
  split.
  { intros y Hy. apply I3. left. apply O3. right. left. split; [done|].
    unfold outs. apply list_elem_of_fmap.
    exists (if decide (y = start) then n else y). split.
    - repeat case_decide; lia.
    - apply list_elem_of_fmap. by exists y. }
  split.
  { intros x Hx. apply I3. right. left. split; [|done].
    unfold ins. apply list_elem_of_fmap.
    exists (if decide (x = end_) then n else x). split.
    - repeat case_decide; lia.
    - apply list_elem_of_fmap. exists x. split; [done|].
      apply count_in_elem. fold (link_count (reverse_links g) start x).
      destruct (Hg x start) as (_ & _ & ->). by apply has_link_count. }
  intros x y Hx Hy. rewrite I3, O3.
  assert (has_link g2 x y <-> has_link g1 x y) as -> by done.
  unfold g1. rewrite remove_segments_has_link.
  split; [intros [[H|[[-> _]|[_ ->]]]|[[_ ->]|[-> _]]]|tauto]; try done;
    exfalso; lia.
Qed.

Lemma merge_simple_path_segments_links_witness :
  exists g' n,
    link_tables_ok merge_example
    /\ merge_simple_path_segments [1; 2; 3] merge_example = Ok (g', n)
    /\ link_tables_ok g'
    /\ is_Some (segments g' !! n)
    /\ (forall x, x ∈ [1; 2; 3] -> segments g' !! Z.abs x = None).
Proof.
  assert (link_tables_ok merge_example) as H
    by (apply link_tables_ok_check_sound; vm_compute; reflexivity).
  destruct (merge_simple_path_segments [1; 2; 3] merge_example) as [[g' n]|e] eqn:E;
    [|vm_compute in E; discriminate E].
  destruct (merge_simple_path_segments_links [1; 2; 3] merge_example g' n 1 3 H E
              eq_refl eq_refl) as (H1 & _ & H3 & H4 & _).
  exists g', n. exact (conj H (conj eq_refl (conj H1 (conj H3 H4)))).
Defined.

End MergeLinks.

Section ReverseComplement.

Lemma length_string_of_list_ascii (l : list ascii) :
  String.length (string_of_list_ascii l) = length l.
Proof. induction l as [|c l IH]; simpl; [done|by rewrite IH]. Qed.

Lemma length_list_ascii_of_string (s : string) :
  length (list_ascii_of_string s) = String.length s.
Proof. induction s as [|c s IH]; simpl; [done|by rewrite IH]. Qed.

Lemma list_ascii_of_string_app (s1 s2 : string) :
  list_ascii_of_string (s1 ++ s2)%string
  = (list_ascii_of_string s1 ++ list_ascii_of_string s2)%list.
Proof. induction s1 as [|c s1 IH]; simpl; [done|by rewrite IH]. Qed.

Lemma string_of_list_ascii_app (l1 l2 : list ascii) :
  string_of_list_ascii (l1 ++ l2)
  = (string_of_list_ascii l1 ++ string_of_list_ascii l2)%string.
Proof. induction l1 as [|c l1 IH]; simpl; [done|by rewrite IH]. Qed.

Lemma complement_base_thrice (c : ascii) :
  complement_base (complement_base (complement_base c)) = complement_base c.
Proof.
  destruct c as [[] [] [] [] [] [] [] []]; vm_compute; reflexivity.
Qed.

Lemma complement_base_twice (c : ascii) :
  c ∈ complement_forward -> complement_base (complement_base c) = c.
Proof.
  rewrite list_elem_of_In. unfold complement_forward. simpl.
  intros H.
  repeat (destruct H as [<-|H]; [vm_compute; reflexivity|]). destruct H.
Qed.

Lemma map_reverse {A B} (f : A -> B) (l : list A) :
  map f (reverse l) = reverse (map f l).
Proof.
  induction l as [|x l IH]; simpl; [done|].
  by rewrite !reverse_cons, map_app, IH.
Qed.

Lemma reverse_complement_twice (s : string) :
  reverse_complement (reverse_complement s)
  = string_of_list_ascii
      (map (fun c => complement_base (complement_base c)) (list_ascii_of_string s)).
Proof.
  unfold reverse_complement.
  rewrite list_ascii_of_string_of_list_ascii.
  by rewrite <- map_reverse, reverse_involutive, map_map.
Qed.

(** X8: [reverse_complement] keeps the length of a sequence, turns a
    concatenation into the concatenation of the reverse complements in the
    opposite order, and applying it three times is the same as applying it
    once. *)
Theorem reverse_complement_shape (s t : string) :
  String.length (reverse_complement s) = String.length s
  /\ reverse_complement (s ++ t)%string
     = (reverse_complement t ++ reverse_complement s)%string
  /\ reverse_complement (reverse_complement (reverse_complement s))
     = reverse_complement s.
Proof.
  split; [|split].
  - unfold reverse_complement.
    rewrite length_string_of_list_ascii, length_map, length_reverse.
    apply length_list_ascii_of_string.
  - unfold reverse_complement.
    rewrite list_ascii_of_string_app, reverse_app, map_app.
    apply string_of_list_ascii_app.
  - rewrite reverse_complement_twice. unfold reverse_complement.
    rewrite list_ascii_of_string_of_list_ascii. f_equal.
    rewrite map_map. apply map_ext. intros c. apply complement_base_thrice.
Qed.

(** X9: on a sequence written in the alphabet that [complement_base]
    knows, the reverse complement of the reverse complement is the sequence
    itself. *)
Theorem reverse_complement_involutive (s : string) :
  (forall c, c ∈ list_ascii_of_string s -> c ∈ complement_forward) ->
  reverse_complement (reverse_complement s) = s.
Proof.
  intros H. rewrite reverse_complement_twice.
  rewrite <- (string_of_list_ascii_of_string s) at 2. f_equal.
  induction (list_ascii_of_string s) as [|c l IH]; simpl; [done|].
  rewrite complement_base_twice by (apply H; left).
  f_equal. apply IH. intros c' Hc'. apply H. by right.
Qed.

Lemma reverse_complement_involutive_witness :
  (forall c, c ∈ list_ascii_of_string "ACGTNacgtRYKM" -> c ∈ complement_forward)
  /\ reverse_complement (reverse_complement "ACGTNacgtRYKM") = "ACGTNacgtRYKM"%string.
Proof.
  assert (forall c, c ∈ list_ascii_of_string "ACGTNacgtRYKM" -> c ∈ complement_forward) as H.
  { intros c. rewrite !list_elem_of_In. simpl. intros Hc.
    repeat (destruct Hc as [<-|Hc]; [tauto|]). destruct Hc. }
  split; [exact H|]. exact (reverse_complement_involutive "ACGTNacgtRYKM" H).
Defined.

Lemma string_empty_length (s : string) :
  string_empty s = true <-> String.length s = 0%nat.
Proof. destruct s; simpl; split; done. Qed.

Lemma string_empty_reverse_complement (s : string) :
  string_empty (reverse_complement s) = string_empty s.
Proof.
  apply eq_true_iff_eq. rewrite !string_empty_length.
  unfold reverse_complement.
  rewrite length_string_of_list_ascii, length_map, length_reverse,
    length_list_ascii_of_string. done.
Qed.

(** X10: [build_other_sequence_if_necessary] fills in the missing strand
    of a segment: built from its forward sequence, the segment gets the
    reverse complement as its reverse sequence, and the other way round.
    Calling it a second time changes nothing. *)
Theorem build_other_sequence_if_necessary_strands :
  (forall s, build_other_sequence_if_necessary (build_other_sequence_if_necessary s)
             = build_other_sequence_if_necessary s)
  /\ (forall num d sequence positive b gp,
        let s := build_other_sequence_if_necessary
                   (new_Segment num d sequence positive b gp) in
        if positive
        then forward_sequence s = sequence
             /\ reverse_sequence s = reverse_complement sequence
        else reverse_sequence s = sequence
             /\ forward_sequence s = reverse_complement sequence).
Proof.
  split.
  - intros [num d fwd rv b gp]. unfold build_other_sequence_if_necessary. simpl.
    destruct (string_empty fwd) eqn:Ef; destruct (string_empty rv) eqn:Er; simpl;
      rewrite ?string_empty_reverse_complement, ?Ef, ?Er; simpl;
      rewrite ?string_empty_reverse_complement, ?Ef, ?Er; try done.
    destruct rv; [|done]. destruct fwd; [|done]. done.
  - intros num d sequence [] b gp; unfold build_other_sequence_if_necessary; simpl.
    + destruct (string_empty sequence) eqn:E; [|done].
      destruct sequence; [|done]. done.
    + destruct (string_empty sequence) eqn:E; [|done].
      destruct sequence; [|done]. done.
Qed.

End ReverseComplement.

Section PathLists.

(** X11: [split_path_multiple] with at least one splitting number returns
    only pieces of two or more entries, none of them a splitting number,
    each a run of consecutive entries of the path; with no splitting number
    it returns the path alone, however short. *)
Theorem split_path_multiple_pieces (path segs : list Z) :
  (segs = [] -> split_path_multiple path segs = [path])
  /\ (segs <> [] -> forall q, q ∈ split_path_multiple path segs ->
        (1 < length q)%nat /\ (forall x, x ∈ q -> x ∉ segs) /\ occurs_in q path).
Proof.
  split; [by intros ->|].
  intros Hne q Hq. destruct segs as [|seg segs]; [done|].
  rewrite split_path_multiple_where in Hq.
  apply list_elem_of_In, filter_In in Hq as [Hq Hlong].
  apply list_elem_of_In, split_where_pieces in Hq as [Hall Hocc].
  split; [by apply bool_decide_eq_true in Hlong|]. split; [|done].
  intros x Hx Hin. rewrite Forall_forall in Hall. specialize (Hall x Hx).
  unfold py_in in Hall. by apply bool_decide_eq_false in Hall.
Qed.

Lemma split_path_multiple_pieces_witness :
  [3] <> []
  /\ forall q, q ∈ split_path_multiple [1; 2; 3; 4; 3; 5; 6] [3] ->
       (1 < length q)%nat /\ (forall x, x ∈ q -> x ∉ [3])
       /\ occurs_in q [1; 2; 3; 4; 3; 5; 6].
Proof.
  assert ([3] <> @nil Z) as H by discriminate.
  split; [exact H|].
  exact (proj2 (split_path_multiple_pieces [1; 2; 3; 4; 3; 5; 6] [3]) H).
Defined.

Lemma find_replace_first_occurs (lst pat rep : list Z) :
  pat <> [] -> occurs_in pat lst ->
  exists l', find_replace_first lst pat rep = Some l'.
Proof.
  intros Hpat Hocc.
  destruct (find_replace_first lst pat rep) as [l'|] eqn:E; [by eexists|].
  by apply find_replace_first_None in E.
Qed.

(** X12: when the replacement is shorter than the pattern,
    [find_replace_in_list] comes to an end within as many rounds as the
    list has entries, and its result has no occurrence of the pattern
    left. *)
Theorem find_replace_in_list_shrinking (lst pat rep : list Z) :
  pat <> [] -> (length rep < length pat)%nat ->
  exists r, find_replace_in_list (S (length lst)) lst pat rep = Some r
            /\ replaced_all pat rep lst r
            /\ (length r <= length lst)%nat.
Proof.
  intros Hpat Hlen.
  assert (forall fuel l, (length l < fuel)%nat ->
            exists r, find_replace_in_list fuel l pat rep = Some r
                      /\ (length r <= length l)%nat) as H.
  { induction fuel as [|fuel IH]; intros l Hf; [lia|]. simpl.
    destruct (find_replace_first l pat rep) as [l'|] eqn:E; [|by exists l].
    apply find_replace_first_Some in E as (l1 & l2 & -> & ->).
    rewrite !length_app in Hf.
    destruct (IH (l1 ++ rep ++ l2)) as (r & Hr & Hle).
    { rewrite !length_app. lia. }
    exists r. split; [done|]. rewrite !length_app in *. lia. }
  destruct (H (S (length lst)) lst) as (r & Hr & Hle); [lia|].
  exists r. split; [done|]. split; [|done].
  by eapply find_replace_in_list_Some.
Qed.

Lemma find_replace_in_list_shrinking_witness :
  [5; 8] <> []
  /\ (length [7] < length [5; 8])%nat
  /\ exists r, find_replace_in_list (S (length [1; 5; 8; 3])) [1; 5; 8; 3] [5; 8] [7] = Some r
               /\ replaced_all [5; 8] [7] [1; 5; 8; 3] r
               /\ (length r <= length [1; 5; 8; 3])%nat.
Proof.
  assert ([5; 8] <> @nil Z) as H by discriminate.
  assert (length [7] < length [5; 8])%nat as H' by (simpl; lia).
  split; [exact H|]. split; [exact H'|].
  exact (find_replace_in_list_shrinking [1; 5; 8; 3] [5; 8] [7] H H').
Defined.

(** X13: when the replacement contains the pattern and the list has an
    occurrence of the pattern, the loop of [find_replace_in_list] never
    ends: every round finds an occurrence again. *)
Theorem find_replace_in_list_diverges (lst pat rep : list Z) (fuel : nat) :
  pat <> [] -> occurs_in pat rep -> occurs_in pat lst ->
  find_replace_in_list fuel lst pat rep = None.
Proof.
  intros Hpat Hrep. revert lst. induction fuel as [|fuel IH]; intros lst Hocc; [done|].
  simpl. destruct (find_replace_first_occurs lst pat rep Hpat Hocc) as (l' & E).
  rewrite E. apply IH.
  apply find_replace_first_Some in E as (l1 & l2 & -> & ->).
  destruct Hrep as (r1 & r2 & ->).
  exists (l1 ++ r1), (r2 ++ l2). by rewrite <- !app_assoc.
Qed.

Lemma find_replace_in_list_diverges_witness :
  [2] <> [] /\ occurs_in [2] [2; 2] /\ occurs_in [2] [1; 2; 3]
  /\ find_replace_in_list 100 [1; 2; 3] [2] [2; 2] = None.
Proof.
  assert ([2] <> @nil Z) as H by discriminate.
  assert (occurs_in [2] [2; 2]) as H1 by (exists [], [2]; reflexivity).
  assert (occurs_in [2] [1; 2; 3]) as H2 by (exists [1], [3]; reflexivity).
  split; [exact H|]. split; [exact H1|]. split; [exact H2|].
  exact (find_replace_in_list_diverges [1; 2; 3] [2] [2; 2] 100 H H1 H2).
Defined.

Lemma occurs_in_pair_nil (a b : Z) : ~ occurs_in [a; b] [].
Proof. intros (l1 & l2 & H). by destruct l1. Qed.

Lemma occurs_in_pair_one (a b x : Z) : ~ occurs_in [a; b] [x].
Proof. intros (l1 & l2 & H). destruct l1 as [|? [|? ?]]; done. Qed.

Lemma occurs_in_pair_cons (a b x y : Z) (l : list Z) :
  occurs_in [a; b] (x :: y :: l) <-> (x = a /\ y = b) \/ occurs_in [a; b] (y :: l).
Proof.
  split.
  - intros (l1 & l2 & H). destruct l1 as [|z l1]; simpl in H.
    + injection H as -> -> _. by left.
    + injection H as -> H. right. by exists l1, l2.
  - intros [[-> ->]|(l1 & l2 & H)].
    + by exists [], l.
    + exists (x :: l1), l2. simpl. by rewrite H.
Qed.

Lemma insert_num_in_list_head (y : Z) (l : list Z) (val_1 val_2 insert_val : Z) :
  exists r, insert_num_in_list (y :: l) val_1 val_2 insert_val = y :: r.
Proof.
  destruct l as [|z l]; simpl; [by eexists|].
  destruct (bool_decide (y = val_1) && bool_decide (z = val_2)); by eexists.
Qed.

(** X14: [insert_num_in_list] only adds entries: taking the inserted value
    out again gives the list back when the list did not have that value.  A
    list without [val_1] directly followed by [val_2] is returned as it is,
    and when the inserted value differs from both, the result has no
    [val_1] directly followed by [val_2] any more. *)
Theorem insert_num_in_list_spec (lst : list Z) (val_1 val_2 insert_val : Z) :
  (insert_val ∉ lst ->
   List.filter (fun x => negb (bool_decide (x = insert_val)))
     (insert_num_in_list lst val_1 val_2 insert_val) = lst)
  /\ (~ occurs_in [val_1; val_2] lst ->
      insert_num_in_list lst val_1 val_2 insert_val = lst)
  /\ (insert_val <> val_1 -> insert_val <> val_2 ->
      ~ occurs_in [val_1; val_2] (insert_num_in_list lst val_1 val_2 insert_val)).
Proof.
  split; [|split].
  - induction lst as [|x [|y l] IH]; intros Hin.
    + done.
    + simpl. rewrite not_elem_of_cons in Hin. destruct Hin as [Hx _].
      by rewrite bool_decide_eq_false_2.
    + rewrite not_elem_of_cons in Hin. destruct Hin as [Hx Hin].
      specialize (IH Hin).
      change (insert_num_in_list (x :: y :: l) val_1 val_2 insert_val)
        with (if bool_decide (x = val_1) && bool_decide (y = val_2)
              then x :: insert_val :: insert_num_in_list (y :: l) val_1 val_2 insert_val
              else x :: insert_num_in_list (y :: l) val_1 val_2 insert_val).
      destruct (bool_decide (x = val_1) && bool_decide (y = val_2));
        cbn [List.filter]; rewrite ?(bool_decide_eq_false_2 (x = insert_val)) by done;
        rewrite ?(bool_decide_eq_true_2 (insert_val = insert_val)) by done;
        cbn [negb]; by rewrite IH.
  - induction lst as [|x [|y l] IH]; intros Hocc; [done..|].
    change (insert_num_in_list (x :: y :: l) val_1 val_2 insert_val)
      with (if bool_decide (x = val_1) && bool_decide (y = val_2)
            then x :: insert_val :: insert_num_in_list (y :: l) val_1 val_2 insert_val
            else x :: insert_num_in_list (y :: l) val_1 val_2 insert_val).
    rewrite occurs_in_pair_cons in Hocc.
    destruct (bool_decide (x = val_1) && bool_decide (y = val_2)) eqn:E.
    + apply andb_true_iff in E as [E1%bool_decide_eq_true E2%bool_decide_eq_true]. tauto.
    + rewrite IH; [done|tauto].
  - intros H1 H2. induction lst as [|x [|y l] IH].
    + apply occurs_in_pair_nil.
    + apply occurs_in_pair_one.
    + change (insert_num_in_list (x :: y :: l) val_1 val_2 insert_val)
        with (if bool_decide (x = val_1) && bool_decide (y = val_2)
              then x :: insert_val :: insert_num_in_list (y :: l) val_1 val_2 insert_val
              else x :: insert_num_in_list (y :: l) val_1 val_2 insert_val).
      destruct (insert_num_in_list_head y l val_1 val_2 insert_val) as (r & Hr).
      rewrite Hr in *.
      destruct (bool_decide (x = val_1) && bool_decide (y = val_2)) eqn:E.
      * rewrite !occurs_in_pair_cons. tauto.
      * rewrite occurs_in_pair_cons. intros [[-> ->]|H]; [|done].
        by rewrite !bool_decide_eq_true_2 in E.
Qed.

Lemma insert_num_in_list_spec_witness :
  (9 ∉ [1; 2; 3; 1; 2])
  /\ List.filter (fun x => negb (bool_decide (x = 9)))
       (insert_num_in_list [1; 2; 3; 1; 2] 1 2 9) = [1; 2; 3; 1; 2]
  /\ ~ occurs_in [1; 2] (insert_num_in_list [1; 2; 3; 1; 2] 1 2 9)
  /\ ~ occurs_in [4; 5] [1; 2; 3; 1; 2]
  /\ insert_num_in_list [1; 2; 3; 1; 2] 4 5 9 = [1; 2; 3; 1; 2].
Proof.
  assert (9 ∉ [1; 2; 3; 1; 2]) as H.
  { rewrite list_elem_of_In. simpl. lia. }
  assert (~ occurs_in [4; 5] [1; 2; 3; 1; 2]) as H'.
  { rewrite !occurs_in_pair_cons. intros [[? ?]|[[? ?]|[[? ?]|[[? ?]|Hn]]]]; try lia.
    by apply occurs_in_pair_one in Hn. }
  destruct (insert_num_in_list_spec [1; 2; 3; 1; 2] 1 2 9) as (H1 & _ & H3).
  destruct (insert_num_in_list_spec [1; 2; 3; 1; 2] 4 5 9) as (_ & H2 & _).
  split; [exact H|]. split; [exact (H1 H)|].
  split; [apply H3; lia|]. split; [exact H'|exact (H2 H')].
Defined.

End PathLists.

Section PathLength.

Lemma length_string_app (s1 s2 : string) :
  String.length (s1 +:+ s2) = (String.length s1 + String.length s2)%nat.
Proof. induction s1 as [|c s1 IH]; simpl; [done|by rewrite IH]. Qed.

Lemma length_slice_from (s : string) (a : Z) :
  0 <= a <= Z.of_nat (String.length s) ->
  Z.of_nat (String.length (slice_from s a)) = Z.of_nat (String.length s) - a.
Proof.
  intros Ha. unfold slice_from.
  rewrite length_string_of_list_ascii, length_drop, length_list_ascii_of_string.
  destruct (a <? 0) eqn:E; [apply Z.ltb_lt in E; lia|]. lia.
Qed.

Lemma path_length_from_raises (g : AssemblyGraph) (n : Z) (path : list Z) :
  (exists m, path_length_from g n path = Ok m)
  \/ path_length_from g n path = Raise KeyError.
Proof.
  revert n. induction path as [|x path IH]; intros n; simpl; [left; by eexists|].
  unfold getitem. destruct (segments g !! Z.abs x) as [s|]; simpl; [apply IH|by right].
Qed.

Lemma path_length_from_missing (g : AssemblyGraph) (n : Z) (path : list Z) (x : Z) :
  x ∈ path -> segments g !! Z.abs x = None ->
  path_length_from g n path = Raise KeyError.
Proof.
  revert n. induction path as [|y path IH]; intros n Hx Hnone; simpl.
  - by apply not_elem_of_nil in Hx.
  - unfold getitem. destruct (segments g !! Z.abs y) as [s|] eqn:E; simpl; [|done].
    apply elem_of_cons in Hx as [->|Hx]; [congruence|]. by apply IH.
Qed.

(** X15: [get_path_length] never raises.  A path that names a segment the
    graph does not have gets the length 0, and the empty path gets the
    length of one overlap, not 0. *)
Theorem get_path_length_edges (g : AssemblyGraph) (path : list Z) :
  (exists n, get_path_length g path = Ok n)
  /\ get_path_length g [] = Ok (overlap g)
  /\ (forall x, x ∈ path -> segments g !! Z.abs x = None ->
      get_path_length g path = Ok 0).
Proof.
  split; [|split].
  - unfold get_path_length.
    destruct (path_length_from_raises g 0 path) as [(m & ->)| ->]; by eexists.
  - unfold get_path_length. simpl. f_equal. lia.
  - intros x Hx Hnone. unfold get_path_length.
    by rewrite (path_length_from_missing g 0 path x).
Qed.

Lemma get_path_length_edges_witness :
  (7 ∈ [1; 7; 2]) /\ segments scenario5 !! Z.abs 7 = None
  /\ get_path_length scenario5 [1; 7; 2] = Ok 0.
Proof.
  assert (7 ∈ [1; 7; 2]) as H by (right; left).
  assert (segments scenario5 !! Z.abs 7 = None) as H' by (vm_compute; reflexivity).
  split; [exact H|]. split; [exact H'|].
  exact (proj2 (proj2 (get_path_length_edges scenario5 [1; 7; 2])) 7 H H').
Defined.

Lemma get_path_sequence_from_length (g : AssemblyGraph) (rest : list Z)
    (acc : string) (prev n : Z) (sq : string) :
  0 <= overlap g ->
  (forall x s, x ∈ rest -> segments g !! Z.abs x = Some s ->
     String.length (reverse_sequence s) = String.length (forward_sequence s)
     /\ overlap g <= get_length s) ->
  get_path_sequence_from g acc prev rest = Ok sq ->
  path_length_from g n rest
  = Ok (n + (Z.of_nat (String.length sq) - Z.of_nat (String.length acc))
        + Z.of_nat (length rest) * overlap g).
Proof.
  intros Hov. revert acc prev n.
  induction rest as [|y rest IH]; intros acc prev n Hsegs; simpl.
  - intros [= <-]. f_equal. lia.
  - unfold getitem. destruct (segments g !! Z.abs y) as [s|] eqn:Es; simpl; [|done].
    destruct (forward_links g !! prev) as [links|]; simpl; [|done].
    destruct (assert (py_in y links)); simpl; [|done].
    destruct (if 0 <? overlap g then _ else _); simpl; [|done].
    intros Hsq.
    rewrite (IH _ _ _ (fun x s Hx => Hsegs x s (list_elem_of_further _ _ _ Hx)) Hsq).
    f_equal. rewrite length_string_app.
    destruct (Hsegs y s (list_elem_of_here _ _) Es) as [Hrev Hle].
    unfold get_length in *.
    assert (Z.of_nat (String.length
              (slice_from (if 0 <? y then forward_sequence s else reverse_sequence s)
                          (overlap g)))
            = Z.of_nat (String.length (forward_sequence s)) - overlap g) as Hsl.
    { destruct (0 <? y).
      - apply length_slice_from. lia.
      - rewrite length_slice_from; lia. }
    lia.
Qed.

(** X16: for a path that is not empty, in a graph whose overlap is not
    negative and whose segments on the path have two strands of the same
    length, at least as long as the overlap: when [get_path_sequence]
    returns a sequence, [get_path_length] is the length of that
    sequence. *)
Theorem get_path_length_of_sequence (g : AssemblyGraph) (path : list Z) (sq : string) :
  0 <= overlap g ->
  (forall x s, x ∈ path -> segments g !! Z.abs x = Some s ->
     String.length (reverse_sequence s) = String.length (forward_sequence s)
     /\ overlap g <= get_length s) ->
  path <> [] ->
  get_path_sequence g path = Ok sq ->
  get_path_length g path = Ok (Z.of_nat (String.length sq)).
Proof.
  intros Hov Hsegs Hne. destruct path as [|x rest]; [done|]. clear Hne.
  unfold get_path_sequence, get_path_length. simpl path_length_from.
  unfold getitem. destruct (segments g !! Z.abs x) as [s|] eqn:Es; simpl; [|done].
  intros Hsq.
  rewrite (get_path_sequence_from_length g rest _ x (0 + get_length s) sq Hov
             (fun y s' Hy => Hsegs y s' (list_elem_of_further _ _ _ Hy)) Hsq).
  f_equal. destruct (Hsegs x s (list_elem_of_here _ _) Es) as [Hrev Hle].
  unfold get_length in *. rewrite Nat2Z.inj_succ.
  destruct (0 <? x); lia.
Qed.

Lemma get_path_length_of_sequence_witness :
  exists sq,
    0 <= overlap merge_example
    /\ (forall x s, x ∈ [1; 2; 3] -> segments merge_example !! Z.abs x = Some s ->
          String.length (reverse_sequence s) = String.length (forward_sequence s)
          /\ overlap merge_example <= get_length s)
    /\ [1; 2; 3] <> []
    /\ get_path_sequence merge_example [1; 2; 3] = Ok sq
    /\ get_path_length merge_example [1; 2; 3] = Ok (Z.of_nat (String.length sq)).
Proof.
  assert (0 <= overlap merge_example) as H1 by (vm_compute; discriminate).
  assert (forall x s, x ∈ [1; 2; 3] -> segments merge_example !! Z.abs x = Some s ->
            String.length (reverse_sequence s) = String.length (forward_sequence s)
            /\ overlap merge_example <= get_length s) as H2.
  { intros x s Hx. rewrite list_elem_of_In in Hx. simpl in Hx.
    destruct Hx as [<-|[<-|[<-|[]]]]; vm_compute; intros [= <-];
      (split; [reflexivity|discriminate]). }
  assert ([1; 2; 3] <> @nil Z) as H3 by discriminate.
  destruct (get_path_sequence merge_example [1; 2; 3]) as [sq|e] eqn:E;
    [|vm_compute in E; discriminate E].
  exists sq.
  exact (conj H1 (conj H2 (conj H3 (conj eq_refl
    (get_path_length_of_sequence merge_example [1; 2; 3] sq H1 H2 H3 E))))).
Defined.

End PathLength.

Section SegmentDepth.

Lemma Qlt_bool_iff (x y : Q) : Qlt_bool x y = true <-> (x < y)%Q.
Proof.
  unfold Qlt_bool. rewrite negb_true_iff. split.
  - intros H. apply Qnot_le_lt. intros Hle. apply Qle_bool_iff in Hle. congruence.
  - intros H. destruct (Qle_bool y x) eqn:E; [|done].
    apply Qle_bool_iff in E. exfalso. by apply (Qlt_not_le x y).
Qed.

Lemma Qlt_bool_false (x y : Q) : Qlt_bool x y = false <-> (y <= x)%Q.
Proof.
  unfold Qlt_bool. rewrite negb_false_iff. apply Qle_bool_iff.
Qed.

Lemma py_max0_nonneg (x : Q) : (0 <= py_max0 x)%Q.
Proof.
  unfold py_max0. destruct (Qlt_bool 0 x) eqn:E; [|apply Qle_refl].
  apply Qlt_bool_iff in E. by apply Qlt_le_weak.
Qed.

Lemma closest_index_least (d : Q) (full l : list Q) (i best : nat) (best_key xb : Q) :
  full !! best = Some xb -> (Qabs (xb - d) == best_key)%Q ->
  (forall j y, (j < i)%nat -> full !! j = Some y -> (best_key <= Qabs (y - d))%Q) ->
  drop i full = l ->
  exists x, full !! closest_index d l i best best_key = Some x
            /\ forall y, y ∈ full -> (Qabs (x - d) <= Qabs (y - d))%Q.
Proof.
  revert i best best_key xb. induction l as [|x l IH]; intros i best bk xb Hb Hk Hlow Hdrop.
  - simpl. exists xb. split; [done|]. intros y Hy.
    apply list_elem_of_lookup in Hy as [j Hj]. rewrite Hk.
    apply (Hlow j y); [|done].
    apply lookup_lt_Some in Hj.
    assert (length (drop i full) = 0%nat) as Hlen by (by rewrite Hdrop).
    rewrite length_drop in Hlen. lia.
  - assert (full !! i = Some x) as Hi.
    { assert (drop i full !! 0%nat = Some x) as H0 by (by rewrite Hdrop).
      rewrite lookup_drop in H0. by rewrite Nat.add_0_r in H0. }
    assert (drop (S i) full = l) as Hdrop'.
    { assert (drop 1 (drop i full) = l) as H1 by (by rewrite Hdrop).
      rewrite drop_drop in H1. by replace (i + 1)%nat with (S i) in H1 by lia. }
    cbn [closest_index]. destruct (Qlt_bool (Qabs (x - d)) bk) eqn:E.
    + apply Qlt_bool_iff in E. apply (IH (S i) i _ x); [done|reflexivity| |done].
      intros j y Hj Hy. destruct (decide (j = i)) as [->|Hne].
      * rewrite Hi in Hy. injection Hy as <-. apply Qle_refl.
      * apply Qle_trans with bk; [by apply Qlt_le_weak|]. apply (Hlow j); [lia|done].
    + apply Qlt_bool_false in E. apply (IH (S i) best bk xb); [done|done| |done].
      intros j y Hj Hy. destruct (decide (j = i)) as [->|Hne].
      * rewrite Hi in Hy. by injection Hy as <-.
      * apply (Hlow j); [lia|done].
Qed.

Lemma remove_closest_spec (d : Q) (l : list Q) :
  l <> [] ->
  exists l1 x l2, l = l1 ++ x :: l2 /\ remove_closest d l = l1 ++ l2
                  /\ forall y, y ∈ l -> (Qabs (x - d) <= Qabs (y - d))%Q.
Proof.
  intros Hne. destruct l as [|x0 l]; [done|]. unfold remove_closest.
  destruct (closest_index_least d (x0 :: l) l 1 0 (Qabs (x0 - d)) x0) as (x & Hx & Hmin).
  - done.
  - reflexivity.
  - intros j y Hj Hy. assert (j = 0%nat) as -> by lia. injection Hy as <-. apply Qle_refl.
  - done.
  - set (r := closest_index d l 1 0 (Qabs (x0 - d))) in *.
    exists (take r (x0 :: l)), x, (drop (S r) (x0 :: l)).
    split; [by rewrite take_drop_middle|]. split; [|done].
    apply delete_take_drop.
Qed.

(** X17: [remove_segment_depth] leaves the graph alone when the segment
    is not there.  Otherwise the segment's depth goes down by the given
    amount but not below 0, the other segments and their copy depths stay,
    the links stay, and a list of copy depths that is not empty loses
    exactly one entry: one that is nearest to the removed depth. *)
Theorem remove_segment_depth_spec (seg_num : Z) (depth_to_remove : Q) (g : AssemblyGraph) :
  let g' := remove_segment_depth seg_num depth_to_remove g in
  (segments g !! Z.abs seg_num = None -> g' = g)
  /\ (forall s, segments g !! Z.abs seg_num = Some s ->
        segments g' !! Z.abs seg_num
          = Some (set_depth s (py_max0 (depth s - depth_to_remove)))
        /\ (0 <= py_max0 (depth s - depth_to_remove))%Q
        /\ (forall k, k <> Z.abs seg_num ->
              segments g' !! k = segments g !! k
              /\ copy_depths g' !! k = copy_depths g !! k)
        /\ (forall l, copy_depths g !! Z.abs seg_num = Some l -> l <> [] ->
              exists l1 x l2,
                l = l1 ++ x :: l2
                /\ copy_depths g' !! Z.abs seg_num = Some (l1 ++ l2)
                /\ forall y, y ∈ l ->
                     (Qabs (x - depth_to_remove) <= Qabs (y - depth_to_remove))%Q))
  /\ forward_links g' = forward_links g /\ reverse_links g' = reverse_links g
  /\ paths g' = paths g.
Proof.
  simpl. split; [|split; [|split; [|split]]].
  - intros H. unfold remove_segment_depth. by rewrite H.
  - intros s Hs. unfold remove_segment_depth. rewrite Hs.
    split; [|split; [apply py_max0_nonneg|split]].
    + destruct (copy_depths g !! Z.abs seg_num) as [[|x l]|]; simpl;
        by rewrite lookup_insert_eq.
    + intros k Hk.
      destruct (copy_depths g !! Z.abs seg_num) as [[|x l]|]; simpl;
        rewrite ?lookup_insert_ne by done; done.
    + intros l Hl Hne. rewrite Hl.
      destruct (remove_closest_spec depth_to_remove l Hne) as (l1 & x & l2 & E & Hr & Hmin).
      exists l1, x, l2. split; [done|]. split; [|done].
      destruct l as [|x0 l]; [done|]. unfold set_copy_depths. cbn [copy_depths].
      by rewrite lookup_insert_eq, Hr.
  - apply remove_segment_depth_links.
  - apply remove_segment_depth_links.
  - apply remove_segment_depth_paths.
Qed.

Lemma remove_segment_depth_spec_witness :
  segments scenario5 !! Z.abs (- 9) = None
  /\ remove_segment_depth (- 9) 5 scenario5 = scenario5
  /\ exists s, segments scenario5 !! Z.abs (- 2) = Some s
       /\ segments (remove_segment_depth (- 2) 5 scenario5) !! Z.abs (- 2)
          = Some (set_depth s (py_max0 (depth s - 5))).
Proof.
  assert (segments scenario5 !! Z.abs (- 9) = None) as H by (vm_compute; reflexivity).
  split; [exact H|].
  split; [exact (proj1 (remove_segment_depth_spec (- 9) 5 scenario5) H)|].
  destruct (segments scenario5 !! Z.abs (- 2)) as [s|] eqn:E;
    [|vm_compute in E; discriminate E].
  exists s. split; [reflexivity|].
  exact (proj1 (proj1 (proj2 (remove_segment_depth_spec (- 2) 5 scenario5)) s E)).
Defined.

(** X18: [get_next_available_seg_number] raises [ValueError] on a graph
    without segments; otherwise the number it returns is one more than a
    number in use, greater than every number in use and so itself not in
    use. *)
Theorem get_next_available_seg_number_fresh (g : AssemblyGraph) :
  (segments g = ∅ -> get_next_available_seg_number g = Raise ValueError)
  /\ (segments g <> ∅ ->
      exists n, get_next_available_seg_number g = Ok n
                /\ is_Some (segments g !! (n - 1))
                /\ segments g !! n = None
                /\ forall k, is_Some (segments g !! k) -> k < n).
Proof.
  unfold get_next_available_seg_number, max_key. split.
  - intros ->. by rewrite map_to_list_empty.
  - intros Hne.
    assert (forall l : list Z, l <> [] ->
              exists M, foldr (fun k acc => Some (match acc with
                                                  | Some a => Z.max k a | None => k end))
                              None l = Some M
                        /\ M ∈ l /\ forall k, k ∈ l -> k <= M) as Hmax.
    { induction l as [|x l IH]; intros Hl; [done|]. simpl.
      destruct l as [|y l].
      - simpl. exists x. split; [done|]. split; [left|].
        intros k Hk. apply list_elem_of_singleton in Hk. lia.
      - destruct IH as (M & -> & HM & Hle); [done|].
        exists (Z.max x M). split; [done|]. split.
        + destruct (Z.max_spec x M) as [[_ ->]|[_ ->]]; [by right|left].
        + intros k [->|Hk]%elem_of_cons; [lia|]. specialize (Hle k Hk). lia. }
    destruct (Hmax (map_to_list (segments g)).*1) as (M & -> & HM & Hle).
    { intros H. apply fmap_nil_inv in H. by apply map_to_list_empty_iff in H. }
    assert (forall k, is_Some (segments g !! k) -> k <= M) as Hle'.
    { intros k [v Hv]. apply Hle. apply list_elem_of_fmap. exists (k, v).
      split; [done|]. by apply elem_of_map_to_list. }
    exists (M + 1). split; [done|]. split; [|split].
    + replace (M + 1 - 1) with M by lia.
      apply list_elem_of_fmap in HM as ([k v] & -> & Hkv).
      apply elem_of_map_to_list in Hkv. by eexists.
    + destruct (segments g !! (M + 1)) as [v|] eqn:E; [|done].
      assert (M + 1 <= M) by (apply Hle'; by eexists). lia.
    + intros k Hk. specialize (Hle' k Hk). lia.
Qed.

Lemma get_next_available_seg_number_fresh_witness :
  segments scenario5 <> ∅
  /\ exists n, get_next_available_seg_number scenario5 = Ok n
               /\ is_Some (segments scenario5 !! (n - 1))
               /\ segments scenario5 !! n = None
               /\ forall k, is_Some (segments scenario5 !! k) -> k < n.
Proof.
  assert (segments scenario5 <> ∅) as H.
  { intros E. assert (segments scenario5 !! 1 = None) as E' by (by rewrite E).
    vm_compute in E'. discriminate E'. }
  split; [exact H|].
  exact (proj2 (get_next_available_seg_number_fresh scenario5) H).
Defined.

End SegmentDepth.

Section MedianDepth.

Lemma insert_by_depth_elem (s x : Segment) (l : list Segment) :
  x ∈ insert_by_depth s l <-> x = s \/ x ∈ l.
Proof.
  induction l as [|y l IH]; simpl.
  - rewrite list_elem_of_singleton. split; [by left|]. intros [?|H]; [done|].
    by apply not_elem_of_nil in H.
  - destruct (Qlt_bool (depth y) (depth s)).
    + rewrite !elem_of_cons, IH. tauto.
    + rewrite !elem_of_cons. tauto.
Qed.

Lemma sorted_by_depth_elem (x : Segment) (l : list Segment) :
  x ∈ sorted_by_depth l <-> x ∈ l.
Proof.
  induction l as [|y l IH]; simpl; [done|].
  rewrite insert_by_depth_elem, elem_of_cons, IH. done.
Qed.

Lemma total_length_nonneg (ov : Z) (l : list Segment) (acc : Z) :
  (forall s, s ∈ l -> 0 <= get_length_no_overlap s ov) -> 0 <= acc ->
  0 <= foldl (fun acc s => acc + get_length_no_overlap s ov) acc l.
Proof.
  revert acc. induction l as [|y l IH]; intros acc Hl Hacc; simpl; [done|].
  apply IH; [intros s Hs; apply Hl; by right|].
  assert (0 <= get_length_no_overlap y ov) by (apply Hl; left). lia.
Qed.

Lemma median_scan_elem (ov halfway : Z) (l : list Segment) (length_so_far : Z) :
  l <> [] ->
  halfway <= foldl (fun acc s => acc + get_length_no_overlap s ov) length_so_far l ->
  exists s, s ∈ l /\ median_scan ov halfway length_so_far l = depth s.
Proof.
  revert length_so_far. induction l as [|y l IH]; intros sofar Hne Hhalf; [done|].
  simpl in *. destruct (halfway <=? sofar + get_length_no_overlap y ov) eqn:E.
  - exists y. split; [left|done].
  - apply Z.leb_gt in E. destruct l as [|z l]; [simpl in Hhalf; lia|].
    destruct (IH (sofar + get_length_no_overlap y ov)) as (s & Hs & Hm); [done|done|].
    exists s. split; [by right|done].
Qed.

Lemma median_of_list (g : AssemblyGraph) (l : list Segment) :
  l <> [] -> (forall s, s ∈ l -> overlap g <= get_length s) ->
  exists s, s ∈ l
    /\ median_scan (overlap g)
         (foldl (fun acc s => acc + get_length_no_overlap s (overlap g)) 0
                (sorted_by_depth l) `div` 2)
         0 (sorted_by_depth l) = depth s.
Proof.
  intros Hne Hlen.
  assert (0 <= foldl (fun acc s => acc + get_length_no_overlap s (overlap g)) 0
                     (sorted_by_depth l)) as Htot.
  { apply total_length_nonneg; [|done]. intros s Hs.
    rewrite sorted_by_depth_elem in Hs. specialize (Hlen s Hs). unfold get_length_no_overlap. lia. }
  destruct (median_scan_elem (overlap g)
              (foldl (fun acc s => acc + get_length_no_overlap s (overlap g)) 0
                     (sorted_by_depth l) `div` 2)
              (sorted_by_depth l) 0) as (s & Hs & Hm).
  - destruct l as [|y l]; [done|]. intros E.
    assert (y ∈ sorted_by_depth (y :: l)) as Hy by (apply sorted_by_depth_elem; left).
    rewrite E in Hy. by apply not_elem_of_nil in Hy.
  - apply Z.div_le_upper_bound; lia.
  - exists s. split; [by apply sorted_by_depth_elem|done].
Qed.

(** X19: the median read depth is the depth of one of the segments it is
    taken over (the given list, or all segments of the graph when no list
    or an empty one is given), provided there is a segment and no segment is
    shorter than the overlap.  On a graph without segments it is 0. *)
Theorem get_median_read_depth_is_a_depth (g : AssemblyGraph) :
  (forall l, l <> [] -> (forall s, s ∈ l -> overlap g <= get_length s) ->
     exists s, s ∈ l /\ get_median_read_depth g (Some l) = depth s)
  /\ (segments g <> ∅ ->
      (forall k s, segments g !! k = Some s -> overlap g <= get_length s) ->
      exists k s, segments g !! k = Some s
        /\ get_median_read_depth g None = depth s
        /\ get_median_read_depth g (Some []) = depth s)
  /\ (segments g = ∅ -> get_median_read_depth g None = 0%Q).
Proof.
  split; [|split].
  - intros l Hne Hlen. destruct l as [|y l]; [done|].
    by apply median_of_list.
  - intros Hne Hlen.
    destruct (median_of_list g (map_to_list (segments g)).*2) as (s & Hs & Hm).
    + intros H. apply fmap_nil_inv in H. by apply map_to_list_empty_iff in H.
    + intros s Hs. apply list_elem_of_fmap in Hs as ([k v] & -> & Hkv).
      apply elem_of_map_to_list in Hkv. by apply (Hlen k).
    + apply list_elem_of_fmap in Hs as ([k v] & -> & Hkv).
      apply elem_of_map_to_list in Hkv. exists k, v. done.
  - intros H. unfold get_median_read_depth. rewrite H, map_to_list_empty. done.
Qed.

Lemma get_median_read_depth_is_a_depth_witness :
  segments merge_example <> ∅
  /\ (forall k s, segments merge_example !! k = Some s ->
        overlap merge_example <= get_length s)
  /\ exists k s, segments merge_example !! k = Some s
       /\ get_median_read_depth merge_example None = depth s.
Proof.
  assert (segments merge_example <> ∅) as H.
  { intros E. assert (segments merge_example !! 1 = None) as E' by (by rewrite E).
    vm_compute in E'. discriminate E'. }
  assert (forall k s, segments merge_example !! k = Some s ->
            overlap merge_example <= get_length s) as H'.
  { assert (forallb (fun s => overlap merge_example <=? get_length s)
              (map_to_list (segments merge_example)).*2 = true) as Hall
      by (vm_compute; reflexivity).
    rewrite forallb_forall in Hall. intros k s Hs. apply Z.leb_le, Hall.
    apply list_elem_of_In, list_elem_of_fmap. exists (k, s). split; [done|].
    by apply elem_of_map_to_list. }
  destruct (proj1 (proj2 (get_median_read_depth_is_a_depth merge_example)) H H')
    as (k & s & Hs & Hm & _).
  split; [exact H|]. split; [exact H'|]. exists k, s. split; [exact Hs|exact Hm].
Defined.

End MedianDepth.

Section ScaleAndShuffle.

Lemma insert_desc_perm (x : Q) (l : list Q) : insert_desc x l ≡ₚ x :: l.
Proof.
  induction l as [|y l IH]; simpl; [done|].
  destruct (Qlt_bool x y); [|done]. rewrite IH. apply Permutation_swap.
Qed.

Lemma sorted_desc_perm (l : list Q) : sorted_desc l ≡ₚ l.
Proof.
  induction l as [|x l IH]; simpl; [done|]. by rewrite insert_desc_perm, IH.
Qed.

Lemma insert_desc_sorted (x : Q) (l : list Q) :
  descending l -> descending (insert_desc x l).
Proof.
  induction l as [|y l IH]; simpl; intros Hl.
  - split; [constructor|done].
  - destruct Hl as [Hy Hl]. destruct (Qlt_bool x y) eqn:E.
    + apply Qlt_bool_iff in E. split; [|by apply IH].
      apply Forall_forall. intros z Hz.
      rewrite insert_desc_perm in Hz. rewrite Forall_forall in Hy.
      apply elem_of_cons in Hz as [->|Hz]; [by apply Qlt_le_weak|by apply Hy].
    + apply Qlt_bool_false in E. split; [|done].
      constructor; [done|]. eapply Forall_impl; [exact Hy|].
      intros z Hz. by apply Qle_trans with y.
Qed.

Lemma sorted_desc_sorted (l : list Q) : descending (sorted_desc l).
Proof.
  induction l as [|x l IH]; simpl; [done|]. by apply insert_desc_sorted.
Qed.

(** X20: [scale_copy_depths] raises [ZeroDivisionError] when its sum of the
    source depths is 0.  Otherwise it returns the source depths, each
    multiplied by the one factor target / sum, in descending order, as many
    as there were, and the error it reports is that of the unscaled sum
    against the target. *)
Theorem scale_copy_depths_scaled (target_depth : Q) (source_depths : list Q) :
  ((Qsum source_depths == 0)%Q ->
   scale_copy_depths target_depth source_depths = Raise ZeroDivisionError)
  /\ (~ (Qsum source_depths == 0)%Q ->
      exists scaled_depths,
        scale_copy_depths target_depth source_depths
          = Ok (scaled_depths, get_error (Qsum source_depths) target_depth)
        /\ scaled_depths
           ≡ₚ map (fun x => (target_depth / Qsum source_depths) * x)%Q source_depths
        /\ descending scaled_depths
        /\ length scaled_depths = length source_depths).
Proof.
  unfold scale_copy_depths, py_div. split.
  - intros Hsum. apply Qeq_bool_iff in Hsum. by rewrite Hsum.
  - intros Hsum. destruct (Qeq_bool (Qsum source_depths) 0) eqn:E.
    { apply Qeq_bool_iff in E. done. }
    simpl. eexists. split; [done|].
    split; [apply sorted_desc_perm|]. split; [apply sorted_desc_sorted|].
    rewrite (Permutation_length (sorted_desc_perm _)). apply length_map.
Qed.

Lemma scale_copy_depths_scaled_witness :
  ~ (Qsum [3%Q; 1%Q; 4%Q] == 0)%Q
  /\ exists scaled_depths,
       scale_copy_depths 16%Q [3%Q; 1%Q; 4%Q]
         = Ok (scaled_depths, get_error (Qsum [3%Q; 1%Q; 4%Q]) 16%Q)
       /\ descending scaled_depths
       /\ length scaled_depths = length [3%Q; 1%Q; 4%Q].
Proof.
  assert (~ (Qsum [3%Q; 1%Q; 4%Q] == 0)%Q) as H by (vm_compute; discriminate).
  destruct (proj2 (scale_copy_depths_scaled 16%Q [3%Q; 1%Q; 4%Q]) H)
    as (l & E & _ & Hd & Hs).
  split; [exact H|]. exists l. exact (conj E (conj Hd Hs)).
Defined.

End ScaleAndShuffle.

Section ShuffleIntoBins.

Lemma concat_alter_snoc (item : Q) (i : nat) (bins : list (list Q)) :
  (i < length bins)%nat ->
  concat (alter (fun b => b ++ [item]) i bins) ≡ₚ item :: concat bins.
Proof.
  revert i. induction bins as [|b bins IH]; intros i Hi; simpl in Hi; [lia|].
  destruct i as [|i].
  - change (concat ((b ++ [item]) :: bins) ≡ₚ item :: concat (b :: bins)).
    cbn [concat]. rewrite <- app_assoc. symmetry. apply Permutation_middle.
  - change (concat (b :: alter (fun b => b ++ [item]) i bins)
            ≡ₚ item :: concat (b :: bins)).
    cbn [concat]. rewrite IH by lia. symmetry. apply Permutation_middle.
Qed.

Lemma arrangement_ok_spec (bins : list (list Q)) (targets : list (option nat)) :
  arrangement_ok bins targets = true ->
  Forall (fun b => b <> []) bins
  /\ forall i t, targets !! i = Some (Some (S t)) ->
       length <$> bins !! i = Some (S t).
Proof.
  unfold arrangement_ok. rewrite andb_true_iff, !forallb_forall.
  intros [H1 H2]. split.
  - apply Forall_forall. intros b Hb. apply list_elem_of_In in Hb.
    specialize (H1 b Hb). apply negb_true_iff, bool_decide_eq_false in H1. done.
  - intros i t Ht.
    specialize (H2 (i, Some (S t))). simpl in H2.
    symmetry. eapply bool_decide_eq_true_1, H2.
    apply list_elem_of_In, list_elem_of_lookup. exists i.
    rewrite list_lookup_imap, Ht. done.
Qed.

(** X21: every arrangement returned by [shuffle_into_bins] has as many
    bins as were given, each bin still starting with what it held, none of
    them empty, every bin with a target holding exactly that many items, and
    all together holding the old contents and the items, each item once. *)
Theorem shuffle_into_bins_sound (items : list Q) (bins : list (list Q))
    (targets : list (option nat)) (arrangement : list (list Q)) :
  (length targets <= length bins)%nat ->
  arrangement ∈ shuffle_into_bins items bins targets ->
  length arrangement = length bins
  /\ Forall (fun b => b <> []) arrangement
  /\ (forall i t, targets !! i = Some (Some (S t)) ->
        length <$> arrangement !! i = Some (S t))
  /\ (forall i b, bins !! i = Some b ->
        exists added, arrangement !! i = Some (b ++ added))
  /\ concat arrangement ≡ₚ concat bins ++ items.
Proof.
  revert bins. induction items as [|item items IH]; intros bins Hlen; simpl.
  - destruct (arrangement_ok bins targets) eqn:E.
    + intros ->%list_elem_of_singleton.
      destruct (arrangement_ok_spec _ _ E) as [H1 H2].
      split; [done|]. split; [done|]. split; [done|].
      split; [|by rewrite app_nil_r].
      intros i b Hb. exists []. by rewrite app_nil_r.
    + intros H. by apply not_elem_of_nil in H.
  - intros H. apply list_elem_of_In, in_flat_map in H as (i & Hi & H).
    apply in_seq in Hi. apply list_elem_of_In in H.
    destruct (IH (alter (fun b => b ++ [item]) i bins)) as (A1 & A2 & A3 & A4 & A5);
      [by rewrite length_alter|done|].
    rewrite length_alter in A1.
    split; [done|]. split; [done|]. split; [done|]. split.
    + intros j b Hb. destruct (decide (i = j)) as [->|Hne].
      * destruct (A4 j (b ++ [item])) as (added & Ha).
        { by rewrite list_lookup_alter_eq, Hb. }
        exists ([item] ++ added). by rewrite app_assoc.
      * apply A4. by rewrite list_lookup_alter_ne.
    + rewrite A5, concat_alter_snoc by lia.
      rewrite (Permutation_middle (concat bins) items item). done.
Qed.

Lemma shuffle_into_bins_sound_witness :
  (length [None; Some 1%nat] <= length [@nil Q; @nil Q])%nat
  /\ ([[1%Q; 3%Q]; [2%Q]] ∈ shuffle_into_bins [1%Q; 2%Q; 3%Q] [[]; []] [None; Some 1%nat])
  /\ length [[1%Q; 3%Q]; [2%Q]] = length [@nil Q; @nil Q]
  /\ concat [[1%Q; 3%Q]; [2%Q]] ≡ₚ concat [@nil Q; @nil Q] ++ [1%Q; 2%Q; 3%Q].
Proof.
  assert (length [None; Some 1%nat] <= length [@nil Q; @nil Q])%nat as H by (simpl; lia).
  assert ([[1%Q; 3%Q]; [2%Q]]
          ∈ shuffle_into_bins [1%Q; 2%Q; 3%Q] [[]; []] [None; Some 1%nat]) as H'.
  { apply list_elem_of_In. vm_compute. tauto. }
  destruct (shuffle_into_bins_sound [1%Q; 2%Q; 3%Q] [[]; []] [None; Some 1%nat]
              [[1%Q; 3%Q]; [2%Q]] H H') as (A1 & _ & _ & _ & A5).
  exact (conj H (conj H' (conj A1 A5))).
Defined.

End ShuffleIntoBins.

Section LoadedLinks.

Implicit Types d links : list (Z * list Z).

Lemma od_get_lookup d (k : Z) :
  od_get d k = (list_to_map d : gmap Z (list Z)) !! k.
Proof.
  induction d as [|[k' l] d IH]; simpl; [done|].
  case_decide as E.
  - subst. by rewrite lookup_insert_eq.
  - by rewrite lookup_insert_ne.
Qed.

Lemma od_update_map (k : Z) (f : list Z -> list Z) d :
  (list_to_map (od_update k f d) : gmap Z (list Z))
  = <[k := f (default [] ((list_to_map d : gmap Z (list Z)) !! k))]> (list_to_map d).
Proof.
  induction d as [|[k' l] d IH]; simpl.
  - by rewrite lookup_empty.
  - case_decide as E.
    + subst. simpl. by rewrite lookup_insert_eq, insert_insert_eq.
    + simpl. rewrite IH, lookup_insert_ne by done. by apply insert_insert_ne.
Qed.

Lemma od_update_keys (k : Z) (f : list Z -> list Z) d :
  NoDup d.*1 -> NoDup (od_update k f d).*1
  /\ forall k', (k' ∈ (od_update k f d).*1) <-> k' = k \/ k' ∈ d.*1.
Proof.
  induction d as [|[k' l] d IH]; simpl; intros Hnd.
  - split; [apply NoDup_singleton|]. intros x. rewrite list_elem_of_singleton.
    split; [by left|]. intros [?|H]; [done|]. by apply not_elem_of_nil in H.
  - apply NoDup_cons in Hnd as [Hk' Hnd]. destruct (IH Hnd) as [IH1 IH2].
    case_decide as E; simpl.
    + subst. split; [by apply NoDup_cons|]. intros x. rewrite elem_of_cons. tauto.
    + split.
      * apply NoDup_cons. split; [|done]. rewrite IH2. intros [?|?]; done.
      * intros x. rewrite !elem_of_cons, IH2. tauto.
Qed.

Lemma od_add_rc_map (start end_ : Z) d :
  (list_to_map (od_update (- end_)
     (fun l => if py_in (- start) l then l else l ++ [- start]) d) : gmap Z (list Z))
  = link_add (- end_) (- start) (list_to_map d).
Proof.
  rewrite od_update_map. unfold link_add.
  by destruct (py_in (- start) (default [] (list_to_map d !! (- end_)))).
Qed.

Lemma link_append_count (k v : Z) (m : gmap Z (list Z)) (k' x : Z) :
  link_count (<[k := default [] (m !! k) ++ [v]]> m) k' x
  = (link_count m k' x + if decide (k' = k /\ x = v) then 1 else 0)%nat.
Proof.
  unfold link_count. destruct (decide (k' = k)) as [->|Hne].
  - rewrite links_of_insert_eq, count_in_app. fold (links_of m k).
    unfold count_in at 2. simpl.
    destruct (decide (x = v)) as [->|Hx].
    + rewrite bool_decide_eq_true_2, decide_True by done. done.
    + rewrite bool_decide_eq_false_2 by done.
      rewrite decide_False by (intros [_ ?]; done). done.
  - rewrite links_of_insert_ne by done.
    rewrite decide_False by (intros [? _]; done). lia.
Qed.

Lemma rc_step (m0 m : gmap Z (list Z)) (start end_ : Z) :
  rc_bounds m0 m -> (0 < link_count m start end_)%nat ->
  rc_bounds m0 (link_add (- end_) (- start) m)
  /\ (forall a b, (link_count m a b
                   <= link_count (link_add (- end_) (- start) m) a b)%nat)
  /\ (1 <= link_count (link_add (- end_) (- start) m) (- end_) (- start))%nat.
Proof.
  intros Hb Hpos.
  assert (forall a b, (link_count m a b
                       <= link_count (link_add (- end_) (- start) m) a b)%nat) as Hmono.
  { intros a b. rewrite link_add_count. case_decide as E; [|done].
    destruct E as [-> ->]. lia. }
  split; [|split; [done|]].
  - intros a b. destruct (Hb a b) as [H1 H2]. split; [specialize (Hmono a b); lia|].
    rewrite link_add_count. case_decide as E; [|done]. destruct E as [-> ->].
    rewrite !Z.opp_involutive.
    destruct (Hb start end_) as [_ H3].
    destruct (Hb (- end_) (- start)) as [_ H4].
    rewrite !Z.opp_involutive in H4. lia.
  - rewrite link_add_count, decide_True by done. lia.
Qed.

Lemma rc_inner (m0 : gmap Z (list Z)) (start : Z) (ends : list Z) d :
  rc_bounds m0 (list_to_map d) ->
  (forall e, e ∈ ends -> (0 < link_count (list_to_map d) start e)%nat) ->
  NoDup d.*1 ->
  let d' := foldl (fun new_links end_ =>
                     od_update (- end_)
                       (fun l => if py_in (- start) l then l else l ++ [- start])
                       new_links) d ends in
  rc_bounds m0 (list_to_map d')
  /\ (forall a b, (link_count (list_to_map d) a b <= link_count (list_to_map d') a b)%nat)
  /\ (forall e, e ∈ ends -> (1 <= link_count (list_to_map d') (- e) (- start))%nat)
  /\ NoDup d'.*1
  /\ (forall k, k ∈ d.*1 -> k ∈ d'.*1).
Proof.
  revert d. induction ends as [|e ends IH]; intros d Hb Hin Hnd; simpl.
  - split; [done|]. split; [done|]. split; [|done].
    intros e He. by apply not_elem_of_nil in He.
  - destruct (rc_step m0 (list_to_map d) start e Hb) as (S1 & S2 & S3);
      [apply Hin; left|].
    rewrite <- od_add_rc_map in S1, S2, S3.
    destruct (od_update_keys (- e)
                (fun l => if py_in (- start) l then l else l ++ [- start]) d Hnd)
      as [K1 K2].
    destruct (IH _ S1) as (I1 & I2 & I3 & I4 & I5); [|done|].
    { intros e' He'. eapply Nat.lt_le_trans; [|apply S2]. apply Hin. by right. }
    split; [done|]. split; [intros a b; etrans; [apply S2|apply I2]|].
    split; [|split; [done|]].
    + intros e' [->|He']%elem_of_cons; [|by apply I3].
      etrans; [exact S3|apply I2].
    + intros k Hk. apply I5, K2. by right.
Qed.

Lemma rc_outer (m0 : gmap Z (list Z)) (keys : list Z) d :
  rc_bounds m0 (list_to_map d) -> NoDup d.*1 ->
  let d' := foldl (fun new_links start =>
                     foldl (fun new_links end_ =>
                              od_update (- end_)
                                (fun l => if py_in (- start) l then l else l ++ [- start])
                                new_links)
                           new_links (default [] (od_get new_links start)))
                  d keys in
  rc_bounds m0 (list_to_map d')
  /\ (forall a b, (link_count (list_to_map d) a b <= link_count (list_to_map d') a b)%nat)
  /\ (forall s e, s ∈ keys -> (0 < link_count m0 s e)%nat ->
        (1 <= link_count (list_to_map d') (- e) (- s))%nat)
  /\ NoDup d'.*1
  /\ (forall k, k ∈ d.*1 -> k ∈ d'.*1).
Proof.
  revert d. induction keys as [|s keys IH]; intros d Hb Hnd; simpl.
  - split; [done|]. split; [done|]. split; [|done].
    intros s e Hs. by apply not_elem_of_nil in Hs.
  - assert (forall e, e ∈ default [] (od_get d s) <->
                      (0 < link_count (list_to_map d) s e)%nat) as Hlive.
    { intros e. rewrite od_get_lookup. apply count_in_elem. }
    destruct (rc_inner m0 s (default [] (od_get d s)) d Hb) as (I1 & I2 & I3 & I4 & I5);
      [intros e He; by apply Hlive|done|].
    destruct (IH _ I1 I4) as (O1 & O2 & O3 & O4 & O5).
    split; [done|]. split; [intros a b; etrans; [apply I2|apply O2]|].
    split; [|split; [done|]].
    + intros s' e [->|Hs']%elem_of_cons Hpos; [|by apply O3].
      etrans; [|apply O2]. apply I3, Hlive.
      destruct (Hb s e) as [Hlow _]. lia.
    + intros k Hk. by apply O5, I5.
Qed.

Lemma build_reverse_inner (start : Z) (ends : list Z) d (a b : Z) :
  link_count (list_to_map
    (foldl (fun reverse_links end_ => od_update end_ (fun l => l ++ [start]) reverse_links)
           d ends)) b a
  = (link_count (list_to_map d) b a
     + if decide (a = start) then count_in b ends else 0)%nat.
Proof.
  revert d. induction ends as [|e ends IH]; intros d; simpl.
  - rewrite count_in_nil. case_decide; lia.
  - rewrite IH, od_update_map, link_append_count, count_in_cons.
    destruct (decide (a = start)) as [->|Ha].
    + destruct (decide (b = e)) as [->|Hb].
      * rewrite !decide_True by done. lia.
      * rewrite decide_False by (intros [? _]; done).
        rewrite (decide_False (P := e = b)) by done. lia.
    + rewrite decide_False by (intros [_ ?]; done). lia.
Qed.

Lemma build_reverse_count d (acc : list (Z * list Z)) (a b : Z) :
  NoDup d.*1 ->
  link_count (list_to_map
    (foldl (fun reverse_links item =>
              foldl (fun reverse_links end_ =>
                       od_update end_ (fun l => l ++ [item.1]) reverse_links)
                    reverse_links item.2)
           acc d)) b a
  = (link_count (list_to_map acc) b a + link_count (list_to_map d) a b)%nat.
Proof.
  revert acc. induction d as [|[s ends] d IH]; intros acc Hnd; simpl.
  - unfold link_count at 3, links_of. rewrite lookup_empty. simpl.
    rewrite count_in_nil. lia.
  - apply NoDup_cons in Hnd as [Hs Hnd].
    rewrite IH, build_reverse_inner by done.
    unfold link_count at 4. destruct (decide (a = s)) as [->|Ha].
    + rewrite links_of_insert_eq.
      assert (link_count (list_to_map d) s b = 0%nat) as ->; [|lia].
      unfold link_count, links_of.
      rewrite (not_elem_of_list_to_map_1 d s Hs). simpl. apply count_in_nil.
    + rewrite links_of_insert_ne by done. fold (link_count (list_to_map d) a b). lia.
Qed.

(** X22: the two functions that complete the link tables of a loaded
    graph, [build_rc_links_if_necessary] followed by [build_reverse_links].
    When the dictionary read from the file lists no link twice, the tables
    they give are well formed: no link is listed twice, every link has its
    twin, and the reverse table is the mirror of the forward table.  The
    links are those that were read and their twins. *)
Theorem loaded_link_tables_ok (links : list (Z * list Z)) (g : AssemblyGraph) :
  NoDup links.*1 ->
  (forall k l, (k, l) ∈ links -> NoDup l) ->
  forward_links g = list_to_map (build_rc_links_if_necessary links) ->
  reverse_links g
    = list_to_map (build_reverse_links (build_rc_links_if_necessary links)) ->
  link_tables_ok g
  /\ forall a b, has_link g a b
       <-> od_has_link links a b \/ od_has_link links (- b) (- a).
Proof.
  intros Hnd Hlists Hf Hr.
  set (m0 := (list_to_map links : gmap Z (list Z))).
  assert (forall a b, (link_count m0 a b <= 1)%nat) as Hone.
  { intros a b. unfold link_count, links_of, m0.
    destruct (list_to_map links !! a) as [l|] eqn:E; simpl;
      [|unfold count_in; simpl; lia].
    apply elem_of_list_to_map_2 in E. apply Hlists in E.
    clear -E. induction E as [|x l Hx _ IH]; [rewrite count_in_nil; lia|].
    rewrite count_in_cons. case_decide as Hb; [|lia]. subst.
    assert (count_in b l = 0%nat) as ->; [|lia].
    destruct (count_in b l) eqn:Hc; [done|].
    exfalso. apply Hx, count_in_elem. lia. }
  assert (forall s e, (0 < link_count m0 s e)%nat -> s ∈ links.*1) as Hkey.
  { intros s e Hpos. unfold link_count, links_of, m0 in Hpos.
    destruct (list_to_map links !! s) as [l|] eqn:E; simpl in Hpos;
      [|unfold count_in in Hpos; simpl in Hpos; lia].
    apply elem_of_list_to_map_2 in E. apply list_elem_of_fmap. by exists (s, l). }
  destruct (rc_outer m0 links.*1 links) as (B & M & T & K & _); [|done|].
  { intros a b. fold m0. split; lia. }
  fold (build_rc_links_if_necessary links) in B, M, T, K.
  set (f := build_rc_links_if_necessary links) in *.
  assert (forall a b, link_count (list_to_map f) a b
            = if decide (0 < link_count m0 a b \/ 0 < link_count m0 (- b) (- a))%nat
              then 1%nat else 0%nat) as Hcount.
  { intros a b. destruct (B a b) as [B1 B2].
    pose proof (Hone a b). pose proof (Hone (- b) (- a)).
    case_decide as E; [|lia].
    destruct E as [E|E]; [lia|].
    pose proof (T (- b) (- a) (Hkey _ _ E) E) as HT.
    rewrite !Z.opp_involutive in HT. lia. }
  assert (forall a b, link_count (reverse_links g) b a = link_count (list_to_map f) a b)
    as Hrev.
  { intros a b. rewrite Hr. unfold build_reverse_links.
    rewrite build_reverse_count by done.
    assert (link_count (list_to_map []) b a = 0%nat) as ->; [|done].
    unfold link_count, links_of. simpl. rewrite lookup_empty. apply count_in_nil. }
  split.
  - intros a b. rewrite Hrev, Hf, !Hcount, !Z.opp_involutive.
    split; [case_decide; lia|]. split; [|done].
    repeat case_decide; try done; tauto.
  - intros a b. rewrite has_link_count, Hf, Hcount.
    unfold od_has_link. rewrite !od_get_lookup.
    rewrite !count_in_elem. fold m0.
    fold (links_of m0 a) (links_of m0 (- b)).
    fold (link_count m0 a b) (link_count m0 (- b) (- a)).
    case_decide; [split; [done|lia]|]. split; [lia|done].
Qed.

Lemma loaded_link_tables_ok_witness :
  NoDup [(1, [2; -3]); (2, [3]); (-3, [-2])].*1
  /\ (forall k l, (k, l) ∈ [(1, [2; -3]); (2, [3]); (-3, [-2])] -> NoDup l)
  /\ link_tables_ok
       (mkGraph ∅
          (list_to_map (build_rc_links_if_necessary [(1, [2; -3]); (2, [3]); (-3, [-2])]))
          (list_to_map (build_reverse_links
             (build_rc_links_if_necessary [(1, [2; -3]); (2, [3]); (-3, [-2])])))
          ∅ ∅ 0).
Proof.
  assert (NoDup [(1, [2; -3]); (2, [3]); (-3, [-2])].*1) as H.
  { apply (bool_decide_unpack _). vm_compute. exact I. }
  assert (forall k l, (k, l) ∈ [(1, [2; -3]); (2, [3]); (-3, [-2])] -> NoDup l) as H'.
  { intros k l Hin. rewrite list_elem_of_In in Hin. simpl in Hin.
    destruct Hin as [[= <- <-]|[[= <- <-]|[[= <- <-]|[]]]];
      apply (bool_decide_unpack _); vm_compute; exact I. }
  split; [exact H|]. split; [exact H'|].
  exact (proj1 (loaded_link_tables_ok [(1, [2; -3]); (2, [3]); (-3, [-2])]
                  (mkGraph ∅ _ _ ∅ ∅ 0) H H' eq_refl eq_refl)).
Defined.

End LoadedLinks.

Section LinkRoundTrip.

(** X23: adding a link and removing it again, and removing a link and
    adding it again, both give back the links the graph had, for a link that
    is not its own twin in a graph with well-formed link tables. *)
Theorem add_remove_link_round_trip (a b : Z) (g : AssemblyGraph) :
  link_tables_ok g -> b <> - a ->
  (~ has_link g a b ->
   exists g', remove_link a b (add_link a b g) = Ok g'
     /\ link_tables_ok g'
     /\ forall x y, has_link g' x y <-> has_link g x y)
  /\ (has_link g a b ->
      exists g', remove_link a b g = Ok g'
        /\ link_tables_ok (add_link a b g')
        /\ forall x y, has_link (add_link a b g') x y <-> has_link g x y).
Proof.
  intros Hg Hne. split.
  - intros Hno.
    pose proof (add_link_tables_ok a b g Hg) as Hg1.
    destruct (remove_link_succeeds a b (add_link a b g) Hg1) as (g' & E); [|done|].
    { apply add_link_has_link. tauto. }
    exists g'. split; [done|]. split; [by eapply remove_link_tables_ok|].
    intros x y. rewrite !has_link_count.
    destruct (remove_link_counts a b _ g' Hg1 E x y) as [-> _].
    destruct (add_link_counts a b g x y) as [-> _].
    rewrite has_link_count in Hno.
    destruct (Hg a b) as (_ & Htwin & _).
    case_decide as C; [|done].
    destruct C as [[-> ->]|[-> ->]]; lia.
  - intros Hyes.
    destruct (remove_link_succeeds a b g Hg Hyes Hne) as (g' & E).
    exists g'. split; [done|].
    split; [by eapply add_link_tables_ok, remove_link_tables_ok|].
    intros x y. rewrite add_link_has_link, !has_link_count.
    destruct (remove_link_counts a b g g' Hg E x y) as [-> _].
    rewrite has_link_count in Hyes.
    destruct (Hg a b) as (_ & Htwin & _).
    case_decide as C.
    + destruct C as [[-> ->]|[-> ->]]; split; try lia; intros _; right; tauto.
    + split; [intros [H|H]; [done|tauto]|tauto].
Qed.

Lemma add_remove_link_round_trip_witness :
  link_tables_ok scenario5 /\ 1 <> - 4 /\ ~ has_link scenario5 4 1
  /\ exists g', remove_link 4 1 (add_link 4 1 scenario5) = Ok g'
       /\ link_tables_ok g'
       /\ forall x y, has_link g' x y <-> has_link scenario5 x y.
Proof.
  assert (link_tables_ok scenario5) as H
    by (apply link_tables_ok_check_sound; vm_compute; reflexivity).
  assert (1 <> - 4) as H' by lia.
  assert (~ has_link scenario5 4 1) as Hno by (rewrite has_link_count; vm_compute; lia).
  split; [exact H|]. split; [exact H'|]. split; [exact Hno|].
  exact (proj1 (add_remove_link_round_trip 4 1 scenario5 H H') Hno).
Defined.

Lemma count_sole_links_returns (other : gmap Z (list Z)) (xs : list Z) (acc : Z) :
  (forall x, x ∈ xs -> is_Some (other !! x)) ->
  exists n, count_sole_links other xs acc = Ok n
            /\ acc <= n <= acc + Z.of_nat (length xs).
Proof.
  revert acc. induction xs as [|x xs IH]; intros acc Hkeys; simpl.
  - exists acc. split; [done|lia].
  - destruct (Hkeys x) as [l Hl]; [left|]. unfold getitem. rewrite Hl. simpl.
    destruct (IH (if decide (length l = 1%nat) then acc + 1 else acc)) as (n & -> & Hn).
    { intros y Hy. apply Hkeys. by right. }
    exists n. split; [done|]. case_decide; lia.
Qed.

(** X24: on a graph with well-formed link tables
    [dead_end_change_if_deleted] always returns (every neighbour it looks
    up is there); what it returns is at least minus the segment's own dead
    ends and at most its number of links.  For a segment without links it
    returns -2. *)
Theorem dead_end_change_if_deleted_returns (g : AssemblyGraph) (seg_num : Z) :
  (link_tables_ok g ->
   exists n, dead_end_change_if_deleted g seg_num = Ok n
     /\ - dead_end_count g seg_num <= n
     /\ n <= Z.of_nat (length (links_of (forward_links g) seg_num)
                       + length (links_of (reverse_links g) seg_num))
             - dead_end_count g seg_num)
  /\ 0 <= dead_end_count g seg_num <= 2
  /\ (forward_links g !! seg_num = None -> reverse_links g !! seg_num = None ->
      dead_end_change_if_deleted g seg_num = Ok (- 2)).
Proof.
  split; [|split].
  - intros Hg. unfold dead_end_change_if_deleted.
    fold (links_of (forward_links g) seg_num) (links_of (reverse_links g) seg_num).
    destruct (count_sole_links_returns (reverse_links g)
                (links_of (forward_links g) seg_num) 0) as (p1 & -> & H1).
    { intros x Hx. apply count_in_elem in Hx.
      fold (link_count (forward_links g) seg_num x) in Hx.
      destruct (Hg seg_num x) as (_ & _ & Hm). rewrite <- Hm in Hx.
      unfold link_count, links_of in Hx.
      destruct (reverse_links g !! x); [by eexists|].
      simpl in Hx. rewrite count_in_nil in Hx. lia. }
    simpl.
    destruct (count_sole_links_returns (forward_links g)
                (links_of (reverse_links g) seg_num) p1) as (p2 & -> & H2).
    { intros x Hx. apply count_in_elem in Hx.
      fold (link_count (reverse_links g) seg_num x) in Hx.
      destruct (Hg x seg_num) as (_ & _ & Hm). rewrite Hm in Hx.
      unfold link_count, links_of in Hx.
      destruct (forward_links g !! x); [by eexists|].
      simpl in Hx. rewrite count_in_nil in Hx. lia. }
    simpl. eexists. split; [done|]. lia.
  - unfold dead_end_count.
    destruct (no_links (forward_links g) seg_num);
      destruct (no_links (reverse_links g) seg_num); lia.
  - intros Hf Hr. unfold dead_end_change_if_deleted, dead_end_count, no_links.
    rewrite Hf, Hr. done.
Qed.

Lemma dead_end_change_if_deleted_returns_witness :
  link_tables_ok scenario5
  /\ exists n, dead_end_change_if_deleted scenario5 2 = Ok n
       /\ - dead_end_count scenario5 2 <= n.
Proof.
  assert (link_tables_ok scenario5) as H
    by (apply link_tables_ok_check_sound; vm_compute; reflexivity).
  destruct (proj1 (dead_end_change_if_deleted_returns scenario5 2) H) as (n & E & Hn & _).
  split; [exact H|]. exists n. exact (conj E Hn).
Defined.

End LinkRoundTrip.

Section CopyDepthLists.

#[local] Arguments best_arrangement_from : simpl never.
#[local] Arguments shuffle_into_bins : simpl never.
#[local] Arguments scale_copy_depths : simpl never.

Lemma scale_copy_depths_Ok (target_depth : Q) (source_depths scaled : list Q)
    (error : error_value) :
  scale_copy_depths target_depth source_depths = Ok (scaled, error) ->
  scaled <> [] /\ descending scaled.
Proof.
  unfold scale_copy_depths, py_div.
  destruct (Qeq_bool (Qsum source_depths) 0) eqn:E; simpl; [done|].
  intros [= <- _]. split; [|apply sorted_desc_sorted].
  intros Hnil. apply (f_equal length) in Hnil.
  rewrite (Permutation_length (sorted_desc_perm _)), length_map in Hnil.
  destruct source_depths; [|done]. vm_compute in E. discriminate E.
Qed.

Lemma copy_depths_ok_insert (g : AssemblyGraph) (n : Z) (l : list Q) :
  copy_depths_ok g -> is_Some (segments g !! n) -> l <> [] -> descending l ->
  copy_depths_ok (set_copy_depths g (<[n := l]> (copy_depths g))).
Proof.
  intros Hg Hseg Hne Hd k l'. simpl. destruct (decide (n = k)) as [<-|Hk].
  - rewrite lookup_insert_eq. by intros [= <-].
  - rewrite lookup_insert_ne by done. apply Hg.
Qed.

Lemma merge_consider_lists (g : AssemblyGraph) (num : Z) (sources : list Z)
    (b b' : merge_best) :
  merge_best_ok g b -> merge_consider g num sources b = Ok b' -> merge_best_ok g b'.
Proof.
  intros Hb. unfold merge_consider.
  destruct (negb (bool_decide (sources = [])) && all_have_copy_depths g sources);
    [|by intros [= <-]].
  unfold scale_copy_depths_from_source_segments.
  destruct (gather_copy_depths g sources) as [src|]; simpl; [|done].
  unfold getitem. destruct (segments g !! num) as [seg|] eqn:Hseg; simpl; [|done].
  destruct (scale_copy_depths (depth seg) src) as [[depths error]|] eqn:Hscale;
    simpl; [|done].
  destruct (error_lt error (lowest_error b)); intros [= <-]; [|done].
  intros n. simpl. intros [= <-]. split; [by eexists|].
  by apply scale_copy_depths_Ok in Hscale.
Qed.

Lemma merge_scan_lists (g : AssemblyGraph) (segs : list Segment) (b b' : merge_best) :
  merge_best_ok g b -> merge_scan g segs b = Ok b' -> merge_best_ok g b'.
Proof.
  revert b. induction segs as [|s segs IH]; intros b Hb; simpl; [by intros [= <-]|].
  destruct (merge_consider g (number s) (get_exclusive_inputs g (number s)) b)
    as [b1|] eqn:H1; simpl; [|done].
  destruct (merge_consider g (number s) (get_exclusive_outputs g (number s)) b1)
    as [b2|] eqn:H2; simpl; [|done].
  apply IH. eapply merge_consider_lists; [|exact H2]. by eapply merge_consider_lists.
Qed.

Lemma merge_copy_depths_lists (error_margin : Q) (g g' : AssemblyGraph) (changed : bool) :
  copy_depths_ok g -> merge_copy_depths error_margin g = Ok (g', changed) ->
  copy_depths_ok g' /\ segments g' = segments g.
Proof.
  intros Hg. unfold merge_copy_depths.
  destruct (get_segments_without_copies g) as [|s0 segs]; [by intros [= <- <-]|].
  destruct (merge_scan g (s0 :: segs) (mkBest None [] Infinite)) as [b|] eqn:Hscan;
    simpl; [|done].
  apply merge_scan_lists in Hscan; [|by intros n].
  destruct (best_segment_num b) as [n|] eqn:Hbest; [|by intros [= <- <-]].
  destruct (negb (bool_decide (n = 0)) && error_lt (lowest_error b) (Finite error_margin));
    [|by intros [= <- <-]].
  intros [= <- <-]. destruct (Hscan n Hbest) as (Hseg & Hne & Hd).
  split; [|done]. by apply copy_depths_ok_insert.
Qed.

Lemma assign_copy_depths_where_needed_lists (g g' : AssemblyGraph)
    (segment_numbers : list Z) (new_depths : list (list Q)) (error_margin : Q)
    (success success' : bool) :
  copy_depths_ok g ->
  assign_copy_depths_where_needed g segment_numbers new_depths error_margin success
    = Ok (g', success') ->
  copy_depths_ok g' /\ segments g' = segments g.
Proof.
  revert g new_depths success.
  induction segment_numbers as [|num nums IH]; intros g new_depths success Hg; simpl.
  - by intros [= <- <-].
  - destruct (has_copy_depths g num); [by apply IH|].
    unfold getitem. destruct (segments g !! num) as [seg|] eqn:Hseg; simpl; [|done].
    destruct new_depths as [|d ds]; [done|].
    destruct (scale_copy_depths (depth seg) d) as [[new_copy_depths error]|] eqn:Hscale;
      simpl; [|done].
    destruct (error_le error (Finite error_margin)); [|by apply IH].
    intros Hrest. apply IH in Hrest as [H1 H2]; [done|].
    apply scale_copy_depths_Ok in Hscale as [Hne Hd].
    apply copy_depths_ok_insert; [done|by eexists|done|done].
Qed.

Lemma redistribute_copy_depths_lists (error_margin : Q) (g g' : AssemblyGraph)
    (changed : bool) :
  copy_depths_ok g -> redistribute_copy_depths error_margin g = Ok (g', changed) ->
  copy_depths_ok g' /\ segments g' = segments g.
Proof.
  unfold redistribute_copy_depths.
  generalize (get_segments_with_two_or_more_copies g). intros segs. revert g.
  induction segs as [|segment segs IH]; intros g Hg; simpl; [by intros [= <- <-]|].
  destruct (redistribute_connections g (number segment)) as [connections|];
    [|by apply IH].
  unfold getitem.
  destruct (copy_depths g !! number segment) as [cd|]; simpl; [|done].
  destruct (shuffle_into_bins cd _ _) as [|a0 arrangements]; [by apply IH|].
  destruct (best_arrangement_from g connections (a0 :: arrangements) Infinite None)
    as [[lowest best]|]; simpl; [|done].
  destruct (error_lt lowest (Finite error_margin)); [|by apply IH].
  destruct best as [best_arrangement|]; [|by apply IH].
  destruct (assign_copy_depths_where_needed g connections best_arrangement
              error_margin false) as [[g1 success]|] eqn:Hassign; simpl; [|done].
  apply assign_copy_depths_where_needed_lists in Hassign as [H1 H2]; [|done].
  destruct success.
  - by intros [= <- <-].
  - intros Hrest. apply IH in Hrest as [H3 H4]; [|done]. split; [done|congruence].
Qed.

Lemma merge_while_lists (fuel : nat) (tolerance : Q) (g g' : AssemblyGraph) :
  copy_depths_ok g -> merge_while fuel tolerance g = Some (Ok g') ->
  copy_depths_ok g' /\ segments g' = segments g.
Proof.
  revert g. induction fuel as [|fuel IH]; intros g Hg; simpl; [done|].
  destruct (merge_copy_depths tolerance g) as [[g1 changed]|] eqn:Hm; [|done].
  apply merge_copy_depths_lists in Hm as [H1 H2]; [|done].
  destruct changed.
  - intros Hrest. apply IH in Hrest as [H3 H4]; [|done]. split; [done|congruence].
  - by intros [= <-].
Qed.

Lemma determine_copy_depth_part_2_lists (fuel : nat) (tolerance : Q)
    (g g' : AssemblyGraph) :
  copy_depths_ok g -> determine_copy_depth_part_2 fuel tolerance g = Some (Ok g') ->
  copy_depths_ok g' /\ segments g' = segments g.
Proof.
  revert g. induction fuel as [|fuel IH]; intros g Hg; [done|].
  cbn [determine_copy_depth_part_2].
  destruct (merge_while (S fuel) tolerance g) as [[g1|]|] eqn:Hm; [|done..].
  apply merge_while_lists in Hm as [H1 H2]; [|done].
  destruct (redistribute_copy_depths tolerance g1) as [[g2 changed]|] eqn:Hr; [|done].
  apply redistribute_copy_depths_lists in Hr as [H3 H4]; [|done].
  destruct changed.
  - intros Hrest. apply IH in Hrest as [H5 H6]; [|done]. split; [done|congruence].
  - intros [= <-]. split; [done|congruence].
Qed.

Lemma descending_singleton (x : Q) : [x] <> [] /\ descending [x].
Proof. split; [done|]. split; [constructor|done]. Qed.

Lemma insert_by_length_elem (s x : Segment) (l : list Segment) :
  x ∈ insert_by_length s l <-> x = s \/ x ∈ l.
Proof.
  induction l as [|y l IH]; simpl.
  - rewrite list_elem_of_singleton. split; [by left|]. intros [?|H]; [done|].
    by apply not_elem_of_nil in H.
  - destruct (get_length s <? get_length y).
    + rewrite !elem_of_cons, IH. tauto.
    + rewrite !elem_of_cons. tauto.
Qed.

Lemma sorted_by_length_desc_elem (x : Segment) (l : list Segment) :
  x ∈ sorted_by_length_desc l <-> x ∈ l.
Proof.
  induction l as [|y l IH]; simpl; [done|].
  rewrite insert_by_length_elem, elem_of_cons, IH. done.
Qed.

Lemma segment_values_numbered (g : AssemblyGraph) (s : Segment) :
  segments_numbered g -> s ∈ (map_to_list (segments g)).*2 ->
  segments g !! number s = Some s.
Proof.
  intros Hn Hs. apply list_elem_of_fmap in Hs as ([k v] & -> & Hkv).
  apply elem_of_map_to_list in Hkv. simpl. by rewrite (Hn k v Hkv).
Qed.

Lemma assign_single_copy_depth_lists (min_single_copy_length : Z) (g g' : AssemblyGraph)
    (assignments : bool) :
  segments_numbered g -> copy_depths_ok g ->
  assign_single_copy_depth min_single_copy_length g = (g', assignments) ->
  copy_depths_ok g' /\ segments g' = segments g.
Proof.
  intros Hn Hg. unfold assign_single_copy_depth.
  assert (forall s, s ∈ sorted_by_length_desc (get_segments_without_copies g) ->
            segments g !! number s = Some s) as Hsegs.
  { intros s Hs. rewrite sorted_by_length_desc_elem in Hs.
    unfold get_segments_without_copies in Hs.
    apply list_elem_of_In, filter_In in Hs as [Hs _].
    apply segment_values_numbered; [done|]. by apply list_elem_of_In. }
  revert Hsegs. generalize (sorted_by_length_desc (get_segments_without_copies g)).
  intros segs. induction segs as [|s segs IH]; intros Hsegs; simpl.
  - by intros [= <- <-].
  - destruct (get_length s <? min_single_copy_length).
    { apply IH. intros x Hx. apply Hsegs. by right. }
    destruct (exactly_one_link_per_end g s).
    + intros [= <- <-]. split; [|done].
      destruct (descending_singleton (depth s)) as [Hne Hd].
      apply copy_depths_ok_insert; [done| |done|done].
      rewrite Hsegs by left. by eexists.
    + apply IH. intros x Hx. apply Hsegs. by right.
Qed.

Lemma single_copy_rounds_lists (fuel : nat) (tolerance : Q) (min_single_copy_length : Z)
    (g g' : AssemblyGraph) :
  segments_numbered g -> copy_depths_ok g ->
  single_copy_rounds fuel tolerance min_single_copy_length g = Some (Ok g') ->
  copy_depths_ok g' /\ segments g' = segments g.
Proof.
  revert g. induction fuel as [|fuel IH]; intros g Hn Hg; [done|].
  cbn [single_copy_rounds].
  destruct (assign_single_copy_depth min_single_copy_length g) as [g1 assignments] eqn:Ha.
  apply assign_single_copy_depth_lists in Ha as [H1 H2]; [|done..].
  destruct (determine_copy_depth_part_2 (S fuel) tolerance g1) as [[g2|]|] eqn:Hp;
    [|done..].
  apply determine_copy_depth_part_2_lists in Hp as [H3 H4]; [|done].
  destruct assignments.
  - intros Hrest. apply IH in Hrest as [H5 H6]; [split; [done|congruence]| |done].
    intros k s. rewrite H4, H2. apply Hn.
  - intros [= <-]. split; [done|congruence].
Qed.

Lemma seed_fold_lists (max_depth : Q) (g acc : AssemblyGraph) (segs : list Segment) :
  (forall s, s ∈ segs -> segments g !! number s = Some s) ->
  copy_depths_ok acc -> segments acc = segments g ->
  copy_depths_ok
    (foldl (fun acc segment =>
              if Qle_bool (depth segment) max_depth && at_most_one_link_per_end g segment
              then set_copy_depths acc
                     (<[number segment := [depth segment]]> (copy_depths acc))
              else acc) acc segs)
  /\ segments
       (foldl (fun acc segment =>
                 if Qle_bool (depth segment) max_depth && at_most_one_link_per_end g segment
                 then set_copy_depths acc
                        (<[number segment := [depth segment]]> (copy_depths acc))
                 else acc) acc segs)
     = segments g.
Proof.
  revert acc. induction segs as [|s segs IH]; intros acc Hsegs Hacc Hseg; simpl; [done|].
  destruct (Qle_bool (depth s) max_depth && at_most_one_link_per_end g s).
  - apply IH; [intros x Hx; apply Hsegs; by right| |done].
    destruct (descending_singleton (depth s)) as [Hne Hd].
    apply copy_depths_ok_insert; [done| |done|done].
    rewrite Hseg, Hsegs by left. by eexists.
  - apply IH; [intros x Hx; apply Hsegs; by right|done|done].
Qed.

Lemma seed_single_copies_lists (max_depth : Q) (g : AssemblyGraph) :
  segments_numbered g -> copy_depths g = ∅ ->
  copy_depths_ok (seed_single_copies max_depth g)
  /\ segments (seed_single_copies max_depth g) = segments g.
Proof.
  intros Hn Hempty. unfold seed_single_copies. apply seed_fold_lists.
  - intros s. by apply segment_values_numbered.
  - intros n l. by rewrite Hempty, lookup_empty.
  - done.
Qed.

(** X25: in a graph that stores every segment under its own number, the
    copy depths that [determine_copy_depth] leaves are lists that are not
    empty and are in descending order, and there are none for a number that
    is not a segment.  The segments themselves are as before. *)
Theorem determine_copy_depth_lists (fuel : nat) (g g' : AssemblyGraph) :
  segments_numbered g ->
  determine_copy_depth fuel g = Some (Ok g') ->
  segments g' = segments g
  /\ forall n l, copy_depths g' !! n = Some l ->
       is_Some (segments g !! n) /\ l <> [] /\ descending l.
Proof.
  intros Hn. unfold determine_copy_depth.
  destruct (single_copy_depth (set_copy_depths g ∅)) as [d|]; [|done].
  destruct (seed_single_copies_lists (d + (1 # 10)) (set_copy_depths g ∅)) as [S1 S2];
    [done|done|].
  destruct (determine_copy_depth_part_2 fuel (2 # 10) _) as [[g2|]|] eqn:H2; [|done..].
  apply determine_copy_depth_part_2_lists in H2 as [P1 P2]; [|done].
  destruct (single_copy_rounds fuel (2 # 10) 1000 g2) as [[g3|]|] eqn:H3; [|done..].
  apply single_copy_rounds_lists in H3 as [R1 R2];
    [|intros k s; rewrite P2, S2; apply Hn|done].
  intros H4. apply determine_copy_depth_part_2_lists in H4 as [F1 F2]; [|done].
  assert (segments g' = segments g) as Hseg.
  { rewrite F2, R2, P2, S2. done. }
  split; [done|]. intros n l Hl. destruct (F1 n l Hl) as (Hs & Hne & Hd).
  split; [by rewrite <- Hseg|done].
Qed.

Lemma determine_copy_depth_lists_witness :
  exists g',
    segments_numbered triangle_seeded
    /\ determine_copy_depth 10 triangle_seeded = Some (Ok g')
    /\ segments g' = segments triangle_seeded
    /\ forall n l, copy_depths g' !! n = Some l ->
         is_Some (segments triangle_seeded !! n) /\ l <> [] /\ descending l.
Proof.
  assert (segments_numbered triangle_seeded) as H
    by (apply segments_numbered_check_sound; vm_compute; reflexivity).
  destruct (determine_copy_depth 10 triangle_seeded) as [[g'|e]|] eqn:E;
    [|vm_compute in E; discriminate E..].
  exists g'. split; [exact H|]. split; [reflexivity|].
  exact (determine_copy_depth_lists 10 triangle_seeded g' H E).
Defined.

End CopyDepthLists.

Section Renumbering.

Lemma insert_by_length_perm (s : Segment) (l : list Segment) :
  insert_by_length s l ≡ₚ s :: l.
Proof.
  induction l as [|y l IH]; simpl; [done|].
  destruct (get_length s <? get_length y); [|done]. rewrite IH. apply Permutation_swap.
Qed.

Lemma sorted_by_length_desc_perm (l : list Segment) : sorted_by_length_desc l ≡ₚ l.
Proof.
  induction l as [|x l IH]; simpl; [done|]. by rewrite insert_by_length_perm, IH.
Qed.

Lemma insert_by_length_sorted (s : Segment) (l : list Segment) :
  longest_first l -> longest_first (insert_by_length s l).
Proof.
  induction l as [|y l IH]; simpl; intros Hl.
  - split; [constructor|done].
  - destruct Hl as [Hy Hl]. destruct (get_length s <? get_length y) eqn:E.
    + apply Z.ltb_lt in E. split; [|by apply IH].
      apply Forall_forall. intros z Hz. rewrite insert_by_length_perm in Hz.
      rewrite Forall_forall in Hy.
      apply elem_of_cons in Hz as [->|Hz]; [lia|by apply Hy].
    + apply Z.ltb_ge in E. split; [|done].
      constructor; [done|]. eapply Forall_impl; [exact Hy|].
      intros z Hz. simpl in Hz. lia.
Qed.

Lemma sorted_by_length_desc_sorted (l : list Segment) :
  longest_first (sorted_by_length_desc l).
Proof.
  induction l as [|x l IH]; simpl; [done|]. by apply insert_by_length_sorted.
Qed.

Lemma longest_first_lookup (l : list Segment) (a b : nat) (x y : Segment) :
  longest_first l -> l !! a = Some x -> l !! b = Some y -> (a <= b)%nat ->
  get_length y <= get_length x.
Proof.
  revert a b. induction l as [|z l IH]; intros a b Hl Ha Hb Hab; [done|].
  destruct Hl as [Hz Hl]. destruct a as [|a]; simpl in Ha.
  - injection Ha as ->. destruct b as [|b]; simpl in Hb.
    + injection Hb as ->. lia.
    + rewrite Forall_forall in Hz. apply Hz. by eapply list_elem_of_lookup_2.
  - destruct b as [|b]; [lia|]. simpl in Hb. apply (IH a b); [done..|lia].
Qed.

Lemma foldl_insert_notin (l : list (Z * Z)) (acc : gmap Z Z) (k : Z) :
  k ∉ l.*1 -> foldl (fun d kv => <[kv.1 := kv.2]> d) acc l !! k = acc !! k.
Proof.
  revert acc. induction l as [|[k' v'] l IH]; intros acc Hk; simpl; [done|].
  simpl in Hk. rewrite not_elem_of_cons in Hk. destruct Hk as [Hne Hk].
  rewrite IH by done. by rewrite lookup_insert_ne.
Qed.

Lemma foldl_insert_lookup (l : list (Z * Z)) (acc : gmap Z Z) (k v : Z) :
  NoDup l.*1 -> (k, v) ∈ l ->
  foldl (fun d kv => <[kv.1 := kv.2]> d) acc l !! k = Some v.
Proof.
  revert acc. induction l as [|[k' v'] l IH]; intros acc Hnd Hin; simpl.
  - by apply not_elem_of_nil in Hin.
  - simpl in Hnd. apply NoDup_cons in Hnd as [Hk' Hnd].
    apply elem_of_cons in Hin as [[= -> ->]|Hin]; [|by apply IH].
    rewrite foldl_insert_notin by done. by rewrite lookup_insert_eq.
Qed.

Lemma foldl_insert_lookup_inv (l : list (Z * Z)) (acc : gmap Z Z) (k v : Z) :
  foldl (fun d kv => <[kv.1 := kv.2]> d) acc l !! k = Some v ->
  (k, v) ∈ l \/ acc !! k = Some v.
Proof.
  revert acc. induction l as [|[k' v'] l IH]; intros acc; simpl; [by right|].
  intros [H|H]%IH; [left; by right|].
  destruct (decide (k' = k)) as [->|Hne].
  - rewrite lookup_insert_eq in H. injection H as ->. left. left.
  - rewrite lookup_insert_ne in H by done. by right.
Qed.

Lemma renumber_segment_map_sound (changes : gmap Z Z) (items : list (Z * Segment))
    (acc m' : gmap Z Segment) (j : Z) (s' : Segment) :
  renumber_segment_map changes items acc = Ok m' -> m' !! j = Some s' ->
  acc !! j = Some s'
  \/ exists k seg, (k, seg) ∈ items /\ changes !! k = Some j /\ s' = set_number seg j.
Proof.
  revert acc. induction items as [|[k seg] items IH]; intros acc; simpl.
  - intros [= <-]. by left.
  - unfold getitem. destruct (changes !! k) as [new_num|] eqn:Hk; simpl; [|done].
    intros Hrest Hj. destruct (IH _ Hrest Hj) as [H|(k' & seg' & Hin & Hc & Hs)].
    + destruct (decide (new_num = j)) as [->|Hne].
      * rewrite lookup_insert_eq in H. injection H as <-.
        right. exists k, seg. split; [left|done].
      * rewrite lookup_insert_ne in H by done. by left.
    + right. exists k', seg'. split; [by right|done].
Qed.

Lemma renumber_segment_map_complete (changes : gmap Z Z) (items : list (Z * Segment))
    (acc m' : gmap Z Segment) (j : Z) :
  renumber_segment_map changes items acc = Ok m' ->
  is_Some (acc !! j) \/ (exists k seg, (k, seg) ∈ items /\ changes !! k = Some j) ->
  is_Some (m' !! j).
Proof.
  revert acc. induction items as [|[k seg] items IH]; intros acc; simpl.
  - intros [= <-] [H|(k & seg & Hin & _)]; [done|]. by apply not_elem_of_nil in Hin.
  - unfold getitem. destruct (changes !! k) as [new_num|] eqn:Hk; simpl; [|done].
    intros Hrest H. apply (IH _ Hrest).
    destruct H as [H|(k' & seg' & Hin & Hc)].
    + left. destruct (decide (new_num = j)) as [->|Hne].
      * rewrite lookup_insert_eq. by eexists.
      * by rewrite lookup_insert_ne.
    + apply elem_of_cons in Hin as [[= -> ->]|Hin].
      * left. rewrite Hk in Hc. injection Hc as ->. rewrite lookup_insert_eq. by eexists.
      * right. by exists k', seg'.
Qed.

Lemma renumber_segments_segments (g g' : AssemblyGraph) :
  renumber_segments g = Ok g' ->
  renumber_segment_map
    (dict_of_zip
       (map number (sorted_by_length_desc (map_to_list (segments g)).*2)
        ++ map Z.opp (map number (sorted_by_length_desc (map_to_list (segments g)).*2)))
       (map Z.of_nat
          (seq 1 (length (map number (sorted_by_length_desc (map_to_list (segments g)).*2))))
        ++ map Z.opp
             (map Z.of_nat
                (seq 1 (length (map number
                                  (sorted_by_length_desc (map_to_list (segments g)).*2)))))))
    (map_to_list (segments g)) ∅ = Ok (segments g').
Proof.
  unfold renumber_segments.
  destruct (renumber_segment_map _ (map_to_list (segments g)) ∅) as [ns|]; simpl; [|done].
  destruct (renumber_links _ (map_to_list (forward_links g)) ∅) as [nf|]; simpl; [|done].
  destruct (renumber_links _ (map_to_list (reverse_links g)) ∅) as [nr|]; simpl; [|done].
  destruct (renumber_copy_depths _ (map_to_list (copy_depths g)) ∅) as [nc|]; simpl;
    [|done].
  destruct (renumber_paths _ (map_to_list (paths g)) ∅) as [np|]; simpl; [|done].
  by intros [= <-].
Qed.

(** X26: in a graph that stores every segment under its own number, all
    of them positive: when [renumber_segments] returns, the segments are
    numbered 1, 2, ... up to their count without a gap, each stored under
    its new number, no segment is longer than one with a smaller number, and
    every segment is one of the old segments with only its number
    changed. *)
Theorem renumber_segments_longest_first (g g' : AssemblyGraph) :
  segments_numbered g ->
  (forall k, is_Some (segments g !! k) -> 0 < k) ->
  renumber_segments g = Ok g' ->
  (forall i, is_Some (segments g' !! i) <-> 1 <= i <= Z.of_nat (size (segments g)))
  /\ segments_numbered g'
  /\ (forall i s', segments g' !! i = Some s' ->
        exists k s, segments g !! k = Some s /\ s' = set_number s i)
  /\ (forall i j s t, segments g' !! i = Some s -> segments g' !! j = Some t ->
        i <= j -> get_length t <= get_length s).
Proof.
  intros Hnum Hpos Hre. apply renumber_segments_segments in Hre.
  set (items := map_to_list (segments g)) in *.
  set (srt := sorted_by_length_desc items.*2) in *.
  set (old := map number srt) in *.
  set (new := map Z.of_nat (seq 1 (length old))) in *.
  set (changes := dict_of_zip _ _) in *.
  assert (forall k s, (k, s) ∈ items <-> segments g !! k = Some s) as Hitems.
  { intros k s. apply elem_of_map_to_list. }
  assert (items.*2 ≡ₚ srt) as Hperm by (symmetry; apply sorted_by_length_desc_perm).
  assert (map number items.*2 = items.*1) as Hkeys.
  { assert (forall k s, (k, s) ∈ items -> number s = k) as H.
    { intros k s Hks. apply (Hnum k s). by apply Hitems. }
    clear -H. induction items as [|[k s] l IH]; simpl; [done|].
    rewrite (H k s) by left. f_equal. apply IH. intros k' s' Hin. apply H. by right. }
  assert (old ≡ₚ items.*1) as Hold.
  { unfold old. rewrite <- Hkeys. by rewrite <- Hperm. }
  assert (NoDup old) as Hnd.
  { rewrite Hold. apply NoDup_fst_map_to_list. }
  assert (forall x, x ∈ old -> 0 < x) as Holdpos.
  { intros x. rewrite Hold. intros Hx. apply list_elem_of_fmap in Hx as ([k s] & -> & Hks).
    apply Hpos. apply Hitems in Hks. by eexists. }
  assert (length old = size (segments g)) as Hlen.
  { rewrite (Permutation_length Hold), length_fmap. apply length_map_to_list. }
  assert (length new = length old) as Hlnew.
  { unfold new. by rewrite length_map, length_seq. }
  assert (forall a, new !! a = if decide (a < length old)%nat
                               then Some (Z.of_nat (S a)) else None) as Hnew.
  { intros a. unfold new. rewrite list_lookup_fmap.
    case_decide as E.
    - rewrite lookup_seq_lt by done. done.
    - rewrite lookup_seq_ge by lia. done. }
  assert (NoDup (old ++ map Z.opp old)) as Hnd2.
  { apply NoDup_app. split; [done|]. split.
    - intros x Hx Hx'. apply list_elem_of_fmap in Hx' as (y & -> & Hy).
      apply Holdpos in Hx, Hy. lia.
    - assert (Inj eq eq Z.opp) as Hinj by (intros x y; lia).
      by apply (NoDup_fmap_2 Z.opp). }
  assert (forall k j, 0 < k -> changes !! k = Some j <->
            exists a, old !! a = Some k /\ j = Z.of_nat (S a)) as Hch.
  { intros k j Hk. unfold changes, dict_of_zip.
    assert (NoDup (zip (old ++ map Z.opp old) (new ++ map Z.opp new)).*1) as Hz.
    { rewrite fst_zip; [done|]. rewrite !length_app, !length_map. unfold new.
      rewrite length_map, length_seq. done. }
    assert (zip (old ++ map Z.opp old) (new ++ map Z.opp new)
            = zip old new ++ zip (map Z.opp old) (map Z.opp new)) as Hzip.
    { apply zip_with_app. by rewrite Hlnew. }
    split.
    - intros [Hin|Hemp]%foldl_insert_lookup_inv; [|by rewrite lookup_empty in Hemp].
      rewrite Hzip in Hin. apply elem_of_app in Hin as [Hin|Hin].
      + apply list_elem_of_lookup in Hin as [a Ha].
        apply lookup_zip_with_Some in Ha as (x & y & [= -> ->] & Hx & Hy).
        exists a. split; [done|]. rewrite Hnew in Hy.
        case_decide; [by injection Hy as <-|done].
      + apply list_elem_of_lookup in Hin as [a Ha].
        apply lookup_zip_with_Some in Ha as (x & y & [= -> ->] & Hx & Hy).
        rewrite list_lookup_fmap in Hx.
        destruct (old !! a) as [z|] eqn:Hz'; [|done]. injection Hx as Hx.
        assert (0 < z) by (apply Holdpos; by eapply list_elem_of_lookup_2). lia.
    - intros (a & Ha & ->). apply foldl_insert_lookup; [done|].
      rewrite Hzip. apply elem_of_app. left. apply list_elem_of_lookup. exists a.
      apply lookup_zip_with_Some. exists k, (Z.of_nat (S a)).
      split; [done|]. split; [done|]. rewrite Hnew.
      apply lookup_lt_Some in Ha. by rewrite decide_True. }
  assert (forall a k, old !! a = Some k ->
            exists s, srt !! a = Some s /\ number s = k /\ segments g !! k = Some s)
    as Hsrt.
  { intros a k Ha. unfold old in Ha. rewrite list_lookup_fmap in Ha.
    destruct (srt !! a) as [s|] eqn:Hs; [|done]. injection Ha as Ha.
    exists s. split; [done|]. split; [done|].
    assert (s ∈ items.*2) as Hin.
    { rewrite Hperm. by eapply list_elem_of_lookup_2. }
    apply list_elem_of_fmap in Hin as ([k' s0] & -> & Hks). simpl in *.
    apply Hitems in Hks as Hlook. rewrite (Hnum _ _ Hlook) in Ha. by subst. }
  assert (forall i s', segments g' !! i = Some s' ->
            exists a k s, i = Z.of_nat (S a) /\ old !! a = Some k /\ srt !! a = Some s
                          /\ segments g !! k = Some s /\ s' = set_number s i) as Hsound.
  { intros i s' Hi.
    destruct (renumber_segment_map_sound _ _ _ _ _ _ Hre Hi)
      as [H|(k & seg & Hin & Hc & ->)]; [by rewrite lookup_empty in H|].
    apply Hitems in Hin.
    apply Hch in Hc as (a & Ha & ->); [|apply Hpos; by eexists].
    destruct (Hsrt a k Ha) as (s & Hs & _ & Hlook).
    rewrite Hin in Hlook. injection Hlook as ->.
    by exists a, k, s. }
  split; [|split; [|split]].
  - intros i. split.
    + intros [s' Hs']. destruct (Hsound i s' Hs') as (a & k & s & -> & Ha & _).
      apply lookup_lt_Some in Ha. lia.
    + intros Hi. apply (renumber_segment_map_complete _ _ _ _ _ Hre). right.
      destruct (lookup_lt_is_Some_2 old (Z.to_nat (i - 1))) as [k Hk]; [lia|].
      destruct (Hsrt _ _ Hk) as (s & _ & _ & Hlook).
      exists k, s. split; [by apply Hitems|].
      apply Hch; [apply Holdpos; by eapply list_elem_of_lookup_2|].
      exists (Z.to_nat (i - 1)). split; [done|lia].
  - intros i s' Hs'. destruct (Hsound i s' Hs') as (a & k & s & _ & _ & _ & _ & ->). done.
  - intros i s' Hs'. destruct (Hsound i s' Hs') as (a & k & s & _ & _ & _ & Hlook & ->).
    by exists k, s.
  - intros i j s t Hi Hj Hij.
    destruct (Hsound i s Hi) as (a & k & s0 & -> & _ & Ha & _ & ->).
    destruct (Hsound j t Hj) as (b & k' & t0 & -> & _ & Hb & _ & ->).
    change (get_length t0 <= get_length s0).
    apply (longest_first_lookup srt a b); [apply sorted_by_length_desc_sorted|done..|lia].
Qed.

Lemma renumber_segments_longest_first_witness :
  exists g',
    segments_numbered merge_example
    /\ (forall k, is_Some (segments merge_example !! k) -> 0 < k)
    /\ renumber_segments merge_example = Ok g'
    /\ (forall i, is_Some (segments g' !! i)
          <-> 1 <= i <= Z.of_nat (size (segments merge_example)))
    /\ segments_numbered g'.
Proof.
  assert (segments_numbered merge_example) as H
    by (apply segments_numbered_check_sound; vm_compute; reflexivity).
  assert (forall k, is_Some (segments merge_example !! k) -> 0 < k) as H'.
  { assert (forallb (fun ks : Z * Segment => 0 <? ks.1)
              (map_to_list (segments merge_example)) = true) as Hall
      by (vm_compute; reflexivity).
    rewrite forallb_forall in Hall. intros k [s Hs].
    apply elem_of_map_to_list, list_elem_of_In, Hall in Hs. by apply Z.ltb_lt in Hs. }
  destruct (renumber_segments merge_example) as [g'|e] eqn:E;
    [|vm_compute in E; discriminate E].
  destruct (renumber_segments_longest_first merge_example g' H H' E) as (A1 & A2 & _).
  exists g'. exact (conj H (conj H' (conj eq_refl (conj A1 A2)))).
Defined.

End Renumbering.

Section SimplePath.

Lemma abs_not_listed (x : Z) (p : list Z) :
  x ∉ p -> - x ∉ p -> Z.abs x ∉ map Z.abs p.
Proof.
  intros H1 H2 Hin. apply list_elem_of_fmap in Hin as (y & Hy & Hin).
  destruct (decide (y = x)) as [->|Hne]; [done|].
  assert (y = - x) as -> by lia. done.
Qed.

Lemma key_listed (d : gmap Z (list Z)) (k : Z) (l : list Z) :
  d !! k = Some l -> k ∈ (map_to_list d).*1.
Proof.
  intros H. apply list_elem_of_fmap. exists (k, l). split; [done|].
  by apply elem_of_map_to_list.
Qed.

Lemma py_in_false (x : Z) (l : list Z) : py_in x l = false <-> x ∉ l.
Proof. unfold py_in. apply bool_decide_eq_false. Qed.

Lemma simple_path_step_forward_keeps (g : AssemblyGraph) (s : Z) (p p' : list Z) :
  simple_path_state g s p -> simple_path_step_forward g p = Ok (Some p') ->
  simple_path_state g s p' /\ length p' = S (length p).
Proof.
  intros (Hnd & Hs & Hkeys & Hchain). unfold simple_path_step_forward, list_last.
  destruct (last p) as [last_seg|] eqn:Hlast; simpl; [|done].
  destruct (forward_links g !! last_seg) as [[|potential [|? ?]]|] eqn:Hf; try done.
  destruct (py_in potential p || py_in (- potential) p) eqn:Hin; [done|].
  apply orb_false_iff in Hin as [Hin1%py_in_false Hin2%py_in_false].
  unfold getitem.
  destruct (reverse_links g !! potential) as [[|x [|? ?]]|] eqn:Hr; simpl; try done.
  case_bool_decide as Hx; [|done]. subst x. intros [= <-].
  split; [|rewrite length_app; simpl; lia].
  split; [|split; [|split]].
  - rewrite map_app. simpl. apply NoDup_app. split; [done|]. split.
    + intros y Hy Hy'. apply list_elem_of_singleton in Hy'. subst.
      by apply (abs_not_listed potential p).
    + apply NoDup_singleton.
  - apply elem_of_app. by left.
  - intros y [Hy|Hy%list_elem_of_singleton]%elem_of_app; [by apply Hkeys|].
    subst. right. right. by eapply key_listed.
  - intros i a b Ha Hb.
    apply last_Some in Hlast as (q & ->).
    destruct (decide (S i < length (q ++ [last_seg]))%nat) as [Hlt|Hge].
    + rewrite lookup_app_l in Hb by done. rewrite lookup_app_l in Ha by lia.
      by apply (Hchain i).
    + rewrite length_app in Hge. simpl in Hge.
      assert (S i < length q + 2)%nat as Hi.
      { apply lookup_lt_Some in Hb. rewrite !length_app in Hb. simpl in Hb. lia. }
      assert (i = length q) as -> by lia.
      rewrite lookup_app_l in Ha by (rewrite length_app; simpl; lia).
      rewrite lookup_app_r in Ha by lia. rewrite Nat.sub_diag in Ha. injection Ha as <-.
      rewrite lookup_app_r in Hb by (rewrite length_app; simpl; lia).
      rewrite length_app in Hb. simpl in Hb.
      replace (S (length q) - (length q + 1))%nat with 0%nat in Hb by lia.
      injection Hb as <-. done.
Qed.

Lemma simple_path_step_backward_keeps (g : AssemblyGraph) (s : Z) (p p' : list Z) :
  simple_path_state g s p -> simple_path_step_backward g p = Ok (Some p') ->
  simple_path_state g s p' /\ length p' = S (length p).
Proof.
  intros (Hnd & Hs & Hkeys & Hchain). unfold simple_path_step_backward, list_getitem.
  destruct (p !! 0%nat) as [first_seg|] eqn:Hfirst; simpl; [|done].
  destruct (reverse_links g !! first_seg) as [[|potential [|? ?]]|] eqn:Hr; try done.
  destruct (py_in potential p || py_in (- potential) p) eqn:Hin; [done|].
  apply orb_false_iff in Hin as [Hin1%py_in_false Hin2%py_in_false].
  unfold getitem.
  destruct (forward_links g !! potential) as [[|x [|? ?]]|] eqn:Hf; simpl; try done.
  case_bool_decide as Hx; [|done]. subst x. intros [= <-].
  split; [|done].
  split; [|split; [|split]].
  - simpl. apply NoDup_cons. split; [|done]. by apply abs_not_listed.
  - by right.
  - intros y [->|Hy]%elem_of_cons; [|by apply Hkeys].
    right. left. by eapply key_listed.
  - intros i a b Ha Hb. destruct i as [|i]; simpl in Ha, Hb.
    + injection Ha as <-. rewrite Hfirst in Hb. injection Hb as <-. done.
    + by apply (Hchain i).
Qed.

Lemma simple_path_state_length (g : AssemblyGraph) (s : Z) (p : list Z) :
  simple_path_state g s p ->
  (length p <= S (size (forward_links g) + size (reverse_links g)))%nat.
Proof.
  intros (Hnd & _ & Hkeys & _).
  assert (NoDup p) as Hp by (by apply (NoDup_fmap_1 Z.abs)).
  assert (p ⊆+ s :: (map_to_list (forward_links g)).*1
                 ++ (map_to_list (reverse_links g)).*1) as Hsub.
  { apply NoDup_submseteq; [done|]. intros x Hx.
    destruct (Hkeys x Hx) as [->|[H|H]]; [left|right..];
      apply elem_of_app; [by left|by right]. }
  apply submseteq_length in Hsub. simpl in Hsub.
  rewrite length_app, !length_fmap, !length_map_to_list in Hsub. done.
Qed.

Lemma expand_path_returns (g : AssemblyGraph) (s : Z)
    (step : list Z -> result (option (list Z))) (fuel : nat) (p : list Z) :
  (forall q q', simple_path_state g s q -> step q = Ok (Some q') ->
     simple_path_state g s q' /\ length q' = S (length q)) ->
  simple_path_state g s p ->
  (S (size (forward_links g) + size (reverse_links g)) < fuel + length p)%nat ->
  exists r, expand_path fuel step p = Some r
            /\ forall p', r = Ok p' -> simple_path_state g s p'.
Proof.
  intros Hstep. revert p. induction fuel as [|fuel IH]; intros p Hp Hfuel.
  - apply simple_path_state_length in Hp. lia.
  - simpl. destruct (step p) as [[p'|]|e] eqn:E.
    + destruct (Hstep p p' Hp E) as [Hp' Hlen]. apply IH; [done|lia].
    + exists (Ok p). split; [done|]. by intros p' [= <-].
    + exists (Raise e). split; [done|]. done.
Qed.

Lemma expand_path_no_raise (g : AssemblyGraph) (s : Z)
    (step : list Z -> result (option (list Z))) (fuel : nat) (p : list Z) (e : exn) :
  (forall q q', simple_path_state g s q -> step q = Ok (Some q') ->
     simple_path_state g s q') ->
  (forall q e', simple_path_state g s q -> step q <> Raise e') ->
  simple_path_state g s p -> expand_path fuel step p <> Some (Raise e).
Proof.
  intros Hstep Hno. revert p. induction fuel as [|fuel IH]; intros p Hp; [done|].
  simpl. destruct (step p) as [[p'|]|e'] eqn:E.
  - apply IH. by eapply Hstep.
  - done.
  - by apply Hno in E.
Qed.

Lemma simple_path_state_nonempty (g : AssemblyGraph) (s : Z) (p : list Z) :
  simple_path_state g s p -> p <> [].
Proof. intros (_ & Hs & _) ->. by apply not_elem_of_nil in Hs. Qed.

(** X27: [get_simple_path] comes to an end within as many rounds as the
    link tables have keys (plus two).  The path it returns contains the
    starting segment, has no segment twice on either strand, and each of its
    entries has the next one as its only successor and is the only
    predecessor of the next one.  On a graph with well-formed link tables it
    does not raise. *)
Theorem get_simple_path_spec (g : AssemblyGraph) (starting_seg : Z) :
  exists r,
    get_simple_path (S (S (size (forward_links g) + size (reverse_links g))))
      g starting_seg = Some r
    /\ (forall p, r = Ok p ->
          starting_seg ∈ p /\ NoDup (map Z.abs p) /\ exclusive_chain g p)
    /\ (link_tables_ok g -> exists p, r = Ok p).
Proof.
  assert (simple_path_state g starting_seg [starting_seg]) as H0.
  { split; [apply NoDup_singleton|]. split; [left|]. split.
    - intros x Hx%list_elem_of_singleton. by left.
    - intros i x y Hx Hy. destruct i; done. }
  unfold get_simple_path.
  destruct (expand_path_returns g starting_seg (simple_path_step_forward g)
              (S (S (size (forward_links g) + size (reverse_links g)))) [starting_seg])
    as (r1 & E1 & H1); [apply simple_path_step_forward_keeps|done|simpl; lia|].
  rewrite E1. destruct r1 as [p1|e1].
  - specialize (H1 p1 eq_refl).
    destruct (expand_path_returns g starting_seg (simple_path_step_backward g)
                (S (S (size (forward_links g) + size (reverse_links g)))) p1)
      as (r2 & E2 & H2); [apply simple_path_step_backward_keeps|done| |].
    { pose proof (simple_path_state_nonempty _ _ _ H1). destruct p1; [done|]. simpl. lia. }
    exists r2. split; [done|]. split.
    + intros p ->. destruct (H2 p eq_refl) as (A & B & _ & C). done.
    + intros Hok. destruct r2 as [p2|e2]; [by eexists|]. exfalso.
      eapply (expand_path_no_raise g starting_seg (simple_path_step_backward g));
        [| |exact H1|exact E2].
      * intros q q' Hq Hs. by apply (simple_path_step_backward_keeps g starting_seg q q').
      * intros q e' Hq. unfold simple_path_step_backward, list_getitem.
        pose proof (simple_path_state_nonempty _ _ _ Hq).
        destruct q as [|first_seg q]; [done|]. simpl.
        destruct (reverse_links g !! first_seg) as [[|potential [|? ?]]|] eqn:Hr; try done.
        destruct (py_in potential (first_seg :: q)
                  || py_in (- potential) (first_seg :: q)); [done|].
        assert (is_Some (forward_links g !! potential)) as [l Hl].
        { destruct (Hok potential first_seg) as (_ & _ & Hm).
          assert (0 < link_count (reverse_links g) first_seg potential)%nat as Hc.
          { unfold link_count, links_of. rewrite Hr. simpl.
            rewrite count_in_cons, decide_True by done. lia. }
          rewrite Hm in Hc. unfold link_count, links_of in Hc.
          destruct (forward_links g !! potential); [by eexists|].
          simpl in Hc. rewrite count_in_nil in Hc. lia. }
        unfold getitem. rewrite Hl. simpl.
        destruct l as [|x [|? ?]]; try done. by case_bool_decide.
  - exists (Raise e1). split; [done|]. split; [done|].
    intros Hok. exfalso.
    eapply (expand_path_no_raise g starting_seg (simple_path_step_forward g));
      [| |exact H0|exact E1].
    + intros q q' Hq Hs. by apply (simple_path_step_forward_keeps g starting_seg q q').
    + intros q e' Hq. unfold simple_path_step_forward, list_last.
      pose proof (simple_path_state_nonempty _ _ _ Hq) as Hne.
      destruct (last q) as [last_seg|] eqn:Hlast; simpl.
      2: { by apply last_None in Hlast. }
      destruct (forward_links g !! last_seg) as [[|potential [|? ?]]|] eqn:Hf; try done.
      destruct (py_in potential q || py_in (- potential) q); [done|].
      assert (is_Some (reverse_links g !! potential)) as [l Hl].
      { destruct (Hok last_seg potential) as (_ & _ & Hm).
        assert (0 < link_count (forward_links g) last_seg potential)%nat as Hc.
        { unfold link_count, links_of. rewrite Hf. simpl.
          rewrite count_in_cons, decide_True by done. lia. }
        rewrite <- Hm in Hc. unfold link_count, links_of in Hc.
        destruct (reverse_links g !! potential); [by eexists|].
        simpl in Hc. rewrite count_in_nil in Hc. lia. }
      unfold getitem. rewrite Hl. simpl.
      destruct l as [|x [|? ?]]; try done. by case_bool_decide.
Qed.

Lemma get_simple_path_spec_witness :
  link_tables_ok merge_example
  /\ exists p, get_simple_path
                 (S (S (size (forward_links merge_example)
                        + size (reverse_links merge_example))))
                 merge_example 2 = Some (Ok p)
       /\ 2 ∈ p /\ NoDup (map Z.abs p) /\ exclusive_chain merge_example p.
Proof.
  assert (link_tables_ok merge_example) as H
    by (apply link_tables_ok_check_sound; vm_compute; reflexivity).
  destruct (get_simple_path_spec merge_example 2) as (r & E & Hp & Hok).
  destruct (Hok H) as (p & ->).
  split; [exact H|]. exists p. exact (conj E (Hp p eq_refl)).
Defined.

End SimplePath.

Section MergedSegment.

Lemma add_link_fields (start end_ : Z) (g : AssemblyGraph) :
  segments (add_link start end_ g) = segments g
  /\ copy_depths (add_link start end_ g) = copy_depths g.
Proof. done. Qed.

Lemma add_links_fields (f : AssemblyGraph -> Z -> AssemblyGraph) (links : list Z)
    (g : AssemblyGraph) :
  (forall g link, segments (f g link) = segments g
                  /\ copy_depths (f g link) = copy_depths g) ->
  segments (foldl f g links) = segments g
  /\ copy_depths (foldl f g links) = copy_depths g.
Proof.
  intros Hf. revert g. induction links as [|l links IH]; intros g; simpl; [done|].
  destruct (IH (f g l)) as [-> ->]. apply Hf.
Qed.

Lemma build_other_sequence_forward (num : Z) (d : Q) (sq : string)
    (b : option Bridge) (gp : option (list Z)) :
  let s := build_other_sequence_if_necessary (new_Segment num d sq true b gp) in
  number s = num /\ forward_sequence s = sq /\ reverse_sequence s = reverse_complement sq.
Proof.
  unfold build_other_sequence_if_necessary. simpl.
  destruct (string_empty sq) eqn:E; [|done]. destruct sq; [|done]. done.
Qed.

(** X28: when the segment part of [merge_simple_path] returns, the new
    segment is stored under its own number, its forward sequence is the
    sequence of the path and its reverse sequence the reverse complement of
    that; the segments of the path and their copy depths are gone, and all
    other segments and copy depths are as they were. *)
Theorem merge_simple_path_segments_segment (merge_path : list Z)
    (g g' : AssemblyGraph) (n : Z) :
  merge_simple_path_segments merge_path g = Ok (g', n) ->
  exists sq seg,
    get_path_sequence g merge_path = Ok sq
    /\ segments g' !! n = Some seg
    /\ number seg = n /\ forward_sequence seg = sq
    /\ reverse_sequence seg = reverse_complement sq
    /\ (forall k, k <> n ->
          segments g' !! k
          = if py_in k (map Z.abs merge_path) then None else segments g !! k)
    /\ (forall k, copy_depths g' !! k
          = if py_in k (map Z.abs merge_path) then None else copy_depths g !! k).
Proof.
  unfold merge_simple_path_segments.
  destruct (list_getitem merge_path 0) as [start|]; simpl; [|done].
  destruct (list_last merge_path) as [end_|]; simpl; [|done].
  destruct (path_segment_objects g merge_path) as [segs|]; simpl; [|done].
  destruct (if 0 <? Zsum _ then _ else _) as [mean_depth|]; simpl; [|done].
  destruct (get_next_available_seg_number g) as [m|]; simpl; [|done].
  destruct (get_path_sequence g merge_path) as [sq|]; simpl; [|done].
  intros [= <- <-].
  set (seg := build_other_sequence_if_necessary _).
  set (g2 := set_segments _ _).
  destruct (add_links_fields (fun g link => add_link m link g)
              (find_replace_one_val_in_list
                 (find_replace_one_val_in_list (links_of (forward_links g) end_) start m)
                 (- end_) (- m)) g2) as [S1 C1]; [intros; apply add_link_fields|].
  destruct (add_links_fields (fun g link => add_link link m g)
              (find_replace_one_val_in_list
                 (find_replace_one_val_in_list (links_of (reverse_links g) start) end_ m)
                 (- start) (- m))
              (foldl (fun g link => add_link m link g) g2
                 (find_replace_one_val_in_list
                    (find_replace_one_val_in_list (links_of (forward_links g) end_) start m)
                    (- end_) (- m)))) as [S2 C2]; [intros; apply add_link_fields|].
  exists sq, seg. split; [done|].
  destruct (build_other_sequence_forward m mean_depth sq None None) as (N1 & N2 & N3).
  split; [|split; [done|split; [done|split; [done|split]]]].
  - rewrite S2, S1. unfold g2. simpl. by rewrite lookup_insert_eq.
  - intros k Hk. rewrite S2, S1. unfold g2. simpl.
    rewrite lookup_insert_ne by done.
    destruct (py_in k (map Z.abs merge_path)) eqn:Hin.
    + apply map_lookup_filter_None. right. intros s _ H.
      unfold py_in in *. simpl in H. rewrite Hin in H. done.
    + destruct (segments g !! k) as [s|] eqn:Hs.
      * apply map_lookup_filter_Some. split; [done|].
        unfold py_in in *. simpl. by rewrite Hin.
      * apply map_lookup_filter_None. by left.
  - intros k. rewrite C2, C1. unfold g2. simpl. apply lookup_foldl_delete.
Qed.

Lemma merge_simple_path_segments_segment_witness :
  exists g' n sq seg,
    merge_simple_path_segments [1; 2; 3] merge_example = Ok (g', n)
    /\ get_path_sequence merge_example [1; 2; 3] = Ok sq
    /\ segments g' !! n = Some seg
    /\ forward_sequence seg = sq
    /\ reverse_sequence seg = reverse_complement sq.
Proof.
  destruct (merge_simple_path_segments [1; 2; 3] merge_example) as [[g' n]|e] eqn:E;
    [|vm_compute in E; discriminate E].
  destruct (merge_simple_path_segments_segment [1; 2; 3] merge_example g' n E)
    as (sq & seg & A1 & A2 & _ & A4 & A5 & _).
  exists g', n, sq, seg. exact (conj eq_refl (conj A1 (conj A2 (conj A4 A5)))).
Defined.

End MergedSegment.

Section SimpleLoops.

Lemma simple_loop_at_sound (g : AssemblyGraph) (middle start end_ m repeat : Z) :
  is_Some (segments g !! middle) ->
  simple_loop_at g middle = Ok (Some (start, end_, m, repeat)) ->
  m = middle /\ simple_loop g start end_ middle repeat.
Proof.
  intros Hseg. unfold simple_loop_at, simple_loop, getitem, links_of.
  destruct (forward_links g !! middle) as [[|f0 [|? ?]]|] eqn:Hf; try done;
    destruct (reverse_links g !! middle) as [[|r0 [|? ?]]|] eqn:Hr; try done.
  case_bool_decide as E; simpl; [|done]. subst r0.
  destruct (forward_links g !! f0) as [[|out0 [|out1 [|? ?]]]|] eqn:Hout; simpl; try done.
  destruct (reverse_links g !! f0) as [[|in0 [|in1 [|? ?]]]|] eqn:Hin; simpl; try done.
  destruct (bool_decide (Z.abs (if bool_decide (Z.abs in0 = Z.abs middle) then in1 else in0)
                         = Z.abs middle)
            || bool_decide (Z.abs (if bool_decide (Z.abs in0 = Z.abs middle)
                                   then in1 else in0) = Z.abs f0)) eqn:Hs; [done|].
  destruct (bool_decide (Z.abs (if bool_decide (Z.abs out0 = Z.abs middle)
                                then out1 else out0) = Z.abs middle)
            || bool_decide (Z.abs (if bool_decide (Z.abs out0 = Z.abs middle)
                                   then out1 else out0) = Z.abs f0)) eqn:He; [done|].
  intros [= <- <- <- <-].
  apply orb_false_iff in Hs as [Hs1%bool_decide_eq_false Hs2%bool_decide_eq_false].
  apply orb_false_iff in He as [He1%bool_decide_eq_false He2%bool_decide_eq_false].
  split; [done|]. rewrite ?Hout, ?Hin. simpl.
  split; [done|]. split; [done|]. split; [done|]. split; [done|]. split; [done|].
  split.
  { destruct (bool_decide (Z.abs out0 = Z.abs middle)); [right; left|left]. }
  split.
  { destruct (bool_decide (Z.abs in0 = Z.abs middle)); [right; left|left]. }
  done.
Qed.

Lemma simple_loop_at_no_raise (g : AssemblyGraph) (middle : Z) :
  link_tables_ok g -> exists r, simple_loop_at g middle = Ok r.
Proof.
  intros Hok. unfold simple_loop_at, getitem.
  destruct (forward_links g !! middle) as [[|f0 [|? ?]]|] eqn:Hf; try by eexists.
  all: destruct (reverse_links g !! middle) as [[|r0 [|? ?]]|] eqn:Hr; try by eexists.
  case_bool_decide as E; simpl; [|by eexists]. subst r0.
  assert (0 < link_count (forward_links g) middle f0)%nat as Hc1.
  { unfold link_count, links_of. rewrite Hf. simpl.
    rewrite count_in_cons, decide_True by done. lia. }
  assert (0 < link_count (reverse_links g) middle f0)%nat as Hc2.
  { unfold link_count, links_of. rewrite Hr. simpl.
    rewrite count_in_cons, decide_True by done. lia. }
  destruct (Hok middle f0) as (_ & _ & Hm1). rewrite <- Hm1 in Hc1.
  destruct (Hok f0 middle) as (_ & _ & Hm2). rewrite Hm2 in Hc2.
  unfold link_count, links_of in Hc1, Hc2.
  destruct (forward_links g !! f0) as [out|];
    [|simpl in Hc2; rewrite count_in_nil in Hc2; lia].
  destruct (reverse_links g !! f0) as [inc|];
    [|simpl in Hc1; rewrite count_in_nil in Hc1; lia].
  simpl. destruct out as [|out0 [|out1 [|? ?]]]; try by eexists.
  simpl. destruct inc as [|in0 [|in1 [|? ?]]]; try by eexists.
  destruct (_ || _); [by eexists|]. destruct (_ || _); by eexists.
Qed.

(** X29: every tuple [(start, end, middle, repeat)] that
    [find_all_simple_loops] returns is a simple loop of the graph: the
    middle segment is a segment whose only successor and only predecessor is
    the repeat segment, the repeat segment has exactly two links on each
    side, among them the one to the end and the one from the start, and the
    start and the end are neither the middle nor the repeat segment.  On a
    graph with well-formed link tables the function does not raise. *)
Theorem find_all_simple_loops_sound (g : AssemblyGraph) :
  (forall loops start end_ middle repeat,
     find_all_simple_loops g = Ok loops ->
     (start, end_, middle, repeat) ∈ loops ->
     simple_loop g start end_ middle repeat)
  /\ (link_tables_ok g -> exists loops, find_all_simple_loops g = Ok loops).
Proof.
  unfold find_all_simple_loops.
  assert (forall k, k ∈ (map_to_list (segments g)).*1 -> is_Some (segments g !! k)) as Hkeys.
  { intros k Hk. apply list_elem_of_fmap in Hk as ([k' s] & -> & Hks).
    apply elem_of_map_to_list in Hks. by eexists. }
  revert Hkeys. generalize (map_to_list (segments g)).*1. intros middles Hkeys. split.
  - induction middles as [|m middles IH]; intros loops start end_ middle repeat; simpl.
    + intros [= <-] Hin. by apply not_elem_of_nil in Hin.
    + destruct (simple_loop_at g m) as [found|] eqn:Hat; simpl; [|done].
      destruct (simple_loops_from g middles) as [rest|] eqn:Hrest; simpl; [|done].
      intros [= <-] Hin.
      assert ((start, end_, middle, repeat) ∈ rest ->
              simple_loop g start end_ middle repeat) as Hold.
      { intros H. eapply IH; [|done|done]. intros k Hk. apply Hkeys. by right. }
      destruct found as [[[[s e] mid] rep]|]; [|by apply Hold].
      apply elem_of_cons in Hin as [[= -> -> -> ->]|Hin]; [|by apply Hold].
      destruct (simple_loop_at_sound g m s e mid rep) as [-> H]; [apply Hkeys; left|done|].
      done.
  - intros Hok. clear Hkeys. induction middles as [|m middles IH]; simpl; [by eexists|].
    destruct (simple_loop_at_no_raise g m Hok) as (r & ->). simpl.
    destruct IH as (rest & ->). simpl. by eexists.
Qed.

Lemma find_all_simple_loops_sound_witness :
  link_tables_ok simple_loop_example
  /\ exists loops, find_all_simple_loops simple_loop_example = Ok loops
       /\ ((1, 4, 3, 2) ∈ loops)
       /\ simple_loop simple_loop_example 1 4 3 2.
Proof.
  assert (link_tables_ok simple_loop_example) as H
    by (apply link_tables_ok_check_sound; vm_compute; reflexivity).
  destruct (find_all_simple_loops_sound simple_loop_example) as [Hsound Hret].
  destruct (Hret H) as (loops & E).
  assert ((1, 4, 3, 2) ∈ loops) as Hin.
  { assert (find_all_simple_loops simple_loop_example = Ok [(1, 4, 3, 2)]) as E'
      by (vm_compute; reflexivity).
    rewrite E' in E. injection E as <-. left. }
  split; [exact H|]. exists loops.
  exact (conj E (conj Hin (Hsound loops 1 4 3 2 E Hin))).
Defined.

End SimpleLoops.

Section GfaLinkLines.

Lemma chars_app (s1 s2 : string) :
  list_ascii_of_string (s1 +:+ s2)
  = list_ascii_of_string s1 ++ list_ascii_of_string s2.
Proof. induction s1 as [|c s1 IH]; simpl; [done|by rewrite IH]. Qed.

Lemma chars_inj (s1 s2 : string) :
  list_ascii_of_string s1 = list_ascii_of_string s2 -> s1 = s2.
Proof.
  intros H. rewrite <- (string_of_list_ascii_of_string s1),
    <- (string_of_list_ascii_of_string s2). by rewrite H.
Qed.

Lemma pretty_N_char_digit (x : N) :
  pretty_N_char x ∈ list_ascii_of_string "0123456789".
Proof.
  unfold pretty_N_char. apply list_elem_of_In. simpl.
  repeat case_match; tauto.
Qed.

Lemma pretty_N_go_chars (x : N) (s : string) (c : ascii) :
  c ∈ list_ascii_of_string (pretty_N_go x s) ->
  c ∈ list_ascii_of_string s \/ c ∈ list_ascii_of_string "0123456789".
Proof.
  revert s. induction (N.lt_wf_0 x) as [x _ IH]; intros s.
  assert (x = 0 \/ 0 < x)%N as [->|Hx] by lia.
  - rewrite pretty_N_go_0. by left.
  - rewrite pretty_N_go_step by done. intros Hc.
    apply IH in Hc as [Hc|Hc]; [|by right|by apply N.div_lt].
    simpl in Hc. apply elem_of_cons in Hc as [->|Hc]; [|by left].
    right. apply pretty_N_char_digit.
Qed.

Lemma pretty_N_chars (x : N) (c : ascii) :
  c ∈ list_ascii_of_string (pretty x) -> c ∈ list_ascii_of_string "0123456789".
Proof.
  unfold pretty, pretty_N. case_decide.
  - intros Hc%list_elem_of_singleton. subst. apply list_elem_of_In. simpl. tauto.
  - intros [Hc|Hc]%pretty_N_go_chars; [|done]. by apply not_elem_of_nil in Hc.
Qed.

Lemma pretty_Z_chars (z : Z) (c : ascii) :
  c ∈ list_ascii_of_string (pretty z) -> c ∈ list_ascii_of_string "0123456789-".
Proof.
  assert (forall c, c ∈ list_ascii_of_string "0123456789" ->
                    c ∈ list_ascii_of_string "0123456789-") as Hd.
  { intros c'. rewrite !list_elem_of_In. simpl. tauto. }
  unfold pretty, pretty_Z. destruct z as [|p|p].
  - intros Hc%list_elem_of_singleton. subst. apply list_elem_of_In. simpl. tauto.
  - intros Hc. by apply Hd, (pretty_N_chars (N.pos p)).
  - rewrite chars_app. intros [Hc|Hc]%elem_of_app.
    + apply list_elem_of_singleton in Hc. subst. apply list_elem_of_In. simpl. tauto.
    + by apply Hd, (pretty_N_chars (N.pos p)).
Qed.

Lemma get_sign_string_chars (num : Z) (c : ascii) :
  c ∈ list_ascii_of_string (get_sign_string num) -> c ∈ list_ascii_of_string "+-".
Proof.
  unfold get_sign_string. destruct (0 <=? num); intros Hc%list_elem_of_singleton;
    subst; apply list_elem_of_In; simpl; tauto.
Qed.

(** The characters of a link line before its newline. *)
Lemma gfa_link_line_chars (g : AssemblyGraph) (start end_ : Z) :
  exists body,
    list_ascii_of_string (gfa_link_line g start end_) = body ++ [ascii_of_nat 10]
    /\ (ascii_of_nat 10 ∉ body).
Proof.
  unfold gfa_link_line. rewrite !chars_app.
  exists (list_ascii_of_string "L" ++ list_ascii_of_string tab
          ++ list_ascii_of_string (pretty (Z.abs start)) ++ list_ascii_of_string tab
          ++ list_ascii_of_string (get_sign_string start) ++ list_ascii_of_string tab
          ++ list_ascii_of_string (pretty (Z.abs end_)) ++ list_ascii_of_string tab
          ++ list_ascii_of_string (get_sign_string end_) ++ list_ascii_of_string tab
          ++ list_ascii_of_string (pretty (overlap g)) ++ list_ascii_of_string "M").
  split; [by rewrite <- !app_assoc|].
  assert (forall z, ascii_of_nat 10 ∉ list_ascii_of_string (pretty (z : Z))) as Hp.
  { intros z Hc%pretty_Z_chars. apply list_elem_of_In in Hc. simpl in Hc.
    repeat (destruct Hc as [Hc|Hc]; [discriminate Hc|]). done. }
  assert (forall z, ascii_of_nat 10 ∉ list_ascii_of_string (get_sign_string z)) as Hs.
  { intros z Hc%get_sign_string_chars. apply list_elem_of_In in Hc. simpl in Hc.
    repeat (destruct Hc as [Hc|Hc]; [discriminate Hc|]). done. }
  assert (forall s : string, s = "L"%string \/ s = tab \/ s = "M"%string ->
            ascii_of_nat 10 ∉ list_ascii_of_string s) as Hk.
  { intros s [-> | [-> | ->]] Hc%list_elem_of_singleton; discriminate Hc. }
  rewrite !not_elem_of_app.
  repeat split; (apply Hp || apply Hs || (apply Hk; tauto)).
Qed.

Lemma split_lines_line (body rest cur : list ascii) :
  ascii_of_nat 10 ∉ body ->
  split_lines cur (body ++ [ascii_of_nat 10] ++ rest)
  = (cur ++ body ++ [ascii_of_nat 10]) :: split_lines [] rest.
Proof.
  revert cur. induction body as [|c body IH]; intros cur Hn; simpl.
  - done.
  - apply not_elem_of_cons in Hn as [Hc Hn].
    destruct (Ascii.eqb_spec c (ascii_of_nat 10)) as [->|_]; [done|].
    rewrite IH by done. by rewrite <- app_assoc.
Qed.

Lemma text_lines_of_lines (g : AssemblyGraph) (links : list (Z * Z)) :
  split_lines []
    (concat (map (fun ab => list_ascii_of_string (gfa_link_line g ab.1 ab.2)) links))
  = map (fun ab => list_ascii_of_string (gfa_link_line g ab.1 ab.2)) links.
Proof.
  induction links as [|[a b] links IH]; [done|]. cbn [map concat fst snd].
  destruct (gfa_link_line_chars g a b) as (body & -> & Hn).
  rewrite <- app_assoc, split_lines_line by done. by rewrite IH.
Qed.

Lemma gfa_lines_of_start (g : AssemblyGraph) (start : Z) (ends : list Z) (acc : string) :
  list_ascii_of_string
    (foldl (fun gfa_link_lines end_ =>
              if is_link_positive start end_
              then gfa_link_lines +:+ gfa_link_line g start end_
              else gfa_link_lines) acc ends)
  = list_ascii_of_string acc
    ++ concat (map (fun ab => list_ascii_of_string (gfa_link_line g ab.1 ab.2))
                 (map (fun end_ => (start, end_))
                    (List.filter (fun end_ => is_link_positive start end_) ends))).
Proof.
  revert acc. induction ends as [|e ends IH]; intros acc; simpl.
  - by rewrite app_nil_r.
  - rewrite IH. destruct (is_link_positive start e); simpl; [|done].
    by rewrite chars_app, <- app_assoc.
Qed.

Lemma gfa_lines_of_items (g : AssemblyGraph) (items : list (Z * list Z)) (acc : string) :
  list_ascii_of_string
    (foldl (fun gfa_link_lines se =>
              foldl (fun gfa_link_lines end_ =>
                       if is_link_positive se.1 end_
                       then gfa_link_lines +:+ gfa_link_line g se.1 end_
                       else gfa_link_lines)
                    gfa_link_lines se.2) acc items)
  = list_ascii_of_string acc
    ++ concat (map (fun ab => list_ascii_of_string (gfa_link_line g ab.1 ab.2))
                 (flat_map (fun se => map (fun end_ => (se.1, end_))
                              (List.filter (fun end_ => is_link_positive se.1 end_) se.2))
                           items)).
Proof.
  revert acc. induction items as [|[k l] items IH]; intros acc; simpl.
  - by rewrite app_nil_r.
  - rewrite IH, gfa_lines_of_start, map_app, concat_app, <- app_assoc. done.
Qed.

(** The text that [get_all_gfa_link_lines] returns is made of the lines of
    the positive links, one after the other. *)
Lemma text_lines_gfa (g : AssemblyGraph) :
  text_lines (get_all_gfa_link_lines g)
  = map (fun ab => gfa_link_line g ab.1 ab.2) (gfa_links g).
Proof.
  unfold text_lines, get_all_gfa_link_lines.
  rewrite gfa_lines_of_items. cbn [list_ascii_of_string app]. fold (gfa_links g).
  rewrite text_lines_of_lines, map_map.
  apply map_ext. intros ab. apply string_of_list_ascii_of_string.
Qed.

Lemma split_at_separator (sep : ascii) (u u' r r' : list ascii) :
  sep ∉ u -> sep ∉ u' -> u ++ sep :: r = u' ++ sep :: r' -> u = u' /\ r = r'.
Proof.
  revert u'. induction u as [|c u IH]; intros u' Hu Hu' H.
  - destruct u' as [|c' u']; simpl in H.
    + by injection H as ->.
    + injection H as <- _. exfalso. apply Hu'. left.
  - destruct u' as [|c' u']; simpl in H.
    + injection H as -> _. exfalso. apply Hu. left.
    + injection H as -> H. apply not_elem_of_cons in Hu as [_ Hu].
      apply not_elem_of_cons in Hu' as [_ Hu'].
      destruct (IH u' Hu Hu' H) as [-> ->]. done.
Qed.

Lemma signed_number_inj (a a' : Z) :
  a <> 0 -> a' <> 0 -> Z.abs a = Z.abs a' ->
  get_sign_string a = get_sign_string a' -> a = a'.
Proof.
  unfold get_sign_string. intros Ha Ha' Habs.
  destruct (Z.leb_spec 0 a), (Z.leb_spec 0 a'); intros Hsign;
    try discriminate Hsign; lia.
Qed.

Lemma gfa_link_line_inj (g : AssemblyGraph) (a b a' b' : Z) :
  a <> 0 -> b <> 0 -> a' <> 0 -> b' <> 0 ->
  gfa_link_line g a b = gfa_link_line g a' b' -> a = a' /\ b = b'.
Proof.
  intros Ha Hb Ha' Hb' H. apply (f_equal list_ascii_of_string) in H.
  unfold gfa_link_line in H. rewrite !chars_app in H.
  assert (forall z, ascii_of_nat 9 ∉ list_ascii_of_string (pretty (z : Z))) as Hp.
  { intros z Hc%pretty_Z_chars. apply list_elem_of_In in Hc. simpl in Hc.
    repeat (destruct Hc as [Hc|Hc]; [discriminate Hc|]). done. }
  assert (forall z, ascii_of_nat 9 ∉ list_ascii_of_string (get_sign_string z)) as Hs.
  { intros z Hc%get_sign_string_chars. apply list_elem_of_In in Hc. simpl in Hc.
    repeat (destruct Hc as [Hc|Hc]; [discriminate Hc|]). done. }
  change (list_ascii_of_string tab) with [ascii_of_nat 9] in H.
  change (list_ascii_of_string "L") with ["L"%char] in H.
  simpl in H. injection H as H.
  apply split_at_separator in H as [H1 H]; [|apply Hp..].
  apply split_at_separator in H as [H2 H]; [|apply Hs..].
  apply split_at_separator in H as [H3 H]; [|apply Hp..].
  apply split_at_separator in H as [H4 _]; [|apply Hs..].
  apply chars_inj in H1, H2, H3, H4.
  apply (inj pretty) in H1, H3.
  split; by apply signed_number_inj.
Qed.

Lemma count_in_map_inj {A B} `{EqDecision A} `{EqDecision B} (f : A -> B)
    (x : A) (l : list A) :
  (forall y, y ∈ l -> f y = f x -> y = x) ->
  count_in (f x) (map f l) = count_in x l.
Proof.
  induction l as [|y l IH]; intros Hinj; [done|]. simpl.
  rewrite !count_in_cons, IH by (intros z Hz; apply Hinj; by right).
  destruct (decide (y = x)) as [->|Hne].
  - by rewrite decide_True.
  - rewrite decide_False; [done|]. intros Hf. apply Hne, Hinj; [left|done].
Qed.

Lemma gfa_links_are_links (g : AssemblyGraph) (a b : Z) :
  (a, b) ∈ gfa_links g -> has_link g a b /\ is_link_positive a b = true.
Proof.
  intros Hin. apply count_in_elem in Hin. rewrite gfa_links_count in Hin.
  destruct (is_link_positive a b); [|lia]. split; [|done].
  by apply count_in_elem.
Qed.

Lemma emitted_count_eq (g : AssemblyGraph) (a b : Z) :
  links_nonzero g -> a <> 0 -> b <> 0 ->
  emitted_count g a b
  = if is_link_positive a b then count_in b (links_of (forward_links g) a) else 0%nat.
Proof.
  intros Hnz Ha Hb. unfold emitted_count.
  rewrite text_lines_gfa, <- gfa_links_count.
  apply (count_in_map_inj (fun ab => gfa_link_line g ab.1 ab.2) (a, b)).
  intros [x y] Hin Hline. simpl in Hline.
  apply gfa_links_are_links in Hin as [Hl _]. destruct (Hnz x y Hl) as [Hx Hy].
  by destruct (gfa_link_line_inj g x y a b Hx Hy Ha Hb Hline) as [-> ->].
Qed.

End GfaLinkLines.

(** C10: [is_link_positive] is true exactly when both numbers are positive,
    or, the two not being both negative, [a = -b] or [|a| > |b|]; two
    negative numbers are never positive.  Hence in a strand-symmetric graph
    the text that [get_all_gfa_link_lines] returns has one line in all for a
    link and its distinct twin, and one line for a link that is its own
    twin; and every line of that text is the line of a positive link of the
    graph. *)
Theorem gfa_one_line_per_link_pair (g : AssemblyGraph) :
  links_nonzero g ->
  strand_symmetric g ->
  (forall a b, a <> 0 -> b <> 0 ->
     (is_link_positive a b = true <->
        (0 < a /\ 0 < b) \/ (~ (a < 0 /\ b < 0) /\ (a = - b \/ Z.abs b < Z.abs a)))
     /\ (a < 0 -> b < 0 -> is_link_positive a b = false)
     /\ (a <> - b -> is_link_positive (- b) (- a) = negb (is_link_positive a b)))
  /\ (forall a b, has_link g a b ->
        (a <> - b -> (emitted_count g a b + emitted_count g (- b) (- a) = 1)%nat)
        /\ (a = - b -> emitted_count g a b = 1%nat))
  /\ (forall line, line ∈ text_lines (get_all_gfa_link_lines g) ->
        exists a b, has_link g a b /\ is_link_positive a b = true
                    /\ line = gfa_link_line g a b).
Proof.
  intros Hnz Hsym. split; [|split].
  - intros a b Ha Hb. split; [by apply is_link_positive_iff|].
    split; [apply is_link_positive_negative|by apply is_link_positive_twin].
  - intros a b Hab.
    destruct (Hnz a b Hab) as [Ha Hb].
    pose proof (Hsym a b Hab) as Htwin.
    assert (has_link g (- b) (- a)) as Hba.
    { apply count_in_pos. rewrite Htwin. lia. }
    pose proof (Hsym _ _ Hba) as Hown. rewrite !Z.opp_involutive in Hown.
    rewrite !emitted_count_eq by (done || lia). split.
    + intros Hne. rewrite is_link_positive_twin by done.
      rewrite Htwin, Hown.
      by destruct (is_link_positive a b).
    + intros ->.
      pose proof (is_link_positive_self_twin (- b) Ha) as Hs.
      rewrite Z.opp_involutive in Hs. by rewrite Hs.
  - intros line Hin. rewrite text_lines_gfa in Hin.
    apply list_elem_of_fmap in Hin as ([a b] & -> & Hin).
    apply gfa_links_are_links in Hin as [Hl Hp]. by exists a, b.
Qed.

Lemma gfa_one_line_per_link_pair_witness :
  (emitted_count scenario5 1 2 + emitted_count scenario5 (-2) (-1) = 1)%nat.
Proof.
  assert (has_link scenario5 1 2) as H.
  { vm_compute. apply list_elem_of_here. }
  refine (proj1 (proj1 (proj2 (gfa_one_line_per_link_pair scenario5
            (links_nonzero_check_sound _ _) (strand_symmetric_check_sound _ _))) 1 2 H) _).
  - vm_compute; reflexivity.
  - vm_compute; reflexivity.
  - lia.
Defined.
